(** * A shallow embedding of the chess rules engine (chess/ChessEngine.py)

    The engine is a Python class [GameState] that owns an 8x8 board of
    two-character piece codes, the move log and the auxiliary state needed to
    undo moves, together with the value classes [Move] and [CastleRights].

    The embedding follows the source function by function:
    - Python integers are [Z]; list indexing follows Python (a negative index
      counts from the end, an index outside the list raises [IndexError]);
    - a piece code such as "wK" or "--" is a pair of characters;
    - a method that mutates [self] takes the state and returns the new one;
    - a raised exception is a value [Raise e] of the [result] type;
    - [CastleRights] objects live in an object store ([heap]) and the state
      holds references to them, because the source shares one such object
      between [currentCastlingRight] and [castleRightsLog];
    - the three logs, which the engine uses as stacks, are kept top first. *)

From Stdlib Require Import ZArith List Ascii Bool Lia.
From stdpp Require Import base list gmap.
From Stdlib Require String.
Import String.StringSyntax.
Delimit Scope string_scope with string.
Import ListNotations.

Local Open Scope Z_scope.

(** ** Exceptions and results *)

Inductive exn : Set := IndexError | NameError | KeyError.

Inductive result (A : Type) : Type :=
| Ok (a : A)
| Raise (e : exn).

Arguments Ok {A} a.
Arguments Raise {A} e.

Definition bind {A B : Type} (c : result A) (k : A -> result B) : result B :=
  match c with
  | Ok a => k a
  | Raise e => Raise e
  end.

Notation "x <- c ;; k" := (bind c (fun x => k))
  (at level 100, c at next level, right associativity).

(** ** Python lists *)

Module Py.

(** [l[i]] *)
Definition index {A : Type} (l : list A) (i : Z) : result A :=
  let n := Z.of_nat (length l) in
  let j := if i <? 0 then i + n else i in
  if (0 <=? j) && (j <? n) then
    match l !! Z.to_nat j with
    | Some x => Ok x
    | None => Raise IndexError
    end
  else Raise IndexError.

(** [l[i] = x] *)
Definition setitem {A : Type} (l : list A) (i : Z) (x : A) : result (list A) :=
  let n := Z.of_nat (length l) in
  let j := if i <? 0 then i + n else i in
  if (0 <=? j) && (j <? n) then Ok (<[Z.to_nat j := x]> l)
  else Raise IndexError.

(** A list that the engine uses as a stack (it only appends to it, pops it,
    reads its last element and takes its length) is kept top first: its head
    is the element appended last. The three logs of [GameState] are such
    lists. *)

(** [l.append(x)] *)
Definition push {A : Type} (x : A) (l : list A) : list A := x :: l.

(** [l.pop()]: the list without its last element, and that element *)
Definition pop {A : Type} (l : list A) : result (list A * A) :=
  match l with
  | x :: l' => Ok (l', x)
  | [] => Raise IndexError
  end.

(** [l[-1]] *)
Definition top {A : Type} (l : list A) : result A :=
  match l with
  | x :: _ => Ok x
  | [] => Raise IndexError
  end.

(** [l.remove(x)] for a value [x] taken from [l]: drops the first element
    equal to [x] *)
Fixpoint remove {A : Type} (eqb : A -> A -> bool) (x : A) (l : list A) : list A :=
  match l with
  | [] => []
  | y :: l' => if eqb y x then l' else y :: remove eqb x l'
  end.

Fixpoint upto (fuel : nat) (start stop : Z) : list Z :=
  match fuel with
  | O => []
  | S fuel' => if start <? stop then start :: upto fuel' (start + 1) stop else []
  end.

Fixpoint downto (fuel : nat) (start stop : Z) : list Z :=
  match fuel with
  | O => []
  | S fuel' => if stop <? start then start :: downto fuel' (start - 1) stop else []
  end.

(** [range(start, stop)] *)
Definition range (start stop : Z) : list Z :=
  upto (Z.to_nat (stop - start)) start stop.

(** [range(start, stop, -1)] *)
Definition range_down (start stop : Z) : list Z :=
  downto (Z.to_nat (start - stop)) start stop.

End Py.

(** ** Pieces and the board *)

Definition Piece : Type := (ascii * ascii)%type.

Definition Piece_eqb (p q : Piece) : bool :=
  Ascii.eqb (fst p) (fst q) && Ascii.eqb (snd p) (snd q).

(** the code [xy] of the source, as in "wK" *)
Definition pc (x y : ascii) : Piece := (x, y).

Definition EMPTY : Piece := pc "-" "-".

Definition Board : Type := list (list Piece).

Definition Square : Type := (Z * Z)%type.

Definition Square_eqb (a b : Square) : bool :=
  (fst a =? fst b) && (snd a =? snd b).

(** [board[r][c]] *)
Definition board_get (b : Board) (r c : Z) : result Piece :=
  row <- Py.index b r ;; Py.index row c.

(** [board[r][c] = p] *)
Definition board_set (b : Board) (r c : Z) (p : Piece) : result Board :=
  row <- Py.index b r ;;
  row' <- Py.setitem row c p ;;
  Py.setitem b r row'.

(** ** class CastleRights *)

Record CastleRights : Set := mkCastleRights
  { wks : bool; bks : bool; wqs : bool; bqs : bool }.

#[global] Instance CastleRights_inhabited : Inhabited CastleRights :=
  populate (mkCastleRights false false false false).

(** ** class Move *)

Record Move : Type := mkMove
  { startRow : Z;
    startCol : Z;
    endRow : Z;
    endCol : Z;
    pieceMoved : Piece;
    pieceCaptured : Piece;
    isPawnPromotion : bool;
    isEnpassantMove : bool;
    isCapture : bool;
    isCastleMove : bool;
    moveID : Z }.

(** [Move.__init__(startSq, endSq, board, isEnpassantMove, isCastleMove)] *)
Definition Move_init (startSq endSq : Square) (b : Board)
    (enpassant castle : bool) : result Move :=
  let sr := fst startSq in
  let sc := snd startSq in
  let er := fst endSq in
  let ec := snd endSq in
  pm <- board_get b sr sc ;;
  cap <- board_get b er ec ;;
  let promo := (Piece_eqb pm (pc "w" "p") && (er =? 0))
               || (Piece_eqb pm (pc "b" "p") && (er =? 7)) in
  let cap := if enpassant
             then (if Piece_eqb pm (pc "b" "p") then pc "w" "p" else pc "b" "p")
             else cap in
  Ok {| startRow := sr; startCol := sc; endRow := er; endCol := ec;
        pieceMoved := pm; pieceCaptured := cap;
        isPawnPromotion := promo;
        isEnpassantMove := enpassant;
        isCapture := negb (Piece_eqb cap EMPTY);
        isCastleMove := castle;
        moveID := sr * 1000 + sc * 100 + er * 10 + ec |}.

(** [Move.__eq__] *)
Definition Move_eq (m other : Move) : bool := moveID m =? moveID other.

(** ** class GameState *)

Definition loc : Type := positive.

Definition Pin : Type := (Z * Z * Z * Z)%type.

Definition Pin_eqb (p q : Pin) : bool :=
  let '(a1, b1, c1, d1) := p in
  let '(a2, b2, c2, d2) := q in
  (a1 =? a2) && (b1 =? b2) && (c1 =? c2) && (d1 =? d2).

Record GameState : Type := mkGameState
  { board : Board;
    moveLog : list Move;                        (* a stack, top first *)
    whiteToMove : bool;
    whiteKingLocation : Square;
    blackKingLocation : Square;
    inCheck : bool;
    pins : list Pin;
    checks : list Pin;
    checkmate : bool;
    stalemate : bool;
    enPassantPossible : option Square;          (* [()] is [None] *)
    enPassantPossibleLog : list (option Square);  (* a stack, top first *)
    currentCastlingRight : loc;                 (* a reference *)
    castleRightsLog : list loc;                 (* a stack of references *)
    heap : gmap loc CastleRights;               (* the CastleRights objects *)
    nextLoc : loc }.                            (* next unused reference *)

(** *** Field assignments [self.f = v] *)

Definition set_board (s : GameState) (v : Board) : GameState :=
  mkGameState v (moveLog s) (whiteToMove s) (whiteKingLocation s)
    (blackKingLocation s) (inCheck s) (pins s) (checks s) (checkmate s)
    (stalemate s) (enPassantPossible s) (enPassantPossibleLog s)
    (currentCastlingRight s) (castleRightsLog s) (heap s) (nextLoc s).

Definition set_moveLog (s : GameState) (v : list Move) : GameState :=
  mkGameState (board s) v (whiteToMove s) (whiteKingLocation s)
    (blackKingLocation s) (inCheck s) (pins s) (checks s) (checkmate s)
    (stalemate s) (enPassantPossible s) (enPassantPossibleLog s)
    (currentCastlingRight s) (castleRightsLog s) (heap s) (nextLoc s).

Definition set_whiteToMove (s : GameState) (v : bool) : GameState :=
  mkGameState (board s) (moveLog s) v (whiteKingLocation s)
    (blackKingLocation s) (inCheck s) (pins s) (checks s) (checkmate s)
    (stalemate s) (enPassantPossible s) (enPassantPossibleLog s)
    (currentCastlingRight s) (castleRightsLog s) (heap s) (nextLoc s).

Definition set_whiteKingLocation (s : GameState) (v : Square) : GameState :=
  mkGameState (board s) (moveLog s) (whiteToMove s) v
    (blackKingLocation s) (inCheck s) (pins s) (checks s) (checkmate s)
    (stalemate s) (enPassantPossible s) (enPassantPossibleLog s)
    (currentCastlingRight s) (castleRightsLog s) (heap s) (nextLoc s).

Definition set_blackKingLocation (s : GameState) (v : Square) : GameState :=
  mkGameState (board s) (moveLog s) (whiteToMove s) (whiteKingLocation s)
    v (inCheck s) (pins s) (checks s) (checkmate s)
    (stalemate s) (enPassantPossible s) (enPassantPossibleLog s)
    (currentCastlingRight s) (castleRightsLog s) (heap s) (nextLoc s).

(** [self.inCheck, self.pins, self.checks = ...] *)
Definition set_check_info (s : GameState) (ic : bool) (ps cs : list Pin) : GameState :=
  mkGameState (board s) (moveLog s) (whiteToMove s) (whiteKingLocation s)
    (blackKingLocation s) ic ps cs (checkmate s)
    (stalemate s) (enPassantPossible s) (enPassantPossibleLog s)
    (currentCastlingRight s) (castleRightsLog s) (heap s) (nextLoc s).

Definition set_pins (s : GameState) (v : list Pin) : GameState :=
  mkGameState (board s) (moveLog s) (whiteToMove s) (whiteKingLocation s)
    (blackKingLocation s) (inCheck s) v (checks s) (checkmate s)
    (stalemate s) (enPassantPossible s) (enPassantPossibleLog s)
    (currentCastlingRight s) (castleRightsLog s) (heap s) (nextLoc s).

Definition set_checkmate (s : GameState) (v : bool) : GameState :=
  mkGameState (board s) (moveLog s) (whiteToMove s) (whiteKingLocation s)
    (blackKingLocation s) (inCheck s) (pins s) (checks s) v
    (stalemate s) (enPassantPossible s) (enPassantPossibleLog s)
    (currentCastlingRight s) (castleRightsLog s) (heap s) (nextLoc s).

Definition set_stalemate (s : GameState) (v : bool) : GameState :=
  mkGameState (board s) (moveLog s) (whiteToMove s) (whiteKingLocation s)
    (blackKingLocation s) (inCheck s) (pins s) (checks s) (checkmate s)
    v (enPassantPossible s) (enPassantPossibleLog s)
    (currentCastlingRight s) (castleRightsLog s) (heap s) (nextLoc s).

Definition set_enPassantPossible (s : GameState) (v : option Square) : GameState :=
  mkGameState (board s) (moveLog s) (whiteToMove s) (whiteKingLocation s)
    (blackKingLocation s) (inCheck s) (pins s) (checks s) (checkmate s)
    (stalemate s) v (enPassantPossibleLog s)
    (currentCastlingRight s) (castleRightsLog s) (heap s) (nextLoc s).

Definition set_enPassantPossibleLog (s : GameState) (v : list (option Square)) : GameState :=
  mkGameState (board s) (moveLog s) (whiteToMove s) (whiteKingLocation s)
    (blackKingLocation s) (inCheck s) (pins s) (checks s) (checkmate s)
    (stalemate s) (enPassantPossible s) v
    (currentCastlingRight s) (castleRightsLog s) (heap s) (nextLoc s).

Definition set_currentCastlingRight (s : GameState) (v : loc) : GameState :=
  mkGameState (board s) (moveLog s) (whiteToMove s) (whiteKingLocation s)
    (blackKingLocation s) (inCheck s) (pins s) (checks s) (checkmate s)
    (stalemate s) (enPassantPossible s) (enPassantPossibleLog s)
    v (castleRightsLog s) (heap s) (nextLoc s).

Definition set_castleRightsLog (s : GameState) (v : list loc) : GameState :=
  mkGameState (board s) (moveLog s) (whiteToMove s) (whiteKingLocation s)
    (blackKingLocation s) (inCheck s) (pins s) (checks s) (checkmate s)
    (stalemate s) (enPassantPossible s) (enPassantPossibleLog s)
    (currentCastlingRight s) v (heap s) (nextLoc s).

Definition set_heap (s : GameState) (h : gmap loc CastleRights) (n : loc) : GameState :=
  mkGameState (board s) (moveLog s) (whiteToMove s) (whiteKingLocation s)
    (blackKingLocation s) (inCheck s) (pins s) (checks s) (checkmate s)
    (stalemate s) (enPassantPossible s) (enPassantPossibleLog s)
    (currentCastlingRight s) (castleRightsLog s) h n.

(** *** The object store *)

(** the object a reference points to *)
Definition deref (s : GameState) (l : loc) : CastleRights := heap s !!! l.

(** [CastleRights(wks, bks, wqs, bqs)]: a new object, and its reference *)
Definition new_CastleRights (s : GameState) (v : CastleRights) : GameState * loc :=
  (set_heap s (<[nextLoc s := v]> (heap s)) (Pos.succ (nextLoc s)), nextLoc s).

(** [CastleRights(r.wks, r.bks, r.wqs, r.bqs)] for the object [r] behind [l] *)
Definition copy_CastleRights (s : GameState) (l : loc) : GameState * loc :=
  let r := deref s l in
  new_CastleRights s (mkCastleRights (wks r) (bks r) (wqs r) (bqs r)).

(** an attribute assignment on the object behind [l] *)
Definition store (s : GameState) (l : loc) (f : CastleRights -> CastleRights) : GameState :=
  set_heap s (<[l := f (deref s l)]> (heap s)) (nextLoc s).

Definition clear_wks (r : CastleRights) := mkCastleRights false (bks r) (wqs r) (bqs r).
Definition clear_bks (r : CastleRights) := mkCastleRights (wks r) false (wqs r) (bqs r).
Definition clear_wqs (r : CastleRights) := mkCastleRights (wks r) (bks r) false (bqs r).
Definition clear_bqs (r : CastleRights) := mkCastleRights (wks r) (bks r) (wqs r) false.

(** [self.board[r][c] = p] *)
Definition put (s : GameState) (r c : Z) (p : Piece) : result GameState :=
  b <- board_set (board s) r c p ;; Ok (set_board s b).

(** *** [GameState.__init__] *)

Definition initial_board : Board :=
  [ [pc "b" "R"; pc "b" "N"; pc "b" "B"; pc "b" "Q"; pc "b" "K"; pc "b" "B"; pc "b" "N"; pc "b" "R"];
    [pc "b" "p"; pc "b" "p"; pc "b" "p"; pc "b" "p"; pc "b" "p"; pc "b" "p"; pc "b" "p"; pc "b" "p"];
    [EMPTY; EMPTY; EMPTY; EMPTY; EMPTY; EMPTY; EMPTY; EMPTY];
    [EMPTY; EMPTY; EMPTY; EMPTY; EMPTY; EMPTY; EMPTY; EMPTY];
    [EMPTY; EMPTY; EMPTY; EMPTY; EMPTY; EMPTY; EMPTY; EMPTY];
    [EMPTY; EMPTY; EMPTY; EMPTY; EMPTY; EMPTY; EMPTY; EMPTY];
    [pc "w" "p"; pc "w" "p"; pc "w" "p"; pc "w" "p"; pc "w" "p"; pc "w" "p"; pc "w" "p"; pc "w" "p"];
    [pc "w" "R"; pc "w" "N"; pc "w" "B"; pc "w" "Q"; pc "w" "K"; pc "w" "B"; pc "w" "N"; pc "w" "R"] ].

Definition GameState_init : GameState :=
  let s0 :=
    {| board := initial_board;
       moveLog := [];
       whiteToMove := true;
       whiteKingLocation := (7, 4);
       blackKingLocation := (0, 4);
       inCheck := false;
       pins := [];
       checks := [];
       checkmate := false;
       stalemate := false;
       enPassantPossible := None;
       enPassantPossibleLog := [None];
       currentCastlingRight := 1%positive;
       castleRightsLog := [];
       heap := ∅;
       nextLoc := 1%positive |} in
  let (s1, cur) := new_CastleRights s0 (mkCastleRights true true true true) in
  let s2 := set_currentCastlingRight s1 cur in
  let (s3, snap) := copy_CastleRights s2 (currentCastlingRight s2) in
  set_castleRightsLog s3 [snap].

(** *** [GameState.updateCastleRights] *)

Definition updateCastleRights (s : GameState) (move : Move) : result GameState :=
  let (s, l) := copy_CastleRights s (currentCastlingRight s) in
  let s := set_castleRightsLog s (Py.push l (castleRightsLog s)) in
  top <- Py.top (castleRightsLog s) ;;
  let s := set_currentCastlingRight s top in
  let s :=
    if Piece_eqb (pieceMoved move) (pc "w" "K") then
      let s := store s (currentCastlingRight s) clear_wks in
      store s (currentCastlingRight s) clear_wqs
    else if Piece_eqb (pieceMoved move) (pc "b" "K") then
      let s := store s (currentCastlingRight s) clear_bks in
      store s (currentCastlingRight s) clear_bqs
    else if Piece_eqb (pieceMoved move) (pc "w" "R") then
      if startRow move =? 7 then
        if startCol move =? 0 then store s (currentCastlingRight s) clear_wqs
        else if startCol move =? 7 then store s (currentCastlingRight s) clear_wks
        else s
      else s
    else if Piece_eqb (pieceMoved move) (pc "b" "R") then
      if startRow move =? 0 then
        if startCol move =? 0 then store s (currentCastlingRight s) clear_bqs
        else if startCol move =? 7 then store s (currentCastlingRight s) clear_bks
        else s
      else s
    else s in
  Ok (if Piece_eqb (pieceCaptured move) (pc "w" "R") then
        if endRow move =? 7 then
          if endCol move =? 0 then store s (currentCastlingRight s) clear_wqs
          else if endCol move =? 7 then store s (currentCastlingRight s) clear_wks
          else s
        else s
      else if Piece_eqb (pieceCaptured move) (pc "b" "R") then
        if endRow move =? 0 then
          if endCol move =? 0 then store s (currentCastlingRight s) clear_bqs
          else if endCol move =? 7 then store s (currentCastlingRight s) clear_bks
          else s
        else s
      else s).

(** *** [GameState.makeMove] *)

(** "update the king's location if moved": [sq] is the king's new square *)
Definition updateKingLocation (s : GameState) (move : Move) (sq : Square) : GameState :=
  if Piece_eqb (pieceMoved move) (pc "w" "K") then set_whiteKingLocation s sq
  else if Piece_eqb (pieceMoved move) (pc "b" "K") then set_blackKingLocation s sq
  else s.

(** "if pawn moves 2 squares, next move can capture en passant" *)
Definition updateEnPassant (s : GameState) (move : Move) : GameState :=
  if Ascii.eqb (snd (pieceMoved move)) "p"
     && (Z.abs (startRow move - endRow move) =? 2)
  then set_enPassantPossible s
         (Some ((startRow move + endRow move) / 2, startCol move))
  else set_enPassantPossible s None.

(** "if an en passant move, must update the board to capture the pawn" *)
Definition captureEnPassant (s : GameState) (move : Move) : result GameState :=
  if isEnpassantMove move
  then put s (startRow move) (endCol move) EMPTY
  else Ok s.

(** "pawn promotion" *)
Definition promotePawn (s : GameState) (move : Move) : result GameState :=
  if isPawnPromotion move
  then put s (endRow move) (endCol move) (pc (fst (pieceMoved move)) "Q")
  else Ok s.

(** "castle move" *)
Definition castleRook (s : GameState) (move : Move) : result GameState :=
  if isCastleMove move then
    if endCol move - startCol move =? 2 then
      rook <- board_get (board s) (endRow move) (endCol move + 1) ;;
      s <- put s (endRow move) (endCol move - 1) rook ;;
      put s (endRow move) (endCol move + 1) EMPTY
    else
      rook <- board_get (board s) (endRow move) (endCol move - 2) ;;
      s <- put s (endRow move) (endCol move + 1) rook ;;
      put s (endRow move) (endCol move - 2) EMPTY
  else Ok s.

Definition makeMove (s : GameState) (move : Move) : result GameState :=
  s <- put s (startRow move) (startCol move) EMPTY ;;
  s <- put s (endRow move) (endCol move) (pieceMoved move) ;;
  let s := set_moveLog s (Py.push move (moveLog s)) in
  let s := set_whiteToMove s (negb (whiteToMove s)) in
  let s := updateKingLocation s move (endRow move, endCol move) in
  let s := updateEnPassant s move in
  s <- captureEnPassant s move ;;
  s <- promotePawn s move ;;
  s <- castleRook s move ;;
  let s := set_enPassantPossibleLog s
             (Py.push (enPassantPossible s) (enPassantPossibleLog s)) in
  s <- updateCastleRights s move ;;
  let (s, l) := copy_CastleRights s (currentCastlingRight s) in
  Ok (set_castleRightsLog s (Py.push l (castleRightsLog s))).

(** *** [GameState.undoMove] *)

(** "undo en passant" *)
Definition undoEnPassant (s : GameState) (move : Move) : result GameState :=
  if isEnpassantMove move then
    s <- put s (endRow move) (endCol move) EMPTY ;;
    put s (startRow move) (endCol move) (pieceCaptured move)
  else Ok s.

(** "undo castle move" *)
Definition undoCastleRook (s : GameState) (move : Move) : result GameState :=
  if isCastleMove move then
    if endCol move - startCol move =? 2 then
      rook <- board_get (board s) (endRow move) (endCol move - 1) ;;
      s <- put s (endRow move) (endCol move + 1) rook ;;
      put s (endRow move) (endCol move - 1) EMPTY
    else
      rook <- board_get (board s) (endRow move) (endCol move + 1) ;;
      s <- put s (endRow move) (endCol move - 2) rook ;;
      put s (endRow move) (endCol move + 1) EMPTY
  else Ok s.

(** the body of [undoMove] once [move] has been popped from the log *)
Definition undoPopped (s : GameState) (move : Move) : result GameState :=
  s <- put s (startRow move) (startCol move) (pieceMoved move) ;;
  s <- put s (endRow move) (endCol move) (pieceCaptured move) ;;
  let s := set_whiteToMove s (negb (whiteToMove s)) in
  let s := updateKingLocation s move (startRow move, startCol move) in
  s <- undoEnPassant s move ;;
  popped <- Py.pop (enPassantPossibleLog s) ;;
  let s := set_enPassantPossibleLog s (fst popped) in
  ep <- Py.top (enPassantPossibleLog s) ;;
  let s := set_enPassantPossible s ep in
  popped <- Py.pop (castleRightsLog s) ;;
  let s := set_castleRightsLog s (fst popped) in
  newRights <- Py.top (castleRightsLog s) ;;
  let (s, l) := copy_CastleRights s newRights in
  let s := set_currentCastlingRight s l in
  s <- undoCastleRook s move ;;
  let s := set_checkmate s false in
  Ok (set_stalemate s false).

Definition undoMove (s : GameState) : result GameState :=
  if negb (Z.of_nat (length (moveLog s)) =? 0) then
    popped <- Py.pop (moveLog s) ;;
    undoPopped (set_moveLog s (fst popped)) (snd popped)
  else Ok s.

(** *** Loops *)

(** [for x in l: acc = body(x, acc)], without [break] *)
Fixpoint for_each {A S : Type} (l : list A) (acc : S)
    (body : A -> S -> result S) : result S :=
  match l with
  | [] => Ok acc
  | x :: l' => acc' <- body x acc ;; for_each l' acc' body
  end.

Definition on_board (r c : Z) : bool :=
  (0 <=? r) && (r <=? 7) && (0 <=? c) && (c <=? 7).

(** *** [GameState.checkForPinsAndChecks] *)

Definition queen_directions : list (Z * Z) :=
  [(-1, 0); (0, -1); (1, 0); (0, 1); (-1, -1); (-1, 1); (1, -1); (1, 1)].

Definition knight_moves : list (Z * Z) :=
  [(-2, -1); (-2, 1); (-1, 2); (1, 2); (2, -1); (2, 1); (-1, -2); (1, -2)].

(** the accumulators [in_check], [pins], [checks] of the scan *)
Definition CheckInfo : Type := (bool * list Pin * list Pin)%type.

(** the five-way test: does an enemy piece of type [enemy_type], [i] squares
    away in direction number [j], attack the king? *)
Definition attacks_along (enemy_color enemy_type : ascii) (i j : Z) : bool :=
  ((0 <=? j) && (j <=? 3) && Ascii.eqb enemy_type "R")
  || ((4 <=? j) && (j <=? 7) && Ascii.eqb enemy_type "B")
  || ((i =? 1) && Ascii.eqb enemy_type "p"
      && ((Ascii.eqb enemy_color "w" && (6 <=? j) && (j <=? 7))
          || (Ascii.eqb enemy_color "b" && (4 <=? j) && (j <=? 5))))
  || Ascii.eqb enemy_type "Q"
  || ((i =? 1) && Ascii.eqb enemy_type "K").

(** the inner loop [for i in range(1, 8)] along one direction *)
Fixpoint pin_ray (b : Board) (ally_color enemy_color : ascii)
    (start_row start_col j : Z) (direction : Z * Z) (steps : list Z)
    (possible_pin : option Pin) (acc : CheckInfo) : result CheckInfo :=
  match steps with
  | [] => Ok acc
  | i :: steps' =>
      let end_row := start_row + fst direction * i in
      let end_col := start_col + snd direction * i in
      if on_board end_row end_col then
        end_piece <- board_get b end_row end_col ;;
        if Ascii.eqb (fst end_piece) ally_color
           && negb (Ascii.eqb (snd end_piece) "K") then
          match possible_pin with
          | None =>
              pin_ray b ally_color enemy_color start_row start_col j direction
                steps' (Some (end_row, end_col, fst direction, snd direction)) acc
          | Some _ => Ok acc
          end
        else if Ascii.eqb (fst end_piece) enemy_color then
          let enemy_type := snd end_piece in
          if attacks_along enemy_color enemy_type i j then
            let '(in_check, pins, checks) := acc in
            match possible_pin with
            | None =>
                Ok (true, pins,
                    checks ++ [(end_row, end_col, fst direction, snd direction)])
            | Some pin => Ok (in_check, pins ++ [pin], checks)
            end
          else Ok acc
        else
          pin_ray b ally_color enemy_color start_row start_col j direction
            steps' possible_pin acc
      else Ok acc
  end.

Definition checkForPinsAndChecks (s : GameState) : result CheckInfo :=
  let '(enemy_color, ally_color, (start_row, start_col)) :=
    if whiteToMove s then ("b"%char, "w"%char, whiteKingLocation s)
    else ("w"%char, "b"%char, blackKingLocation s) in
  acc <- for_each (Py.range 0 (Z.of_nat (length queen_directions)))
           (false, [], [])
           (fun j acc =>
              direction <- Py.index queen_directions j ;;
              pin_ray (board s) ally_color enemy_color start_row start_col j
                direction (Py.range 1 8) None acc) ;;
  for_each knight_moves acc
    (fun move acc =>
       let end_row := start_row + fst move in
       let end_col := start_col + snd move in
       if on_board end_row end_col then
         end_piece <- board_get (board s) end_row end_col ;;
         if Ascii.eqb (fst end_piece) enemy_color
            && Ascii.eqb (snd end_piece) "N" then
           let '(in_check, pins, checks) := acc in
           Ok (true, pins, checks ++ [(end_row, end_col, fst move, snd move)])
         else Ok acc
       else Ok acc).

(** *** [GameState.getPawnMoves] *)

(** the loop over [self.pins] that opens [getPawnMoves]: whether the piece on
    [(r, c)] is pinned, the pin direction, and [self.pins] after the removal *)
Fixpoint find_pin (ps : list Pin) (r c : Z) (idx : list Z)
  : result (bool * option (Z * Z) * list Pin) :=
  match idx with
  | [] => Ok (false, None, ps)
  | i :: idx' =>
      p <- Py.index ps i ;;
      let '(pr, pcol, d0, d1) := p in
      if (pr =? r) && (pcol =? c)
      then Ok (true, Some (d0, d1), Py.remove Pin_eqb p ps)
      else find_pin ps r c idx'
  end.

(** [pinDirection == (a, b)] *)
Definition direction_is (pinDirection : option (Z * Z)) (d : Z * Z) : bool :=
  match pinDirection with
  | Some p => Square_eqb p d
  | None => false
  end.

(** [(r, c) == self.enPassantPossible] *)
Definition is_enPassantPossible (s : GameState) (sq : Square) : bool :=
  match enPassantPossible s with
  | Some p => Square_eqb sq p
  | None => false
  end.

(** a name that is bound nowhere: evaluating it raises [NameError] *)
Definition unbound_name : result Piece := Raise NameError.

(** the two scans along the king's rank before an en-passant capture; the
    result is [(attackingPiece, blockingPiece)] *)
Definition enPassantScan (b : Board) (r : Z) (enemyColor : ascii)
    (insideRange outsideRange : list Z) : result (bool * bool) :=
  flags <- for_each insideRange (false, false)
             (fun i flags =>
                cell <- board_get b r i ;;
                if negb (Piece_eqb cell EMPTY)
                then Ok (fst flags, true) else Ok flags) ;;
  for_each outsideRange flags
    (fun i flags =>
       square <- board_get b r i ;;
       seqare <- unbound_name ;;
       if Ascii.eqb (fst seqare) enemyColor
          && (Ascii.eqb (snd square) "R" || Ascii.eqb (snd square) "Q")
       then Ok (true, snd flags)
       else if negb (Piece_eqb square EMPTY)
       then Ok (fst flags, true) else Ok flags).

(** one of the two capture branches; [dc] is [-1] for the capture to the
    left and [1] for the capture to the right, and the ranges are those of
    the branch *)
Definition pawnCapture (s : GameState) (r c moveAmount dc : Z)
    (enemyColor : ascii) (kingRow kingCol : Z)
    (piecePinned : bool) (pinDirection : option (Z * Z))
    (ranges_left ranges_right : list Z * list Z)
    (moves : list Move) : result (list Move) :=
  if negb piecePinned || direction_is pinDirection (moveAmount, dc) then
    target <- board_get (board s) (r + moveAmount) (c + dc) ;;
    moves <- (if Ascii.eqb (fst target) enemyColor then
                m <- Move_init (r, c) (r + moveAmount, c + dc) (board s) false false ;;
                Ok (moves ++ [m])
              else Ok moves) ;;
    if is_enPassantPossible s (r + moveAmount, c + dc) then
      flags <- (if kingRow =? r then
                  let (insideRange, outsideRange) :=
                    if kingCol <? c then ranges_left else ranges_right in
                  enPassantScan (board s) r enemyColor insideRange outsideRange
                else Ok (false, false)) ;;
      let (attackingPiece, blockingPiece) := flags in
      if negb attackingPiece || blockingPiece then
        m <- Move_init (r, c) (r + moveAmount, c + dc) (board s) true false ;;
        Ok (moves ++ [m])
      else Ok moves
    else Ok moves
  else Ok moves.

Definition getPawnMoves (s : GameState) (r c : Z) (moves : list Move)
  : result (GameState * list Move) :=
  found <- find_pin (pins s) r c
             (Py.range_down (Z.of_nat (length (pins s)) - 1) (-1)) ;;
  let '(piecePinned, pinDirection, ps) := found in
  let s := set_pins s ps in
  let '(moveAmount, startRow, enemyColor, (kingRow, kingCol)) :=
    if whiteToMove s then (-1, 6, "b"%char, whiteKingLocation s)
    else (1, 1, "w"%char, blackKingLocation s) in
  ahead <- board_get (board s) (r + moveAmount) c ;;
  moves <- (if Piece_eqb ahead EMPTY then
              if negb piecePinned || direction_is pinDirection (moveAmount, 0) then
                m <- Move_init (r, c) (r + moveAmount, c) (board s) false false ;;
                let moves := moves ++ [m] in
                if r =? startRow then
                  ahead2 <- board_get (board s) (r + 2 * moveAmount) c ;;
                  if Piece_eqb ahead2 EMPTY then
                    m2 <- Move_init (r, c) (r + 2 * moveAmount, c) (board s) false false ;;
                    Ok (moves ++ [m2])
                  else Ok moves
                else Ok moves
              else Ok moves
            else Ok moves) ;;
  moves <- (if 0 <=? c - 1 then
              pawnCapture s r c moveAmount (-1) enemyColor kingRow kingCol
                piecePinned pinDirection
                (Py.range (kingCol + 1) (c - 1), Py.range (c + 1) 8)
                (Py.range_down (kingCol - 1) c, Py.range_down (c - 2) (-1))
                moves
            else Ok moves) ;;
  moves <- (if c + 1 <=? 7 then
              pawnCapture s r c moveAmount 1 enemyColor kingRow kingCol
                piecePinned pinDirection
                (Py.range (kingCol + 1) c, Py.range (c + 2) 8)
                (Py.range_down (kingCol - 1) (c + 1), Py.range_down (c - 1) (-1))
                moves
            else Ok moves) ;;
  Ok (s, moves).

(** *** [GameState.getRookMoves] and [GameState.getBishopMoves] *)

Definition in_bounds (r c : Z) : bool :=
  (0 <=? r) && (r <? 8) && (0 <=? c) && (c <? 8).

(** the inner loop [for i in range(1, 8)] of the rook and bishop generators *)
Fixpoint slide (b : Board) (enemyColor : ascii) (r c : Z) (d : Z * Z)
    (steps : list Z) (moves : list Move) : result (list Move) :=
  match steps with
  | [] => Ok moves
  | i :: steps' =>
      let endRow := r + fst d * i in
      let endCol := c + snd d * i in
      if in_bounds endRow endCol then
        endPiece <- board_get b endRow endCol ;;
        if Piece_eqb endPiece EMPTY then
          m <- Move_init (r, c) (endRow, endCol) b false false ;;
          slide b enemyColor r c d steps' (moves ++ [m])
        else if Ascii.eqb (fst endPiece) enemyColor then
          m <- Move_init (r, c) (endRow, endCol) b false false ;;
          Ok (moves ++ [m])
        else Ok moves
      else Ok moves
  end.

Definition slide_all (s : GameState) (directions : list (Z * Z)) (r c : Z)
    (moves : list Move) : result (list Move) :=
  let enemyColor := if whiteToMove s then "b"%char else "w"%char in
  for_each directions moves
    (fun d moves => slide (board s) enemyColor r c d (Py.range 1 8) moves).

Definition getRookMoves (s : GameState) (r c : Z) (moves : list Move)
  : result (list Move) :=
  slide_all s [(-1, 0); (0, -1); (1, 0); (0, 1)] r c moves.

Definition getBishopMoves (s : GameState) (r c : Z) (moves : list Move)
  : result (list Move) :=
  slide_all s [(-1, -1); (-1, 1); (1, -1); (1, 1)] r c moves.

(** *** [GameState.getQueenMoves] *)

Definition getQueenMoves (s : GameState) (r c : Z) (moves : list Move)
  : result (list Move) :=
  moves <- getRookMoves s r c moves ;;
  getBishopMoves s r c moves.

(** *** [GameState.getKnightMoves] and [GameState.getKingMoves] *)

(** the loop shared by the knight and the king: every offset that lands on
    the board and not on an allied piece *)
Definition jump_all (s : GameState) (offsets : list (Z * Z)) (r c : Z)
    (moves : list Move) : result (list Move) :=
  let allyColor := if whiteToMove s then "w"%char else "b"%char in
  for_each offsets moves
    (fun m moves =>
       let endRow := r + fst m in
       let endCol := c + snd m in
       if in_bounds endRow endCol then
         endPiece <- board_get (board s) endRow endCol ;;
         if negb (Ascii.eqb (fst endPiece) allyColor) then
           mv <- Move_init (r, c) (endRow, endCol) (board s) false false ;;
           Ok (moves ++ [mv])
         else Ok moves
       else Ok moves).

Definition getKnightMoves (s : GameState) (r c : Z) (moves : list Move)
  : result (list Move) :=
  jump_all s [(-2, -1); (-2, 1); (-1, -2); (-1, 2); (1, -2); (1, 2); (2, -1); (2, 1)]
    r c moves.

Definition getKingMoves (s : GameState) (r c : Z) (moves : list Move)
  : result (list Move) :=
  jump_all s [(-1, -1); (-1, 0); (-1, 1); (0, -1); (0, 1); (1, -1); (1, 0); (1, 1)]
    r c moves.

(** *** [GameState.getAllPossibleMoves] *)

(** a generator that leaves the state alone, as an entry of [moveFunctions] *)
Definition pure_generator
    (f : GameState -> Z -> Z -> list Move -> result (list Move))
    (s : GameState) (r c : Z) (moves : list Move)
  : result (GameState * list Move) :=
  moves <- f s r c moves ;; Ok (s, moves).

(** [self.moveFunctions[piece]] *)
Definition moveFunctions (piece : ascii)
  : result (GameState -> Z -> Z -> list Move -> result (GameState * list Move)) :=
  if Ascii.eqb piece "p" then Ok getPawnMoves
  else if Ascii.eqb piece "R" then Ok (pure_generator getRookMoves)
  else if Ascii.eqb piece "N" then Ok (pure_generator getKnightMoves)
  else if Ascii.eqb piece "B" then Ok (pure_generator getBishopMoves)
  else if Ascii.eqb piece "Q" then Ok (pure_generator getQueenMoves)
  else if Ascii.eqb piece "K" then Ok (pure_generator getKingMoves)
  else Raise KeyError.

(** the body of the two nested loops, for the square [(r, c)] *)
Definition visit_square (r c : Z) (acc : GameState * list Move)
  : result (GameState * list Move) :=
  let (s, moves) := acc in
  cell <- board_get (board s) r c ;;
  let turn := fst cell in
  if (Ascii.eqb turn "w" && whiteToMove s)
     || (Ascii.eqb turn "b" && negb (whiteToMove s)) then
    cell <- board_get (board s) r c ;;
    let piece := snd cell in
    gen <- moveFunctions piece ;;
    gen s r c moves
  else Ok acc.

Definition getAllPossibleMoves (s : GameState) : result (GameState * list Move) :=
  for_each (Py.range 0 (Z.of_nat (length (board s)))) (s, [])
    (fun r acc =>
       row <- Py.index (board (fst acc)) r ;;
       for_each (Py.range 0 (Z.of_nat (length row))) acc (visit_square r)).

(** *** [GameState.squareUnderAttack] *)

Definition squareUnderAttack (s : GameState) (r c : Z) : result (GameState * bool) :=
  let s := set_whiteToMove s (negb (whiteToMove s)) in
  res <- getAllPossibleMoves s ;;
  let (s, oppMoves) := res in
  let s := set_whiteToMove s (negb (whiteToMove s)) in
  Ok (s, existsb (fun move => (endRow move =? r) && (endCol move =? c)) oppMoves).

(** *** Castling: [getCastleMoves] and its two helpers *)

Definition getKingsideCastleMoves (s : GameState) (r c : Z) (moves : list Move)
  : result (GameState * list Move) :=
  c1 <- board_get (board s) r (c + 1) ;;
  if negb (Piece_eqb c1 EMPTY) then Ok (s, moves) else
  c2 <- board_get (board s) r (c + 2) ;;
  if negb (Piece_eqb c2 EMPTY) then Ok (s, moves) else
  a1 <- squareUnderAttack s r (c + 1) ;;
  let (s, attacked1) := a1 in
  if attacked1 then Ok (s, moves) else
  a2 <- squareUnderAttack s r (c + 2) ;;
  let (s, attacked2) := a2 in
  if attacked2 then Ok (s, moves) else
  m <- Move_init (r, c) (r, c + 2) (board s) false true ;;
  Ok (s, moves ++ [m]).

Definition getQueensideCastleMoves (s : GameState) (r c : Z) (moves : list Move)
  : result (GameState * list Move) :=
  c1 <- board_get (board s) r (c - 1) ;;
  if negb (Piece_eqb c1 EMPTY) then Ok (s, moves) else
  c2 <- board_get (board s) r (c - 2) ;;
  if negb (Piece_eqb c2 EMPTY) then Ok (s, moves) else
  c3 <- board_get (board s) r (c - 3) ;;
  if negb (Piece_eqb c3 EMPTY) then Ok (s, moves) else
  a1 <- squareUnderAttack s r (c - 1) ;;
  let (s, attacked1) := a1 in
  if attacked1 then Ok (s, moves) else
  a2 <- squareUnderAttack s r (c - 2) ;;
  let (s, attacked2) := a2 in
  if attacked2 then Ok (s, moves) else
  m <- Move_init (r, c) (r, c - 2) (board s) false true ;;
  Ok (s, moves ++ [m]).

Definition getCastleMoves (s : GameState) (r c : Z) (moves : list Move)
  : result (GameState * list Move) :=
  a <- squareUnderAttack s r c ;;
  let (s, attacked) := a in
  if attacked then Ok (s, moves) else
  res <- (if (whiteToMove s && wks (deref s (currentCastlingRight s)))
             || (negb (whiteToMove s) && bks (deref s (currentCastlingRight s)))
          then getKingsideCastleMoves s r c moves
          else Ok (s, moves)) ;;
  let (s, moves) := res in
  if (whiteToMove s && wqs (deref s (currentCastlingRight s)))
     || (negb (whiteToMove s) && bqs (deref s (currentCastlingRight s)))
  then getQueensideCastleMoves s r c moves
  else Ok (s, moves).

(** *** [GameState.getValidMoves] *)

(** the loop that collects the squares between the king and the checker *)
Fixpoint valid_squares (kingRow kingCol checkRow checkCol d0 d1 : Z)
    (steps : list Z) (validSquares : list Square) : list Square :=
  match steps with
  | [] => validSquares
  | i :: steps' =>
      let validSquare := (kingRow + d0 * i, kingCol + d1 * i) in
      let validSquares := validSquares ++ [validSquare] in
      if (fst validSquare =? checkRow) && (snd validSquare =? checkCol)
      then validSquares
      else valid_squares kingRow kingCol checkRow checkCol d0 d1 steps' validSquares
  end.

(** the backwards loop that removes the moves that neither block the check
    nor capture the checker nor move the king *)
Fixpoint filter_check (validSquares : list Square) (idx : list Z)
    (moves : list Move) : result (list Move) :=
  match idx with
  | [] => Ok moves
  | i :: idx' =>
      m <- Py.index moves i ;;
      if negb (Ascii.eqb (snd (pieceMoved m)) "K") then
        if negb (existsb (Square_eqb (endRow m, endCol m)) validSquares) then
          m' <- Py.index moves i ;;
          filter_check validSquares idx'
            (Py.remove (fun x y => Move_eq x y) m' moves)
        else filter_check validSquares idx' moves
      else filter_check validSquares idx' moves
  end.

Definition getValidMoves (s : GameState) : result (GameState * list Move) :=
  info <- checkForPinsAndChecks s ;;
  let '(ic, ps, cs) := info in
  let s := set_check_info s ic ps cs in
  let (kingRow, kingCol) :=
    if whiteToMove s then whiteKingLocation s else blackKingLocation s in
  res <- (if inCheck s then
            if Z.of_nat (length (checks s)) =? 1 then
              res <- getAllPossibleMoves s ;;
              let (s, moves) := res in
              check <- Py.index (checks s) 0 ;;
              let '(checkRow, checkCol, d0, d1) := check in
              pieceChecking <- board_get (board s) checkRow checkCol ;;
              let validSquares :=
                if Ascii.eqb (snd pieceChecking) "N" then [(checkRow, checkCol)]
                else valid_squares kingRow kingCol checkRow checkCol d0 d1
                       (Py.range 1 8) [] in
              moves <- filter_check validSquares
                         (Py.range_down (Z.of_nat (length moves) - 1) (-1)) moves ;;
              Ok (s, moves)
            else
              moves <- getKingMoves s kingRow kingCol [] ;;
              Ok (s, moves)
          else getAllPossibleMoves s) ;;
  let (s, moves) := res in
  if Z.of_nat (length moves) =? 0 then
    if inCheck s then Ok (set_checkmate s true, moves)
    else Ok (set_stalemate s true, moves)
  else
    let s := set_checkmate s false in
    Ok (set_stalemate s false, moves).

(** ** Reachable states, play from the initial position, perft *)

Inductive reachable : GameState -> Prop :=
| reach_init : reachable GameState_init
| reach_valid s0 s ms :
    reachable s0 -> getValidMoves s0 = Ok (s, ms) -> reachable s
| reach_make s0 s ms m s' :
    reachable s0 -> getValidMoves s0 = Ok (s, ms) -> In m ms ->
    makeMove s m = Ok s' -> reachable s'
| reach_undo s s' :
    reachable s -> undoMove s = Ok s' -> reachable s'.

(** the driver's way of making a move (ChessMain.py): the valid moves are
    generated, and the valid move equal to the one from [fst clicks] to
    [snd clicks] is made *)
Definition play_one (s : GameState) (clicks : Square * Square) : option GameState :=
  match getValidMoves s with
  | Ok (s, validMoves) =>
      match Move_init (fst clicks) (snd clicks) (board s) false false with
      | Ok move =>
          match find (Move_eq move) validMoves with
          | Some m =>
              match makeMove s m with
              | Ok s' => Some s'
              | Raise _ => None
              end
          | None => None
          end
      | Raise _ => None
      end
  | Raise _ => None
  end.

Fixpoint play (s : GameState) (game : list (Square * Square)) : option GameState :=
  match game with
  | [] => Some s
  | clicks :: game' =>
      match play_one s clicks with
      | Some s' => play s' game'
      | None => None
      end
  end.

(** perft: the number of leaves of the tree of valid moves of the given
    depth, walked with [getValidMoves], [makeMove] and [undoMove] on one
    state *)
Fixpoint perft (depth : nat) (s : GameState) : result (GameState * Z) :=
  match depth with
  | O => Ok (s, 1)
  | S depth' =>
      res <- getValidMoves s ;;
      let (s, moves) := res in
      for_each moves (s, 0)
        (fun m acc =>
           let (s, n) := acc in
           s <- makeMove s m ;;
           sub <- perft depth' s ;;
           let (s, k) := sub in
           s <- undoMove s ;;
           Ok (s, n + k))
  end.


(** the outcome of [getValidMoves] without the state *)
Definition valid_moves (s : GameState) : result (list Move) :=
  res <- getValidMoves s ;; Ok (snd res).

Definition perft_count (depth : nat) (s : GameState) : result Z :=
  res <- perft depth s ;; Ok (snd res).

(** the state a game leads to ([GameState_init] if it cannot be played) *)
Definition state_after (game : list (Square * Square)) : GameState :=
  match play GameState_init game with
  | Some s => s
  | None => GameState_init
  end.

(** does [ms] hold a move of the piece [p] from [a] to [b]? *)
Definition has_move (ms : list Move) (p : Piece) (a b : Square) : bool :=
  existsb (fun m => Piece_eqb (pieceMoved m) p
                    && Square_eqb (startRow m, startCol m) a
                    && Square_eqb (endRow m, endCol m) b) ms.

(** [sq] lies on the line from the king's square [king] in direction [d] *)
Definition on_pin_line (king : Square) (d : Z * Z) (sq : Square) : bool :=
  existsb (fun k => Square_eqb sq (fst king + fst d * k, snd king + snd d * k))
    (Py.range 1 8).

(** the rights the side to move holds *)
Definition rights (s : GameState) : CastleRights := deref s (currentCastlingRight s).

(** the outcome of [squareUnderAttack] without the state *)
Definition attacked (s : GameState) (r c : Z) : result bool :=
  res <- squareUnderAttack s r c ;; Ok (snd res).

(** every reference of the state points below the allocation mark: what is
    allocated next is a new object *)
Definition wf_store (s : GameState) : Prop :=
  (currentCastlingRight s < nextLoc s)%positive
  /\ Forall (fun l => (l < nextLoc s)%positive) (castleRightsLog s).

(** ** Frames: what an operation leaves alone *)

(** the journal: the three logs and the store of castling rights *)
Definition journal (s : GameState) :=
  (moveLog s, enPassantPossibleLog s, castleRightsLog s,
   currentCastlingRight s, heap s, nextLoc s).

(** [s'] is [s] up to attribute assignments on the object behind
    [currentCastlingRight] *)
Definition revoked (s s' : GameState) : Prop :=
  moveLog s' = moveLog s
  /\ enPassantPossibleLog s' = enPassantPossibleLog s
  /\ castleRightsLog s' = castleRightsLog s
  /\ currentCastlingRight s' = currentCastlingRight s
  /\ nextLoc s' = nextLoc s
  /\ forall l, l <> currentCastlingRight s -> heap s' !! l = heap s !! l.

(** [s'] is [s] up to the removal of entries of [pins] *)
Definition pins_removed (s s' : GameState) : Prop :=
  s' = set_pins s (pins s') /\ sublist (pins s') (pins s).

(** [getValidMoves] only writes the check information and the two flags *)
Definition check_info_updated (s s' : GameState) : Prop :=
  s' = set_stalemate
         (set_checkmate
            (set_check_info s (inCheck s') (pins s') (checks s'))
            (checkmate s'))
         (stalemate s').

Definition no_castle (moves : list Move) : Prop :=
  Forall (fun m => isCastleMove m = false) moves.

(** ** Games used below; squares are [(row, col)], row 0 is the eighth rank *)

(** 1. d4 e6 2. Nc3 Bb4: the knight on c3 is pinned by the bishop on b4 *)
Definition game_pin : list (Square * Square) :=
  [((6, 3), (4, 3)); ((1, 4), (2, 4)); ((7, 1), (5, 2)); ((0, 5), (4, 1))].

(** 1. e4 e5 2. Nf3 Nc6 3. Bc4 Bc5: White may castle king-side *)
Definition game_castle : list (Square * Square) :=
  [((6, 4), (4, 4)); ((1, 4), (3, 4)); ((7, 6), (5, 5)); ((0, 1), (2, 2));
   ((7, 5), (4, 2)); ((0, 5), (3, 2))].

(** 1. e4 Nc6 2. e5 Nb8 3. Ke2 Nc6 4. Ke3 Nb8 5. Kf4 Nc6 6. Kg5 d5: the white
    king and the white pawn on e5 share the fifth rank, and the pawn may
    capture on d6 en passant *)
Definition game_ep : list (Square * Square) :=
  [((6, 4), (4, 4)); ((0, 1), (2, 2)); ((4, 4), (3, 4)); ((2, 2), (0, 1));
   ((7, 4), (6, 4)); ((0, 1), (2, 2)); ((6, 4), (5, 4)); ((2, 2), (0, 1));
   ((5, 4), (4, 5)); ((0, 1), (2, 2)); ((4, 5), (3, 6)); ((1, 3), (3, 3))].

(** 1. e4 e5 *)
Definition game_open : list (Square * Square) :=
  [((6, 4), (4, 4)); ((1, 4), (3, 4))].

(** 1. e4 e6 2. e5 Ke7 3. a3 d5: White to move; the black pawn on c7 shares
    the seventh rank with its king, and d6, a square it attacks, is the
    en-passant target *)
Definition game_ep_black : list (Square * Square) :=
  [((6, 4), (4, 4)); ((1, 4), (2, 4)); ((4, 4), (3, 4)); ((0, 4), (1, 4));
   ((6, 0), (5, 0)); ((1, 3), (3, 3))].

(** * Further definitions *)

(** the board has eight rows of eight cells *)
Definition wf_board (b : Board) : Prop :=
  length b = 8%nat /\ Forall (fun row => length row = 8%nat) b.

(** [i] is an index Python accepts for a list of eight elements *)
Definition indexable (i : Z) : Prop := -8 <= i < 8.

(** the position a Python index denotes in a list of eight elements *)
Definition pos (i : Z) : nat := Z.to_nat (if i <? 0 then i + 8 else i).

(** the cell in row [R], column [C], counted from 0 *)
Definition bget (b : Board) (R C : nat) : option Piece :=
  match b !! R with
  | Some row => row !! C
  | None => None
  end.

(** the board with the cell in row [R], column [C] replaced by [p] *)
Definition bset (b : Board) (R C : nat) (p : Piece) : Board :=
  match b !! R with
  | Some row => <[R := <[C := p]> row]> b
  | None => b
  end.

(** the colour of the side to move, and of its opponent *)
Definition side (s : GameState) : ascii := if whiteToMove s then "w"%char else "b"%char.
Definition opponent (s : GameState) : ascii := if whiteToMove s then "b"%char else "w"%char.

(** a reported pin names a square of the board that holds a piece of the
    side to move other than its king *)
Definition pin_ok (b : Board) (ally : ascii) (pin : Pin) : Prop :=
  let '(r, c, _, _) := pin in
  on_board r c = true
  /\ exists piece, board_get b r c = Ok piece
                   /\ fst piece = ally /\ snd piece <> "K"%char.

(** a reported check names a square of the board that holds an enemy piece *)
Definition check_ok (b : Board) (enemy : ascii) (chk : Pin) : Prop :=
  let '(r, c, _, _) := chk in
  on_board r c = true
  /\ exists piece, board_get b r c = Ok piece /\ fst piece = enemy.

(** what the scan keeps true of its accumulators *)
Definition scan_ok (b : Board) (ally enemy : ascii) (acc : CheckInfo) : Prop :=
  let '(in_check, pins, checks) := acc in
  (in_check = true <-> checks <> [])
  /\ Forall (pin_ok b ally) pins
  /\ Forall (check_ok b enemy) checks.

(** [s'] is [s] up to the store of castling rights: the log, the current
    reference, the objects *)
Definition store_updated (s s' : GameState) : Prop :=
  s' = set_heap
         (set_currentCastlingRight
            (set_castleRightsLog s (castleRightsLog s'))
            (currentCastlingRight s'))
         (heap s') (nextLoc s').

(** [m] is a move of the piece on [(r, c)] to a square that does not hold a
    piece of the side to move *)
Definition plain_ok (s : GameState) (r c : Z) (m : Move) : Prop :=
  exists dst target,
    Move_init (r, c) dst (board s) false false = Ok m
    /\ board_get (board s) (fst dst) (snd dst) = Ok target
    /\ fst target <> side s.

(** [m] is an en-passant move of the piece on [(r, c)] to the en-passant
    target *)
Definition ep_ok (s : GameState) (r c : Z) (m : Move) : Prop :=
  exists dst,
    Move_init (r, c) dst (board s) true false = Ok m
    /\ is_enPassantPossible s dst = true.

(** [m] is a move a generator builds for a piece of the side to move *)
Definition generated (s : GameState) (m : Move) : Prop :=
  exists r c cell,
    board_get (board s) r c = Ok cell /\ fst cell = side s
    /\ (plain_ok s r c m \/ (snd cell = "p"%char /\ ep_ok s r c m)).

(** [m] was built on the board of [s] and is not a castle move *)
Definition built_on (s : GameState) (m : Move) : Prop :=
  exists a b ep, Move_init a b (board s) ep false = Ok m.

(** the en-passant target [makeMove] sets for [move] *)
Definition target_after (move : Move) : option Square :=
  if Ascii.eqb (snd (pieceMoved move)) "p"
     && (Z.abs (startRow move - endRow move) =? 2)
  then Some ((startRow move + endRow move) / 2, startCol move)
  else None.

(** the board [makeMove] leaves for a move that is not a castle move, cell
    by cell *)
Definition made_board (b : Board) (move : Move) : Board :=
  let b := bset b (pos (startRow move)) (pos (startCol move)) EMPTY in
  let b := bset b (pos (endRow move)) (pos (endCol move)) (pieceMoved move) in
  let b := if isEnpassantMove move
           then bset b (pos (startRow move)) (pos (endCol move)) EMPTY
           else b in
  if isPawnPromotion move
  then bset b (pos (endRow move)) (pos (endCol move))
         (pc (fst (pieceMoved move)) "Q")
  else b.

(** the board [undoMove] leaves for a move that is not a castle move *)
Definition unmade_board (b : Board) (move : Move) : Board :=
  let b := bset b (pos (startRow move)) (pos (startCol move)) (pieceMoved move) in
  let b := bset b (pos (endRow move)) (pos (endCol move)) (pieceCaptured move) in
  if isEnpassantMove move
  then bset (bset b (pos (endRow move)) (pos (endCol move)) EMPTY)
         (pos (startRow move)) (pos (endCol move)) (pieceCaptured move)
  else b.

(** the rights [updateCastleRights] leaves in the current object, as a
    function of the move and of the rights before *)
Definition revoke (move : Move) (r : CastleRights) : CastleRights :=
  let r :=
    if Piece_eqb (pieceMoved move) (pc "w" "K") then clear_wqs (clear_wks r)
    else if Piece_eqb (pieceMoved move) (pc "b" "K") then clear_bqs (clear_bks r)
    else if Piece_eqb (pieceMoved move) (pc "w" "R") then
      if startRow move =? 7 then
        if startCol move =? 0 then clear_wqs r
        else if startCol move =? 7 then clear_wks r
        else r
      else r
    else if Piece_eqb (pieceMoved move) (pc "b" "R") then
      if startRow move =? 0 then
        if startCol move =? 0 then clear_bqs r
        else if startCol move =? 7 then clear_bks r
        else r
      else r
    else r in
  if Piece_eqb (pieceCaptured move) (pc "w" "R") then
    if endRow move =? 7 then
      if endCol move =? 0 then clear_wqs r
      else if endCol move =? 7 then clear_wks r
      else r
    else r
  else if Piece_eqb (pieceCaptured move) (pc "b" "R") then
    if endRow move =? 0 then
      if endCol move =? 0 then clear_bqs r
      else if endCol move =? 7 then clear_bks r
      else r
    else r
  else r.

(** the cached square of the king of the side to move *)
Definition king_square (s : GameState) : Square :=
  if whiteToMove s then whiteKingLocation s else blackKingLocation s.

(** the moves the filter of [getValidMoves] keeps when the king is checked
    once: king moves, and moves onto one of [validSquares] *)
Definition answers_check (validSquares : list Square) (m : Move) : bool :=
  Ascii.eqb (snd (pieceMoved m)) "K"
  || existsb (Square_eqb (endRow m, endCol m)) validSquares.

(** the side to move holds the king-side, the queen-side right *)
Definition holds_kingside (s : GameState) : bool :=
  (whiteToMove s && wks (rights s)) || (negb (whiteToMove s) && bks (rights s)).
Definition holds_queenside (s : GameState) : bool :=
  (whiteToMove s && wqs (rights s)) || (negb (whiteToMove s) && bqs (rights s)).

(** [m] is a castle move of the king on [(r, c)] by [dc] columns *)
Definition castle_move (r c dc : Z) (m : Move) : Prop :=
  isCastleMove m = true /\ isEnpassantMove m = false
  /\ (startRow m, startCol m, endRow m, endCol m) = (r, c, r, c + dc).

(** 1. e4 d5 2. exd5 e6 3. dxe6 Bxe6 4. Nc3 Bc8 5. Ne4 Nc6 6. Qe2 Nb8
    7. Nf6: the knight and the queen behind it both give check *)
Definition game_double_check : list (Square * Square) :=
  [((6, 4), (4, 4)); ((1, 3), (3, 3)); ((4, 4), (3, 3)); ((1, 4), (2, 4));
   ((3, 3), (2, 4)); ((0, 2), (2, 4)); ((7, 1), (5, 2)); ((2, 4), (0, 2));
   ((5, 2), (4, 4)); ((0, 1), (2, 2)); ((7, 3), (6, 4)); ((2, 2), (0, 1));
   ((4, 4), (2, 5))].

(** ** Python dicts *)

Module PyDict.

(** a dict is the list of its items, in insertion order *)

(** [d[k]] *)
Fixpoint get {K V : Type} (eqb : K -> K -> bool) (d : list (K * V)) (k : K)
  : result V :=
  match d with
  | [] => Raise KeyError
  | (k', v) :: d' => if eqb k' k then Ok v else get eqb d' k
  end.

(** [d[k] = v] *)
Fixpoint set {K V : Type} (eqb : K -> K -> bool) (k : K) (v : V)
    (d : list (K * V)) : list (K * V) :=
  match d with
  | [] => [(k, v)]
  | (k', v') :: d' =>
      if eqb k' k then (k', v) :: d' else (k', v') :: set eqb k v d'
  end.

(** [{v: k for k, v in d.items()}] *)
Definition invert {K V : Type} (eqb : V -> V -> bool) (d : list (K * V))
  : list (V * K) :=
  fold_left (fun acc item => set eqb (snd item) (fst item) acc) d [].

End PyDict.

(** ** The notation of moves (class Move) *)

Definition ranksToRows : list (String.string * Z) :=
  [("1"%string, 7); ("2"%string, 6); ("3"%string, 5); ("4"%string, 4);
   ("5"%string, 3); ("6"%string, 2); ("7"%string, 1); ("8"%string, 0)].
Definition rowsToRanks : list (Z * String.string) :=
  PyDict.invert Z.eqb ranksToRows.
Definition filesToCols : list (String.string * Z) :=
  [("a"%string, 0); ("b"%string, 1); ("c"%string, 2); ("d"%string, 3);
   ("e"%string, 4); ("f"%string, 5); ("g"%string, 6); ("h"%string, 7)].
Definition colsToFiles : list (Z * String.string) :=
  PyDict.invert Z.eqb filesToCols.

(** [Move.getRankFile] *)
Definition getRankFile (r c : Z) : result String.string :=
  file <- PyDict.get Z.eqb colsToFiles c ;;
  rank <- PyDict.get Z.eqb rowsToRanks r ;;
  Ok (String.append file rank).

(** [Move.getChessNotation] *)
Definition getChessNotation (m : Move) : result String.string :=
  from <- getRankFile (startRow m) (startCol m) ;;
  to <- getRankFile (endRow m) (endCol m) ;;
  Ok (String.append from to).

(** a piece code as a Python string *)
Definition Piece_str (p : Piece) : String.string :=
  String.String (fst p) (String.String (snd p) String.EmptyString).

(** [Move.__str__] *)
Definition Move_str (m : Move) : result String.string :=
  if isCastleMove m then
    Ok (if endCol m =? 6 then "O-O"%string else "O-O-O"%string)
  else
    endSquare <- getRankFile (endRow m) (endCol m) ;;
    if Ascii.eqb (snd (pieceMoved m)) "p" then
      if isCapture m then
        file <- PyDict.get Z.eqb colsToFiles (startCol m) ;;
        Ok (String.append (String.append file "x"%string) endSquare)
      else Ok endSquare
    else
      let moveString := Piece_str (pieceMoved m) in
      let moveString :=
        if isCapture m then String.append moveString "x"%string
        else moveString in
      Ok (String.append moveString endSquare).

(** * Properties *)

(** ** Results *)

Lemma bind_Ok {A B : Type} (c : result A) (k : A -> result B) (b : B) :
  bind c k = Ok b -> exists a, c = Ok a /\ k a = Ok b.
Proof. destruct c as [a|e]; simpl; intros H; [eauto | discriminate]. Qed.

(** splits a hypothesis [x <- c ;; k = Ok b] into its two steps *)
Ltac bind_inv H :=
  let a := fresh "a" in
  let Ha := fresh "Ha" in
  apply bind_Ok in H; destruct H as (a & Ha & H).

(** ** Reachability of played games *)

Lemma play_one_reachable s clicks s' :
  reachable s -> play_one s clicks = Some s' -> reachable s'.
Proof.
  intros Hs. unfold play_one.
  destruct (getValidMoves s) as [[s1 ms]|] eqn:Hv; [|discriminate].
  destruct (Move_init _ _ _ _ _) as [mv|]; [|discriminate].
  destruct (find (Move_eq mv) ms) as [m|] eqn:Hf; [|discriminate].
  destruct (makeMove s1 m) as [s2|] eqn:Hm; [|discriminate].
  intros [= <-]. apply find_some in Hf as [Hin _].
  exact (reach_make s s1 ms m s2 Hs Hv Hin Hm).
Qed.

Lemma play_reachable game : forall s s',
  reachable s -> play s game = Some s' -> reachable s'.
Proof.
  induction game as [|clicks game IH]; simpl; intros s s' Hs H.
  - injection H as <-. exact Hs.
  - destruct (play_one s clicks) as [s1|] eqn:H1; [|discriminate].
    eapply IH; [|exact H]. eapply play_one_reachable; eauto.
Qed.

Lemma state_after_reachable game :
  is_Some (play GameState_init game) -> reachable (state_after game).
Proof.
  intros [s Hs]. unfold state_after. rewrite Hs.
  eapply play_reachable; [apply reach_init | exact Hs].
Qed.

(** ** Move equality *)

Lemma Move_init_fields a b brd ep ca m :
  Move_init a b brd ep ca = Ok m ->
  startRow m = fst a /\ startCol m = snd a /\ endRow m = fst b /\ endCol m = snd b
  /\ isEnpassantMove m = ep /\ isCastleMove m = ca
  /\ moveID m = fst a * 1000 + snd a * 100 + fst b * 10 + snd b.
Proof.
  unfold Move_init. intros H. bind_inv H. bind_inv H.
  injection H as <-. simpl. tauto.
Qed.

(** C7: two moves are equal exactly when their identity keys are equal, and,
    the four coordinates being in [0,8), exactly when they have the same start
    and end squares; the en-passant and castle flags (and the board the
    moves were built on, hence the promotion flag) play no part. *)
Theorem Move_eq_iff_same_squares a1 b1 brd1 ep1 ca1 a2 b2 brd2 ep2 ca2 m1 m2 :
  Move_init a1 b1 brd1 ep1 ca1 = Ok m1 ->
  Move_init a2 b2 brd2 ep2 ca2 = Ok m2 ->
  in_bounds (fst a1) (snd a1) = true -> in_bounds (fst b1) (snd b1) = true ->
  in_bounds (fst a2) (snd a2) = true -> in_bounds (fst b2) (snd b2) = true ->
  (Move_eq m1 m2 = true <-> moveID m1 = moveID m2)
  /\ (Move_eq m1 m2 = true <-> a1 = a2 /\ b1 = b2).
Proof.
  intros H1 H2 Ha1 Hb1 Ha2 Hb2.
  apply Move_init_fields in H1 as (_ & _ & _ & _ & _ & _ & E1).
  apply Move_init_fields in H2 as (_ & _ & _ & _ & _ & _ & E2).
  unfold Move_eq. rewrite Z.eqb_eq. split; [tauto|].
  rewrite E1, E2. unfold in_bounds in *.
  destruct a1 as [r1 c1], b1 as [r1' c1'], a2 as [r2 c2], b2 as [r2' c2'].
  simpl in *. split.
  - intros E. assert (r1 = r2 /\ c1 = c2 /\ r1' = r2' /\ c1' = c2') by lia.
    split; f_equal; tauto.
  - intros [[= -> ->] [= -> ->]]. reflexivity.
Qed.

(** the castle move e1-g1 and a plain move e1-g1 built on an empty back rank *)
Lemma Move_eq_iff_same_squares_witness :
  exists m1 m2,
    isCastleMove m1 = true /\ isCastleMove m2 = false /\
    (Move_eq m1 m2 = true <-> moveID m1 = moveID m2) /\
    (Move_eq m1 m2 = true <-> (7, 4) = (7, 4) /\ (7, 6) = (7, 6)).
Proof.
  pose (brd := board (state_after game_castle)).
  destruct (Move_init (7, 4) (7, 6) brd false true) as [m1|] eqn:E1;
    [|vm_compute in E1; discriminate].
  destruct (Move_init (7, 4) (7, 6) brd false false) as [m2|] eqn:E2;
    [|vm_compute in E2; discriminate].
  exists m1, m2.
  split; [apply Move_init_fields in E1; tauto|].
  split; [apply Move_init_fields in E2; tauto|].
  apply (Move_eq_iff_same_squares _ _ _ _ _ _ _ _ _ _ m1 m2 E1 E2);
    reflexivity.
Defined.

(** ** Undoing with an empty log *)

(** C8: with an empty move log, [undoMove] returns normally and the state it
    returns is the state it was given, field for field. *)
Theorem undoMove_empty_log (s : GameState) :
  moveLog s = [] -> undoMove s = Ok s.
Proof. intros H. unfold undoMove. rewrite H. reflexivity. Qed.

Lemma undoMove_empty_log_witness :
  moveLog GameState_init = [] /\ undoMove GameState_init = Ok GameState_init.
Proof.
  split; [reflexivity | apply (undoMove_empty_log GameState_init); reflexivity].
Defined.

(** ** The initial position *)

(** C6: the initial position has 20 valid moves, and the tree of valid moves
    walked with [makeMove] and [undoMove] has 20, 400 and 8902 leaves at
    depths 1, 2 and 3. *)
Theorem perft_initial_position :
  (res <- valid_moves GameState_init ;; Ok (length res)) = Ok 20%nat
  /\ perft_count 1 GameState_init = Ok 20
  /\ perft_count 2 GameState_init = Ok 400
  /\ perft_count 3 GameState_init = Ok 8902.
Proof.
  split; [|split; [|split]].
  - vm_compute; reflexivity.
  - vm_compute; reflexivity.
  - vm_compute; reflexivity.
  - vm_cast_no_check (eq_refl (Ok 8902)).
Qed.

(** ** The positions used as failing inputs *)

Lemma game_open_played : is_Some (play GameState_init game_open).
Proof. vm_compute. eexists. reflexivity. Qed.

Lemma game_pin_played : is_Some (play GameState_init game_pin).
Proof. vm_compute. eexists. reflexivity. Qed.

Lemma game_castle_played : is_Some (play GameState_init game_castle).
Proof. vm_compute. eexists. reflexivity. Qed.

Lemma game_ep_played : is_Some (play GameState_init game_ep).
Proof. vm_compute. eexists. reflexivity. Qed.

Lemma game_ep_black_played : is_Some (play GameState_init game_ep_black).
Proof. vm_compute. eexists. reflexivity. Qed.

(** ** Make and undo *)

(** C1 (fails on the code): after 1. e4 e5 the valid moves include Ke2;
    making it and undoing it restores the board, the side to move, the king
    squares, the en-passant target and its history, the flags and the move
    log, but the castling rights stay revoked for White and
    [castleRightsLog] is one entry longer than before. *)
Theorem makeMove_undoMove_not_inverse :
  exists s ms m s1 s2,
    reachable (state_after game_open)
    /\ getValidMoves (state_after game_open) = Ok (s, ms)
    /\ In m ms
    /\ (startRow m, startCol m, endRow m, endCol m) = (7, 4, 6, 4)
    /\ makeMove s m = Ok s1
    /\ undoMove s1 = Ok s2
    /\ board s2 = board s
    /\ whiteToMove s2 = whiteToMove s
    /\ whiteKingLocation s2 = whiteKingLocation s
    /\ blackKingLocation s2 = blackKingLocation s
    /\ enPassantPossible s2 = enPassantPossible s
    /\ enPassantPossibleLog s2 = enPassantPossibleLog s
    /\ (checkmate s2, stalemate s2) = (checkmate s, stalemate s)
    /\ moveLog s2 = moveLog s
    /\ rights s = mkCastleRights true true true true
    /\ rights s2 = mkCastleRights false true false true
    /\ length (castleRightsLog s) = 5%nat
    /\ length (castleRightsLog s2) = 6%nat.
Proof.
  destruct (getValidMoves (state_after game_open)) as [[s ms]|] eqn:Hv;
    [|vm_compute in Hv; discriminate].
  destruct (find (fun x => moveID x =? 7464) ms) as [m|] eqn:Hf;
    [|vm_compute in Hv; injection Hv as <- <-; vm_compute in Hf; discriminate].
  destruct (makeMove s m) as [s1|] eqn:Hm;
    [|vm_compute in Hv; injection Hv as <- <-; vm_compute in Hf;
      injection Hf as <-; vm_compute in Hm; discriminate].
  destruct (undoMove s1) as [s2|] eqn:Hu;
    [|vm_compute in Hv; injection Hv as <- <-; vm_compute in Hf;
      injection Hf as <-; vm_compute in Hm; injection Hm as <-;
      vm_compute in Hu; discriminate].
  exists s, ms, m, s1, s2.
  split; [apply state_after_reachable, game_open_played|].
  split; [reflexivity|].
  split; [apply find_some in Hf; tauto|].
  vm_compute in Hv; injection Hv as <- <-; vm_compute in Hf;
    injection Hf as <-; vm_compute in Hm; injection Hm as <-;
    vm_compute in Hu; injection Hu as <-.
  repeat (split; [vm_compute; reflexivity|]). vm_compute; reflexivity.
Qed.

(** ** Move generation raises *)

(** C2 (fails on the code): in the reachable position after 1. e4 Nc6 2. e5
    Nb8 3. Ke2 Nc6 4. Ke3 Nb8 5. Kf4 Nc6 6. Kg5 d5 the white pawn on e5 may
    capture en passant on d6 and stands on the king's rank, so the pawn
    generator scans the rank and evaluates the unbound name [seqare]:
    [getValidMoves] raises [NameError], while [checkForPinsAndChecks] returns
    normally. *)
Theorem getValidMoves_raises_NameError :
  reachable (state_after game_ep)
  /\ whiteToMove (state_after game_ep) = true
  /\ whiteKingLocation (state_after game_ep) = (3, 6)
  /\ board_get (board (state_after game_ep)) 3 4 = Ok (pc "w" "p")
  /\ enPassantPossible (state_after game_ep) = Some (2, 3)
  /\ checkForPinsAndChecks (state_after game_ep) = Ok (false, [], [])
  /\ getValidMoves (state_after game_ep) = Raise NameError.
Proof.
  split; [apply state_after_reachable, game_ep_played|].
  repeat (split; [vm_compute; reflexivity|]). vm_compute; reflexivity.
Qed.

(** ** Pinned pieces *)

(** C3 (fails on the code): after 1. d4 e6 2. Nc3 Bb4 the knight on c3 is
    reported as pinned along the diagonal from the king on e1 towards b4, and
    the valid moves contain its move to d5, a square off that diagonal. *)
Theorem pinned_knight_leaves_pin_line :
  reachable (state_after game_pin)
  /\ whiteToMove (state_after game_pin) = true
  /\ whiteKingLocation (state_after game_pin) = (7, 4)
  /\ board_get (board (state_after game_pin)) 5 2 = Ok (pc "w" "N")
  /\ board_get (board (state_after game_pin)) 4 1 = Ok (pc "b" "B")
  /\ checkForPinsAndChecks (state_after game_pin) = Ok (false, [(5, 2, -1, -1)], [])
  /\ (ms <- valid_moves (state_after game_pin) ;;
      Ok (has_move ms (pc "w" "N") (5, 2) (3, 3))) = Ok true
  /\ on_pin_line (7, 4) (-1, -1) (3, 3) = false.
Proof.
  split; [apply state_after_reachable, game_pin_played|].
  repeat (split; [vm_compute; reflexivity|]). vm_compute; reflexivity.
Qed.

(** ** Castling *)

(** C5 (fails on the code): after 1. e4 e5 2. Nf3 Nc6 3. Bc4 Bc5 White holds
    the king-side right, f1 and g1 are empty, and e1, f1 and g1 are not
    attacked; [getCastleMoves] yields the castle move e1-g1, but
    [getValidMoves] never calls it and returns no castle move. *)
Theorem getValidMoves_omits_castling :
  reachable (state_after game_castle)
  /\ whiteToMove (state_after game_castle) = true
  /\ whiteKingLocation (state_after game_castle) = (7, 4)
  /\ wks (rights (state_after game_castle)) = true
  /\ board_get (board (state_after game_castle)) 7 5 = Ok EMPTY
  /\ board_get (board (state_after game_castle)) 7 6 = Ok EMPTY
  /\ board_get (board (state_after game_castle)) 7 7 = Ok (pc "w" "R")
  /\ attacked (state_after game_castle) 7 4 = Ok false
  /\ attacked (state_after game_castle) 7 5 = Ok false
  /\ attacked (state_after game_castle) 7 6 = Ok false
  /\ (res <- getCastleMoves (state_after game_castle) 7 4 [] ;;
      Ok (map (fun m => (moveID m, isCastleMove m)) (snd res))) = Ok [(7476, true)]
  /\ (ms <- valid_moves (state_after game_castle) ;;
      Ok (existsb isCastleMove ms)) = Ok false
  /\ (ms <- valid_moves (state_after game_castle) ;;
      Ok (has_move ms (pc "w" "K") (7, 4) (7, 6))) = Ok false.
Proof.
  split; [apply state_after_reachable, game_castle_played|].
  repeat (split; [vm_compute; reflexivity|]). vm_compute; reflexivity.
Qed.

(** ** Python list lemmas *)

Lemma pop_inv {A : Type} (l l' : list A) (x : A) :
  Py.pop l = Ok (l', x) -> l = Py.push x l'.
Proof. destruct l as [|y l0]; [discriminate|]. now intros [= <- <-]. Qed.

Lemma top_inv {A : Type} (l : list A) (x : A) :
  Py.top l = Ok x -> exists l', l = Py.push x l'.
Proof. destruct l as [|y l0]; [discriminate|]. intros [= <-]. now exists l0. Qed.

(** ** What the steps of [makeMove] and [undoMove] leave alone *)

Lemma put_board s r c p s' :
  put s r c p = Ok s' -> exists b, s' = set_board s b.
Proof. unfold put. intros H. bind_inv H. injection H as <-. eauto. Qed.

Lemma captureEnPassant_board s m s' :
  captureEnPassant s m = Ok s' -> exists b, s' = set_board s b.
Proof.
  unfold captureEnPassant. destruct (isEnpassantMove m).
  - apply put_board.
  - intros [= <-]. exists (board s). now destruct s.
Qed.

Lemma promotePawn_board s m s' :
  promotePawn s m = Ok s' -> exists b, s' = set_board s b.
Proof.
  unfold promotePawn. destruct (isPawnPromotion m).
  - apply put_board.
  - intros [= <-]. exists (board s). now destruct s.
Qed.

Lemma put_put_board s r c p r' c' p' s1 s2 :
  put s r c p = Ok s1 -> put s1 r' c' p' = Ok s2 -> exists b, s2 = set_board s b.
Proof.
  intros H1 H2. apply put_board in H1 as [b1 ->]. apply put_board in H2 as [b2 ->].
  now exists b2.
Qed.

Lemma castleRook_board s m s' :
  castleRook s m = Ok s' -> exists b, s' = set_board s b.
Proof.
  unfold castleRook. destruct (isCastleMove m).
  - destruct (_ =? 2); intros H; bind_inv H; bind_inv H; eapply put_put_board; eauto.
  - intros [= <-]. exists (board s). now destruct s.
Qed.

Lemma undoEnPassant_board s m s' :
  undoEnPassant s m = Ok s' -> exists b, s' = set_board s b.
Proof.
  unfold undoEnPassant. destruct (isEnpassantMove m).
  - intros H; bind_inv H; eapply put_put_board; eauto.
  - intros [= <-]. exists (board s). now destruct s.
Qed.

Lemma undoCastleRook_board s m s' :
  undoCastleRook s m = Ok s' -> exists b, s' = set_board s b.
Proof.
  unfold undoCastleRook. destruct (isCastleMove m).
  - destruct (_ =? 2); intros H; bind_inv H; bind_inv H; eapply put_put_board; eauto.
  - intros [= <-]. exists (board s). now destruct s.
Qed.

Lemma journal_updateKingLocation s m sq :
  journal (updateKingLocation s m sq) = journal s.
Proof. unfold updateKingLocation. repeat case_match; reflexivity. Qed.

Lemma journal_updateEnPassant s m :
  journal (updateEnPassant s m) = journal s.
Proof. unfold updateEnPassant. case_match; reflexivity. Qed.

(** *** [updateCastleRights] *)

Lemma revoked_refl s : revoked s s.
Proof. unfold revoked; tauto. Qed.

Lemma revoked_store s s' f :
  revoked s s' -> revoked s (store s' (currentCastlingRight s') f).
Proof.
  intros (H1 & H2 & H3 & H4 & H5 & H6). unfold revoked, store; simpl.
  repeat (split; [assumption|]). intros l Hl.
  rewrite lookup_insert_ne by congruence. auto.
Qed.

Lemma updateCastleRights_spec s m s' :
  updateCastleRights s m = Ok s' ->
  moveLog s' = moveLog s
  /\ enPassantPossibleLog s' = enPassantPossibleLog s
  /\ castleRightsLog s' = Py.push (nextLoc s) (castleRightsLog s)
  /\ currentCastlingRight s' = nextLoc s
  /\ nextLoc s' = Pos.succ (nextLoc s)
  /\ forall l, l <> nextLoc s -> heap s' !! l = heap s !! l.
Proof.
  unfold updateCastleRights, copy_CastleRights, new_CastleRights.
  cbn [castleRightsLog set_castleRightsLog set_heap Py.push Py.top bind].
  set (s0 := set_currentCastlingRight _ _).
  assert (R0 : revoked s0 s0) by apply revoked_refl.
  intros [= <-].
  assert (R : forall s1, revoked s0 s1 ->
    moveLog s1 = moveLog s
    /\ enPassantPossibleLog s1 = enPassantPossibleLog s
    /\ castleRightsLog s1 = Py.push (nextLoc s) (castleRightsLog s)
    /\ currentCastlingRight s1 = nextLoc s
    /\ nextLoc s1 = Pos.succ (nextLoc s)
    /\ forall l, l <> nextLoc s -> heap s1 !! l = heap s !! l).
  { intros s1 (H1 & H2 & H3 & H4 & H5 & H6). subst s0. simpl in *.
    repeat (split; [assumption|]). intros l Hl.
    rewrite H6 by assumption. now rewrite lookup_insert_ne. }
  apply R. cbv zeta.
  repeat case_match; repeat apply revoked_store; apply revoked_refl.
Qed.

Lemma deref_copy (r : CastleRights) :
  mkCastleRights (wks r) (bks r) (wqs r) (bqs r) = r.
Proof. now destruct r. Qed.

(** *** [makeMove] *)

Lemma makeMove_spec s m s' :
  makeMove s m = Ok s' ->
  moveLog s' = Py.push m (moveLog s)
  /\ (exists ep, enPassantPossibleLog s' = Py.push ep (enPassantPossibleLog s))
  /\ castleRightsLog s' =
       Py.push (Pos.succ (nextLoc s)) (Py.push (nextLoc s) (castleRightsLog s))
  /\ currentCastlingRight s' = nextLoc s
  /\ nextLoc s' = Pos.succ (Pos.succ (nextLoc s))
  /\ (forall l, l <> nextLoc s -> l <> Pos.succ (nextLoc s) ->
        heap s' !! l = heap s !! l)
  /\ deref s' (Pos.succ (nextLoc s)) = deref s' (nextLoc s).
Proof.
  unfold makeMove. intros H.
  bind_inv H. apply put_board in Ha as [b1 ->].
  bind_inv H. apply put_board in Ha as [b2 ->].
  cbv zeta in H.
  bind_inv H. apply captureEnPassant_board in Ha as [b3 ->].
  bind_inv H. apply promotePawn_board in Ha as [b4 ->].
  bind_inv H. apply castleRook_board in Ha as [b5 ->].
  bind_inv H. apply updateCastleRights_spec in Ha.
  match type of Ha with context [updateEnPassant ?x m] =>
    pose proof (journal_updateEnPassant x m) as J1 end.
  match type of J1 with context [updateKingLocation ?x m ?sq] =>
    pose proof (journal_updateKingLocation x m sq) as J2 end.
  rewrite J2 in J1. clear J2.
  unfold journal in J1. cbn in J1.
  injection J1 as J1 J2 J3 J4 J5 J6.
  cbn in Ha. rewrite ?J1, ?J2, ?J3, ?J4, ?J5, ?J6 in Ha.
  destruct Ha as (H1 & H2 & H3 & H4 & H5 & H6).
  unfold copy_CastleRights, new_CastleRights in H. injection H as <-.
  cbn. rewrite H1, H2, H3, H4, H5.
  split; [reflexivity|]. split; [eauto|].
  split; [reflexivity|]. split; [reflexivity|].
  split; [reflexivity|]. split.
  - intros l Hl1 Hl2. rewrite lookup_insert_ne by congruence. auto.
  - unfold deref. cbn. rewrite deref_copy.
    rewrite lookup_total_insert_eq.
    rewrite lookup_total_insert_ne by lia. reflexivity.
Qed.

(** *** [undoMove] *)

Lemma undoMove_spec s s' :
  moveLog s <> [] -> undoMove s = Ok s' ->
  exists m ep top newRights,
    moveLog s = Py.push m (moveLog s')
    /\ enPassantPossibleLog s = Py.push ep (enPassantPossibleLog s')
    /\ castleRightsLog s = Py.push top (castleRightsLog s')
    /\ Py.top (castleRightsLog s') = Ok newRights
    /\ currentCastlingRight s' = nextLoc s
    /\ nextLoc s' = Pos.succ (nextLoc s)
    /\ heap s' = <[nextLoc s := deref s newRights]> (heap s).
Proof.
  intros Hne. unfold undoMove.
  destruct (moveLog s) as [|m0 ml] eqn:Hlog; [congruence|].
  replace (negb (Z.of_nat (length (m0 :: ml)) =? 0)) with true
    by (symmetry; apply negb_true_iff, Z.eqb_neq; simpl length; lia).
  intros H. bind_inv H. destruct a as [ml' m]. apply pop_inv in Ha.
  cbn [fst snd] in H. unfold undoPopped in H.
  bind_inv H. apply put_board in Ha0 as [b1 ->].
  bind_inv H. apply put_board in Ha0 as [b2 ->].
  cbv zeta in H.
  bind_inv H. apply undoEnPassant_board in Ha0 as [b3 ->].
  match type of H with context [updateKingLocation ?x m ?sq] =>
    pose proof (journal_updateKingLocation x m sq) as J end.
  unfold journal in J. cbn in J. injection J as J1 J2 J3 J4 J5 J6.
  cbn in H. rewrite ?J2, ?J3 in H.
  bind_inv H. destruct a as [epl' ep]. apply pop_inv in Ha0.
  cbn [fst snd] in H. bind_inv H. clear Ha1.
  bind_inv H. destruct a0 as [crl' top]. apply pop_inv in Ha1.
  cbn [fst snd] in H. bind_inv H. rename a0 into newRights.
  rename Ha2 into Htop.
  unfold copy_CastleRights, new_CastleRights in H. cbn in H.
  bind_inv H. apply undoCastleRook_board in Ha2 as [b4 ->].
  injection H as <-. cbn. rewrite ?J1, ?J2, ?J3, ?J4, ?J5, ?J6.
  exists m, ep, top, newRights.
  split; [congruence|]. split; [assumption|]. split; [assumption|].
  split; [exact Htop|].
  split; [reflexivity|]. split; [reflexivity|].
  unfold deref. cbn. rewrite J5. now rewrite deref_copy.
Qed.

(** *** [makeMove] followed by [undoMove] *)

(** After a move is made and undone, the current rights are the rights after
    the move, and [castleRightsLog] has gained the entry that
    [updateCastleRights] appended. *)
Lemma makeMove_undoMove_rights s m s1 s2 :
  makeMove s m = Ok s1 -> undoMove s1 = Ok s2 ->
  rights s2 = rights s1
  /\ castleRightsLog s2 = Py.push (currentCastlingRight s1) (castleRightsLog s).
Proof.
  intros Hm Hu.
  apply makeMove_spec in Hm as (M1 & _ & M3 & M4 & M5 & _).
  apply undoMove_spec in Hu; [|rewrite M1; discriminate].
  destruct Hu as (m' & ep & top & nr & _ & _ & U3 & U4 & U5 & _ & U7).
  rewrite M3 in U3. injection U3 as _ U3. rewrite <- U3 in U4.
  injection U4 as <-. split.
  - unfold rights, deref. rewrite U5, U7, lookup_total_insert_eq.
    unfold deref. now rewrite M4.
  - now rewrite <- U3, M4.
Qed.

(** ** What move generation leaves alone *)

Lemma pins_removed_refl s : pins_removed s s.
Proof. split; [now destruct s | reflexivity]. Qed.

Lemma pins_removed_trans s1 s2 s3 :
  pins_removed s1 s2 -> pins_removed s2 s3 -> pins_removed s1 s3.
Proof.
  intros [E1 S1] [E2 S2]. split.
  - rewrite E2 at 1. rewrite E1 at 1. reflexivity.
  - etransitivity; eassumption.
Qed.

Lemma for_each_inv {A S : Type} (P : S -> Prop) (body : A -> S -> result S) :
  (forall x acc acc', P acc -> body x acc = Ok acc' -> P acc') ->
  forall l acc acc', P acc -> for_each l acc body = Ok acc' -> P acc'.
Proof.
  intros Hbody. induction l as [|x l IH]; simpl; intros acc acc' HP H.
  - now injection H as <-.
  - bind_inv H. eauto.
Qed.

Lemma remove_sublist {A : Type} (eqb : A -> A -> bool) (x : A) (l : list A) :
  sublist (Py.remove eqb x l) l.
Proof.
  induction l as [|y l IH]; simpl.
  - constructor.
  - destruct (eqb y x).
    + now apply sublist_cons.
    + now apply sublist_skip.
Qed.

Lemma find_pin_sublist ps r c idx found d ps' :
  find_pin ps r c idx = Ok (found, d, ps') -> sublist ps' ps.
Proof.
  induction idx as [|i idx IH]; simpl; intros H.
  - now injection H as _ _ <-.
  - bind_inv H. destruct a as [[[pr pcol] d0] d1].
    destruct ((pr =? r) && (pcol =? c)).
    + injection H as _ _ <-. apply remove_sublist.
    + auto.
Qed.

Lemma getPawnMoves_frame s r c moves s' moves' :
  getPawnMoves s r c moves = Ok (s', moves') -> pins_removed s s'.
Proof.
  unfold getPawnMoves. intros H. bind_inv H.
  destruct a as [[piecePinned pinDirection] ps].
  apply find_pin_sublist in Ha. cbv zeta in H.
  destruct (if whiteToMove (set_pins s ps) then _ else _) as [[[moveAmount startRow] enemyColor] [kingRow kingCol]].
  bind_inv H. bind_inv H. bind_inv H. bind_inv H.
  injection H as <- _. split; [reflexivity | exact Ha].
Qed.

Lemma moveFunctions_frame piece gen :
  moveFunctions piece = Ok gen ->
  forall s r c moves s' moves',
    gen s r c moves = Ok (s', moves') -> pins_removed s s'.
Proof.
  unfold moveFunctions.
  repeat case_match; intros Hg; try discriminate; injection Hg as <-;
    intros s r c moves s' moves' Hgen;
    try (apply getPawnMoves_frame in Hgen; exact Hgen);
    unfold pure_generator in Hgen; bind_inv Hgen; injection Hgen as <- _;
    apply pins_removed_refl.
Qed.

Lemma visit_square_frame s0 r c acc acc' :
  pins_removed s0 (fst acc) -> visit_square r c acc = Ok acc' ->
  pins_removed s0 (fst acc').
Proof.
  destruct acc as [s moves]. unfold visit_square. intros HP H.
  bind_inv H. case_match.
  - bind_inv H. bind_inv H. destruct acc' as [s' moves'].
    eapply pins_removed_trans; [exact HP|].
    eapply moveFunctions_frame; eauto.
  - now injection H as <-.
Qed.

Lemma getAllPossibleMoves_frame s s' moves :
  getAllPossibleMoves s = Ok (s', moves) -> pins_removed s s'.
Proof.
  unfold getAllPossibleMoves. intros H.
  eapply (for_each_inv (fun acc => pins_removed s (fst acc))) in H;
    [exact H | | apply pins_removed_refl].
  intros r acc acc' HP Hrow. bind_inv Hrow.
  eapply (for_each_inv (fun acc => pins_removed s (fst acc))) in Hrow;
    [exact Hrow | | exact HP].
  intros c acc1 acc2. apply visit_square_frame.
Qed.

(** C10 (fails on the code): after 1. e4 e6 2. e5 Ke7 3. a3 d5 it is White's
    move and [getValidMoves] returns 29 moves.  For every square,
    [squareUnderAttack] flips the side to move and generates Black's moves;
    the pawn generator raises [NameError] for the pawn on c7 (it shares the
    seventh rank with its king and d6 is the en-passant target, so the rank
    scan reads the unbound name).  The call does not return: the exception
    comes out of the generation on the state whose side to move is flipped,
    before the flag is flipped back. *)
Theorem squareUnderAttack_raises_NameError :
  reachable (state_after game_ep_black)
  /\ (ms <- valid_moves (state_after game_ep_black) ;; Ok (length ms))
     = Ok 29%nat
  /\ whiteToMove (state_after game_ep_black) = true
  /\ whiteToMove
       (set_whiteToMove (state_after game_ep_black)
          (negb (whiteToMove (state_after game_ep_black)))) = false
  /\ getAllPossibleMoves
       (set_whiteToMove (state_after game_ep_black)
          (negb (whiteToMove (state_after game_ep_black))))
     = Raise NameError
  /\ forall r c,
       squareUnderAttack (state_after game_ep_black) r c = Raise NameError.
Proof.
  assert (H : getAllPossibleMoves
                (set_whiteToMove (state_after game_ep_black)
                   (negb (whiteToMove (state_after game_ep_black))))
              = Raise NameError) by (vm_compute; reflexivity).
  split; [apply state_after_reachable, game_ep_black_played|].
  split; [vm_compute; reflexivity|].
  split; [vm_compute; reflexivity|].
  split; [vm_compute; reflexivity|].
  split; [exact H|].
  intros r c. unfold squareUnderAttack. rewrite H. reflexivity.
Qed.

Lemma getValidMoves_frame s s' moves :
  getValidMoves s = Ok (s', moves) -> check_info_updated s s'.
Proof.
  unfold getValidMoves. intros H. bind_inv H. destruct a as [[ic ps] cs].
  cbv zeta in H.
  destruct (if whiteToMove (set_check_info s ic ps cs) then _ else _)
    as [kingRow kingCol].
  bind_inv H. destruct a as [s1 moves1].
  assert (F : pins_removed (set_check_info s ic ps cs) s1).
  { destruct (inCheck (set_check_info s ic ps cs)).
    - destruct (_ =? 1).
      + bind_inv Ha0. destruct a as [s2 moves2].
        apply getAllPossibleMoves_frame in Ha1.
        bind_inv Ha0. destruct a as [[[checkRow checkCol] d0] d1].
        bind_inv Ha0. bind_inv Ha0. now injection Ha0 as <- _.
      + bind_inv Ha0. injection Ha0 as <- _. apply pins_removed_refl.
    - now apply getAllPossibleMoves_frame in Ha0. }
  destruct F as [E _]. unfold check_info_updated.
  repeat case_match; injection H as <- _; rewrite E; reflexivity.
Qed.

Lemma getValidMoves_journal s s' moves :
  getValidMoves s = Ok (s', moves) ->
  board s' = board s /\ whiteToMove s' = whiteToMove s /\ journal s' = journal s.
Proof.
  intros H. apply getValidMoves_frame in H. rewrite H. repeat split.
Qed.

(** ** The store of castling rights *)

Lemma wf_store_init : wf_store GameState_init.
Proof.
  split; [reflexivity|]. cbn. repeat constructor.
Qed.

Lemma makeMove_wf_store s m s' :
  wf_store s -> makeMove s m = Ok s' -> wf_store s'.
Proof.
  intros [Hc Hl] H. apply makeMove_spec in H as (_ & _ & H3 & H4 & H5 & _).
  unfold wf_store. rewrite H3, H4, H5. split; [lia|].
  constructor; [lia|]. constructor; [lia|].
  eapply Forall_impl; [exact Hl|]. cbn. intros; lia.
Qed.

Lemma undoMove_wf_store s s' :
  wf_store s -> undoMove s = Ok s' -> wf_store s'.
Proof.
  intros [Hc Hl] H. destruct (moveLog s) as [|m0 ml] eqn:Hlog.
  - unfold undoMove in H. rewrite Hlog in H. injection H as <-. now split.
  - apply undoMove_spec in H; [|congruence].
    destruct H as (m & ep & top & nr & _ & _ & H3 & _ & H5 & H6 & _).
    unfold wf_store. rewrite H5, H6. split; [lia|].
    rewrite H3 in Hl. apply Forall_cons in Hl as [_ Hl].
    eapply Forall_impl; [exact Hl|]. cbn. intros; lia.
Qed.

Lemma reachable_wf_store s : reachable s -> wf_store s.
Proof.
  induction 1 as [|s0 s ms _ IH Hv|s0 s ms m s' _ IH Hv _ Hm|s s' _ IH Hu].
  - apply wf_store_init.
  - apply getValidMoves_journal in Hv as (_ & _ & J).
    unfold journal in J. injection J as _ _ J3 J4 _ J6.
    unfold wf_store. now rewrite J3, J4, J6.
  - apply getValidMoves_journal in Hv as (_ & _ & J).
    unfold journal in J. injection J as _ _ J3 J4 _ J6.
    eapply makeMove_wf_store; [|exact Hm].
    unfold wf_store. now rewrite J3, J4, J6.
  - eapply undoMove_wf_store; eauto.
Qed.

Lemma wf_store_below s l :
  wf_store s -> In l (castleRightsLog s) -> (l < nextLoc s)%positive.
Proof.
  intros [_ Hl] Hin. rewrite List.Forall_forall in Hl. auto.
Qed.

(** The store of castling rights under [makeMove] and [undoMove], in every
    state whose references were all created by the engine: neither changes
    an object that was in [castleRightsLog] when it was called. [makeMove]
    appends two new objects: the first, appended by [updateCastleRights], is
    the very object [currentCastlingRight] then refers to (the rights the
    move revokes are written into it); the second is another object that
    holds the same rights. [undoMove] on a non-empty move log leaves
    [currentCastlingRight] referring to a new object, not an entry of the
    log, that holds the rights of the log's last entry. *)
Lemma castleRightsLog_entries_kept (s : GameState) :
  wf_store s ->
  (forall m s', makeMove s m = Ok s' ->
     wf_store s'
     /\ (forall l, In l (castleRightsLog s) -> deref s' l = deref s l)
     /\ exists l1 l2,
          castleRightsLog s' = Py.push l2 (Py.push l1 (castleRightsLog s))
          /\ currentCastlingRight s' = l1
          /\ l1 <> l2
          /\ ~ In l1 (castleRightsLog s) /\ ~ In l2 (castleRightsLog s)
          /\ deref s' l2 = deref s' l1)
  /\ (forall s', moveLog s <> [] -> undoMove s = Ok s' ->
     wf_store s'
     /\ (forall l, In l (castleRightsLog s) -> deref s' l = deref s l)
     /\ ~ In (currentCastlingRight s') (castleRightsLog s')
     /\ exists top,
          Py.top (castleRightsLog s') = Ok top
          /\ deref s' (currentCastlingRight s') = deref s' top).
Proof.
  intros Hwf. split.
  - intros m s' H. split; [eapply makeMove_wf_store; eauto|].
    apply makeMove_spec in H as (_ & _ & H3 & H4 & H5 & H6 & H7). split.
    + intros l Hin. apply (wf_store_below s l Hwf) in Hin.
      unfold deref. rewrite !lookup_total_alt, H6 by lia. reflexivity.
    + exists (nextLoc s), (Pos.succ (nextLoc s)).
      repeat split; try assumption; try lia;
        intros Hin; apply (wf_store_below s _ Hwf) in Hin; lia.
  - intros s' Hne H. split; [eapply undoMove_wf_store; eauto|].
    apply undoMove_spec in H as (m & ep & top & nr & _ & _ & H3 & H4 & H5 & H6 & H7);
      [|assumption].
    assert (Hsub : forall l, In l (castleRightsLog s') -> (l < nextLoc s)%positive).
    { intros l Hin. apply (wf_store_below s l Hwf). rewrite H3. now right. }
    split; [|split].
    + intros l Hin. apply (wf_store_below s l Hwf) in Hin.
      unfold deref. rewrite H7, lookup_total_insert_ne by lia. reflexivity.
    + rewrite H5. intros Hin. apply Hsub in Hin. lia.
    + exists nr. split; [assumption|].
      assert (Hnr : (nr < nextLoc s)%positive).
      { apply Hsub. apply top_inv in H4 as [l' ->]. now left. }
      unfold deref. rewrite H5, H7, lookup_total_insert_eq.
      rewrite lookup_total_insert_ne by lia. reflexivity.
Qed.

(** ** No generator called by [getValidMoves] builds a castle move *)

Lemma no_castle_snoc moves a b brd ep m :
  no_castle moves -> Move_init a b brd ep false = Ok m -> no_castle (moves ++ [m]).
Proof.
  intros HP Hm. apply Forall_app. split; [exact HP|].
  constructor; [|constructor]. apply Move_init_fields in Hm. tauto.
Qed.

Lemma no_castle_sublist l1 l2 : sublist l1 l2 -> no_castle l2 -> no_castle l1.
Proof.
  unfold no_castle. induction 1 as [|x l1 l2 _ IH|x l1 l2 _ IH]; intros HF.
  - constructor.
  - inversion HF; subst. constructor; auto.
  - inversion HF; subst. auto.
Qed.

Lemma slide_no_castle b enemyColor r c d steps : forall moves moves',
  no_castle moves -> slide b enemyColor r c d steps moves = Ok moves' ->
  no_castle moves'.
Proof.
  induction steps as [|i steps IH]; simpl; intros moves moves' HP H.
  - now injection H as <-.
  - destruct (in_bounds _ _); [|now injection H as <-].
    bind_inv H. destruct (Piece_eqb a EMPTY).
    + bind_inv H. eapply IH; [|exact H]. eapply no_castle_snoc; eauto.
    + destruct (Ascii.eqb _ _); [|now injection H as <-].
      bind_inv H. injection H as <-. eapply no_castle_snoc; eauto.
Qed.

Lemma slide_all_no_castle s directions r c moves moves' :
  no_castle moves -> slide_all s directions r c moves = Ok moves' ->
  no_castle moves'.
Proof.
  unfold slide_all. intros HP H.
  eapply (for_each_inv no_castle) in H; [exact H | | exact HP].
  intros d acc acc'. apply slide_no_castle.
Qed.

Lemma jump_all_no_castle s offsets r c moves moves' :
  no_castle moves -> jump_all s offsets r c moves = Ok moves' ->
  no_castle moves'.
Proof.
  unfold jump_all. intros HP H.
  eapply (for_each_inv no_castle) in H; [exact H | | exact HP].
  intros d acc acc' Hacc Hb. cbv zeta in Hb.
  destruct (in_bounds _ _); [|now injection Hb as <-].
  bind_inv Hb. destruct (negb _); [|now injection Hb as <-].
  bind_inv Hb. injection Hb as <-. eapply no_castle_snoc; eauto.
Qed.

Lemma getQueenMoves_no_castle s r c moves moves' :
  no_castle moves -> getQueenMoves s r c moves = Ok moves' -> no_castle moves'.
Proof.
  unfold getQueenMoves, getRookMoves, getBishopMoves. intros HP H. bind_inv H.
  eapply slide_all_no_castle; [|exact H]. eapply slide_all_no_castle; eauto.
Qed.

Lemma pawnCapture_no_castle s r c moveAmount dc enemyColor kingRow kingCol
    piecePinned pinDirection rl rr moves moves' :
  no_castle moves ->
  pawnCapture s r c moveAmount dc enemyColor kingRow kingCol piecePinned
    pinDirection rl rr moves = Ok moves' ->
  no_castle moves'.
Proof.
  unfold pawnCapture. intros HP H.
  destruct (_ || _); [|now injection H as <-].
  bind_inv H. bind_inv H.
  assert (HP0 : no_castle a0).
  { destruct (Ascii.eqb _ _); [|now injection Ha0 as <-].
    bind_inv Ha0. injection Ha0 as <-. eapply no_castle_snoc; eauto. }
  destruct (is_enPassantPossible _ _); [|now injection H as <-].
  bind_inv H. destruct a1 as [attackingPiece blockingPiece].
  destruct (_ || _); [|now injection H as <-].
  bind_inv H. injection H as <-. eapply no_castle_snoc; eauto.
Qed.

Lemma getPawnMoves_no_castle s r c moves s' moves' :
  no_castle moves -> getPawnMoves s r c moves = Ok (s', moves') ->
  no_castle moves'.
Proof.
  unfold getPawnMoves. intros HP H. bind_inv H.
  destruct a as [[piecePinned pinDirection] ps]. cbv zeta in H.
  destruct (if whiteToMove (set_pins s ps) then _ else _)
    as [[[moveAmount startRow] enemyColor] [kingRow kingCol]].
  bind_inv H. bind_inv H.
  assert (HP1 : no_castle a0).
  { destruct (Piece_eqb a EMPTY); [|now injection Ha1 as <-].
    destruct (_ || _); [|now injection Ha1 as <-].
    bind_inv Ha1.
    assert (no_castle (moves ++ [a1])) by (eapply no_castle_snoc; eauto).
    destruct (r =? startRow); [|now injection Ha1 as <-].
    bind_inv Ha1. destruct (Piece_eqb a2 EMPTY); [|now injection Ha1 as <-].
    bind_inv Ha1. injection Ha1 as <-. eapply no_castle_snoc; eauto. }
  bind_inv H.
  assert (HP2 : no_castle a1).
  { destruct (0 <=? c - 1); [|now injection Ha2 as <-].
    eapply pawnCapture_no_castle; eauto. }
  bind_inv H.
  assert (HP3 : no_castle a2).
  { destruct (c + 1 <=? 7); [|now injection Ha3 as <-].
    eapply pawnCapture_no_castle; eauto. }
  now injection H as _ <-.
Qed.

Lemma moveFunctions_no_castle piece gen :
  moveFunctions piece = Ok gen ->
  forall s r c moves s' moves',
    no_castle moves -> gen s r c moves = Ok (s', moves') -> no_castle moves'.
Proof.
  unfold moveFunctions.
  repeat case_match; intros Hg; try discriminate; injection Hg as <-;
    intros s r c moves s' moves' HP Hgen;
    try (eapply getPawnMoves_no_castle; eassumption);
    unfold pure_generator in Hgen; bind_inv Hgen; injection Hgen as _ <-.
  - eapply slide_all_no_castle; eauto.
  - eapply jump_all_no_castle; eauto.
  - eapply slide_all_no_castle; eauto.
  - eapply getQueenMoves_no_castle; eauto.
  - eapply jump_all_no_castle; eauto.
Qed.

Lemma getAllPossibleMoves_no_castle s s' moves :
  getAllPossibleMoves s = Ok (s', moves) -> no_castle moves.
Proof.
  unfold getAllPossibleMoves. intros H.
  eapply (for_each_inv (fun acc => no_castle (snd acc))) in H;
    [exact H | | constructor].
  intros r acc acc' HP Hrow. bind_inv Hrow.
  eapply (for_each_inv (fun acc => no_castle (snd acc))) in Hrow;
    [exact Hrow | | exact HP].
  intros c [s1 moves1] [s2 moves2] HP1 Hv. unfold visit_square in Hv.
  bind_inv Hv. case_match; [|now injection Hv as <- <-].
  bind_inv Hv. bind_inv Hv. eapply moveFunctions_no_castle; eauto.
Qed.

Lemma filter_check_sublist validSquares idx : forall moves moves',
  filter_check validSquares idx moves = Ok moves' -> sublist moves' moves.
Proof.
  induction idx as [|i idx IH]; simpl; intros moves moves' H.
  - now injection H as <-.
  - bind_inv H. destruct (negb (Ascii.eqb _ _)); [|auto].
    destruct (negb (existsb _ _)); [|auto].
    bind_inv H. apply IH in H. etransitivity; [exact H|]. apply remove_sublist.
Qed.

Lemma getValidMoves_no_castle s s' moves :
  getValidMoves s = Ok (s', moves) -> no_castle moves.
Proof.
  unfold getValidMoves. intros H. bind_inv H. destruct a as [[ic ps] cs].
  cbv zeta in H.
  destruct (if whiteToMove (set_check_info s ic ps cs) then _ else _)
    as [kingRow kingCol].
  bind_inv H. destruct a as [s1 moves1].
  assert (F : no_castle moves1).
  { destruct (inCheck (set_check_info s ic ps cs)).
    - destruct (_ =? 1).
      + bind_inv Ha0. destruct a as [s2 moves2].
        apply getAllPossibleMoves_no_castle in Ha1.
        bind_inv Ha0. destruct a as [[[checkRow checkCol] d0] d1].
        bind_inv Ha0. bind_inv Ha0. injection Ha0 as _ <-.
        apply filter_check_sublist in Ha4.
        eapply no_castle_sublist; eauto.
      + bind_inv Ha0. injection Ha0 as _ <-.
        eapply jump_all_no_castle; [|exact Ha1]. constructor.
    - now apply getAllPossibleMoves_no_castle in Ha0. }
  repeat case_match; now injection H as _ <-.
Qed.

(** ** The three logs *)

(** C9: a call of [makeMove] that returns has appended one entry to
    [moveLog] (the move), one to [enPassantPossibleLog] and two to
    [castleRightsLog], the first of the two inside [updateCastleRights]; a
    call of [undoMove] on a non-empty move log that returns has removed the
    last entry of each of the three logs. *)
Theorem logs_grow_and_shrink :
  (forall s m s',
     updateCastleRights s m = Ok s' ->
     exists l, castleRightsLog s' = Py.push l (castleRightsLog s))
  /\ (forall s m s',
        makeMove s m = Ok s' ->
        moveLog s' = Py.push m (moveLog s)
        /\ (exists ep,
              enPassantPossibleLog s' = Py.push ep (enPassantPossibleLog s))
        /\ (exists l1 l2,
              castleRightsLog s' = Py.push l2 (Py.push l1 (castleRightsLog s))))
  /\ (forall s s',
        moveLog s <> [] -> undoMove s = Ok s' ->
        (exists m, moveLog s = Py.push m (moveLog s'))
        /\ (exists ep,
              enPassantPossibleLog s = Py.push ep (enPassantPossibleLog s'))
        /\ (exists l, castleRightsLog s = Py.push l (castleRightsLog s'))).
Proof.
  split; [|split].
  - intros s m s' H. apply updateCastleRights_spec in H. exists (nextLoc s). tauto.
  - intros s m s' H. apply makeMove_spec in H as (H1 & H2 & H3 & _).
    split; [exact H1|]. split; [exact H2|]. eauto.
  - intros s s' Hne H.
    apply undoMove_spec in H as (m & ep & top & nr & H1 & H2 & H3 & _);
      [|exact Hne].
    split; [exists m; exact H1|]. split; [exists ep; exact H2|].
    exists top; exact H3.
Qed.

(** 1. e4 from the initial position, made and undone *)
Lemma logs_grow_and_shrink_witness :
  exists m s1 s2,
    makeMove GameState_init m = Ok s1
    /\ undoMove s1 = Ok s2
    /\ moveLog s1 = Py.push m (moveLog GameState_init)
    /\ (exists l1 l2,
          castleRightsLog s1 =
          Py.push l2 (Py.push l1 (castleRightsLog GameState_init)))
    /\ (exists l, castleRightsLog s1 = Py.push l (castleRightsLog s2)).
Proof.
  destruct (Move_init (6, 4) (4, 4) initial_board false false) as [m|] eqn:Em;
    [|vm_compute in Em; discriminate].
  destruct (makeMove GameState_init m) as [s1|] eqn:E1;
    [|vm_compute in Em; injection Em as <-; vm_compute in E1; discriminate].
  destruct (undoMove s1) as [s2|] eqn:E2;
    [|vm_compute in Em; injection Em as <-; vm_compute in E1;
      injection E1 as <-; vm_compute in E2; discriminate].
  exists m, s1, s2.
  destruct logs_grow_and_shrink as (_ & Hmake & Hundo).
  destruct (Hmake GameState_init m s1 E1) as (L1 & _ & L3).
  assert (Hne : moveLog s1 <> []).
  { rewrite L1. discriminate. }
  destruct (Hundo s1 s2 Hne E2) as (_ & _ & U3).
  repeat split; assumption.
Defined.

(** ** The stored castling rights are written to *)

(** C4 (fails on the code): after 1. e4 e5 the valid moves include Ke2.
    [makeMove] of it leaves the live [currentCastlingRight] referring to an
    entry of [castleRightsLog], the one below the top: it is the object
    [updateCastleRights] created as a copy of the rights before the move
    (all four held) and appended, and the rights the move revokes have been
    written into it after it was appended.  [undoMove] pops one entry, finds
    that object on top and reads the revoked rights from it, so the rights
    that were current before the undone move are not restored. *)
Theorem castleRightsLog_entry_mutated :
  exists s ms m s1 s2,
    reachable (state_after game_open)
    /\ getValidMoves (state_after game_open) = Ok (s, ms)
    /\ In m ms
    /\ (startRow m, startCol m, endRow m, endCol m) = (7, 4, 6, 4)
    /\ makeMove s m = Ok s1
    /\ undoMove s1 = Ok s2
    /\ rights s = mkCastleRights true true true true
    /\ snd (copy_CastleRights s (currentCastlingRight s)) = currentCastlingRight s1
    /\ deref (fst (copy_CastleRights s (currentCastlingRight s)))
         (currentCastlingRight s1)
       = mkCastleRights true true true true
    /\ ~ In (currentCastlingRight s1) (castleRightsLog s)
    /\ (exists l, castleRightsLog s1
                  = Py.push l (Py.push (currentCastlingRight s1)
                                 (castleRightsLog s)))
    /\ deref s1 (currentCastlingRight s1) = mkCastleRights false true false true
    /\ castleRightsLog s2
       = Py.push (currentCastlingRight s1) (castleRightsLog s)
    /\ deref s2 (currentCastlingRight s1) = mkCastleRights false true false true
    /\ rights s2 = mkCastleRights false true false true
    /\ rights s2 <> rights s.
Proof.
  destruct (getValidMoves (state_after game_open)) as [[s ms]|] eqn:Hv;
    [|vm_compute in Hv; discriminate].
  destruct (find (fun x => moveID x =? 7464) ms) as [m|] eqn:Hf;
    [|vm_compute in Hv; injection Hv as <- <-; vm_compute in Hf; discriminate].
  destruct (makeMove s m) as [s1|] eqn:Hm;
    [|vm_compute in Hv; injection Hv as <- <-; vm_compute in Hf;
      injection Hf as <-; vm_compute in Hm; discriminate].
  destruct (undoMove s1) as [s2|] eqn:Hu;
    [|vm_compute in Hv; injection Hv as <- <-; vm_compute in Hf;
      injection Hf as <-; vm_compute in Hm; injection Hm as <-;
      vm_compute in Hu; discriminate].
  exists s, ms, m, s1, s2.
  split; [apply state_after_reachable, game_open_played|].
  split; [reflexivity|].
  split; [apply find_some in Hf; tauto|].
  vm_compute in Hv; injection Hv as <- <-; vm_compute in Hf;
    injection Hf as <-; vm_compute in Hm; injection Hm as <-;
    vm_compute in Hu; injection Hu as <-.
  split; [vm_compute; reflexivity|].
  split; [vm_compute; reflexivity|].
  split; [vm_compute; reflexivity|].
  split; [vm_compute; reflexivity|].
  split; [vm_compute; reflexivity|].
  split; [vm_compute; reflexivity|].
  split; [vm_compute; intuition discriminate|].
  split; [eexists; vm_compute; reflexivity|].
  split; [vm_compute; reflexivity|].
  split; [vm_compute; reflexivity|].
  split; [vm_compute; reflexivity|].
  split; [vm_compute; reflexivity|].
  vm_compute. discriminate.
Qed.


(** * Further properties *)

(** ** Boards of eight by eight cells *)

Lemma pos_lt i : indexable i -> (pos i < 8)%nat.
Proof. unfold indexable, pos. intros H. destruct (i <? 0) eqn:E; lia. Qed.

Lemma index_spec {A : Type} (l : list A) (i : Z) :
  length l = 8%nat ->
  (indexable i /\ exists x, Py.index l i = Ok x /\ l !! pos i = Some x)
  \/ (~ indexable i /\ Py.index l i = Raise IndexError).
Proof.
  intros Hlen. unfold Py.index, indexable, pos. rewrite Hlen.
  change (Z.of_nat 8) with 8.
  destruct ((0 <=? (if i <? 0 then i + 8 else i))
            && ((if i <? 0 then i + 8 else i) <? 8)) eqn:E.
  - left. apply andb_true_iff in E as [E1 E2].
    apply Z.leb_le in E1. apply Z.ltb_lt in E2.
    split; [destruct (i <? 0) eqn:E0; lia|].
    destruct (l !! Z.to_nat _) as [x|] eqn:Hx; [now exists x|].
    apply lookup_ge_None in Hx. destruct (i <? 0); lia.
  - right. split; [|reflexivity]. intros H.
    apply andb_false_iff in E as [E|E];
      [apply Z.leb_gt in E | apply Z.ltb_ge in E]; destruct (i <? 0) eqn:E0;
      try apply Z.ltb_lt in E0; try apply Z.ltb_ge in E0; lia.
Qed.

Lemma setitem_spec {A : Type} (l : list A) (i : Z) (x : A) :
  length l = 8%nat ->
  (indexable i /\ Py.setitem l i x = Ok (<[pos i := x]> l))
  \/ (~ indexable i /\ Py.setitem l i x = Raise IndexError).
Proof.
  intros Hlen. unfold Py.setitem, indexable, pos. rewrite Hlen.
  change (Z.of_nat 8) with 8.
  destruct ((0 <=? (if i <? 0 then i + 8 else i))
            && ((if i <? 0 then i + 8 else i) <? 8)) eqn:E.
  - left. apply andb_true_iff in E as [E1 E2].
    apply Z.leb_le in E1. apply Z.ltb_lt in E2.
    split; [destruct (i <? 0) eqn:E0; lia|reflexivity].
  - right. split; [|reflexivity]. intros H.
    apply andb_false_iff in E as [E|E];
      [apply Z.leb_gt in E | apply Z.ltb_ge in E]; destruct (i <? 0) eqn:E0;
      try apply Z.ltb_lt in E0; try apply Z.ltb_ge in E0; lia.
Qed.

Lemma wf_board_row b R row : wf_board b -> b !! R = Some row -> length row = 8%nat.
Proof.
  intros [_ Hrows] HR. rewrite List.Forall_forall in Hrows. apply Hrows.
  apply list_elem_of_In. eapply list_elem_of_lookup_2; eauto.
Qed.

Lemma board_get_spec b r c :
  wf_board b ->
  (indexable r /\ indexable c
   /\ exists p, board_get b r c = Ok p /\ bget b (pos r) (pos c) = Some p)
  \/ (~ (indexable r /\ indexable c) /\ board_get b r c = Raise IndexError).
Proof.
  intros Hwf. unfold board_get, bget, Board, Piece in *.
  destruct (index_spec b r (proj1 Hwf)) as [(Hr & row & -> & Hrow)|(Hr & ->)];
    [|right; split; [tauto|reflexivity]].
  cbn [bind]. rewrite Hrow.
  destruct (index_spec row c (wf_board_row b _ row Hwf Hrow))
    as [(Hc & p & -> & Hp)|(Hc & ->)].
  - left. eauto.
  - right. split; [tauto|reflexivity].
Qed.

Lemma bset_wf b R C p : wf_board b -> wf_board (bset b R C p).
Proof.
  intros Hwf. unfold bset. destruct (b !! R) as [row|] eqn:HR; [|exact Hwf].
  pose proof (wf_board_row b R row Hwf HR) as Hrow.
  destruct Hwf as [Hlen Hrows]. unfold wf_board, Board, Piece in *. split.
  - now rewrite length_insert.
  - apply Forall_insert; [exact Hrows|]. now rewrite length_insert.
Qed.

Lemma board_set_spec b r c p :
  wf_board b ->
  (indexable r /\ indexable c /\ board_set b r c p = Ok (bset b (pos r) (pos c) p))
  \/ (~ (indexable r /\ indexable c) /\ board_set b r c p = Raise IndexError).
Proof.
  intros Hwf. unfold board_set, bset, Board, Piece in *.
  destruct (index_spec b r (proj1 Hwf)) as [(Hr & row & -> & Hrow)|(Hr & ->)];
    [|right; split; [tauto|reflexivity]].
  cbn [bind]. rewrite Hrow.
  destruct (setitem_spec row c p (wf_board_row b _ row Hwf Hrow))
    as [(Hc & ->)|(Hc & ->)]; [|right; split; [tauto|reflexivity]].
  cbn [bind].
  destruct (setitem_spec b r (<[pos c := p]> row) (proj1 Hwf))
    as [(_ & ->)|(Hr' & _)]; [|tauto].
  left. auto.
Qed.

Lemma bget_bset b R C p R' C' :
  is_Some (bget b R C) ->
  bget (bset b R C p) R' C'
  = if decide (R' = R /\ C' = C) then Some p else bget b R' C'.
Proof.
  unfold bget, bset, Board, Piece in *. intros [q Hq].
  destruct (b !! R) as [row|] eqn:HR; [|discriminate].
  assert (HRlt : (R < length b)%nat) by (eapply lookup_lt_Some; eauto).
  assert (HClt : (C < length row)%nat) by (eapply lookup_lt_Some; eauto).
  destruct (decide (R' = R)) as [->|HneR].
  - rewrite list_lookup_insert_eq by exact HRlt.
    destruct (decide (C' = C)) as [->|HneC].
    + rewrite list_lookup_insert_eq by exact HClt.
      now rewrite decide_True by auto.
    + rewrite list_lookup_insert_ne by congruence.
      rewrite decide_False by (intros [_ ?]; congruence). now rewrite HR.
  - rewrite list_lookup_insert_ne by congruence.
    now rewrite decide_False by (intros [? _]; congruence).
Qed.

Lemma wf_board_bget b R C :
  wf_board b -> (R < 8)%nat -> (C < 8)%nat -> is_Some (bget b R C).
Proof.
  intros Hwf HR HC. unfold bget.
  destruct (b !! R) as [row|] eqn:E.
  - apply lookup_lt_is_Some. rewrite (wf_board_row b R row Hwf E). exact HC.
  - apply lookup_ge_None in E. destruct Hwf as [Hlen _]. lia.
Qed.

Lemma board_ext b1 b2 :
  wf_board b1 -> wf_board b2 ->
  (forall R C, bget b1 R C = bget b2 R C) -> b1 = b2.
Proof.
  intros Hwf1 Hwf2 Hget. unfold wf_board, bget, Board, Piece in *.
  apply list_eq. intros R.
  destruct (b1 !! R) as [row1|] eqn:E1, (b2 !! R) as [row2|] eqn:E2.
  - f_equal. apply list_eq. intros C. specialize (Hget R C).
    now rewrite E1, E2 in Hget.
  - apply lookup_lt_Some in E1. apply lookup_ge_None in E2.
    destruct Hwf1, Hwf2. lia.
  - apply lookup_ge_None in E1. apply lookup_lt_Some in E2.
    destruct Hwf1, Hwf2. lia.
  - reflexivity.
Qed.

Lemma wf_board_init : wf_board (board GameState_init).
Proof. split; [reflexivity | repeat constructor]. Qed.

(** ** Check and pin detection *)

Lemma on_board_indexable r c :
  on_board r c = true -> indexable r /\ indexable c.
Proof.
  unfold on_board, indexable. rewrite !andb_true_iff, !Z.leb_le. lia.
Qed.

Lemma board_get_on_board b r c :
  wf_board b -> on_board r c = true -> exists p, board_get b r c = Ok p.
Proof.
  intros Hwf Hon. apply on_board_indexable in Hon as [Hr Hc].
  destruct (board_get_spec b r c Hwf) as [(_ & _ & p & Hp & _)|[Hn _]];
    [eauto | tauto].
Qed.

Lemma for_each_total {A S : Type} (body : A -> S -> result S) (l : list A) :
  (forall x acc, In x l -> exists acc', body x acc = Ok acc') ->
  forall acc, exists out, for_each l acc body = Ok out.
Proof.
  induction l as [|x l IH]; intros Hbody acc; simpl.
  - eauto.
  - destruct (Hbody x acc (or_introl eq_refl)) as [acc' ->]. cbn [bind].
    apply IH. intros y acc0 Hy. apply Hbody. now right.
Qed.

Lemma pin_ray_total b ally enemy start_row start_col j direction steps :
  wf_board b ->
  forall possible_pin acc,
    exists acc', pin_ray b ally enemy start_row start_col j direction steps
                   possible_pin acc = Ok acc'.
Proof.
  intros Hwf. induction steps as [|i steps IH]; intros possible_pin acc; simpl.
  - eauto.
  - destruct (on_board _ _) eqn:Hon; [|eauto].
    destruct (board_get_on_board b _ _ Hwf Hon) as [p ->]. cbn [bind].
    destruct (_ && _).
    + destruct possible_pin; eauto.
    + destruct (Ascii.eqb (fst p) enemy); [|apply IH].
      destruct (attacks_along _ _ _ _); [|eauto].
      destruct acc as [[ic ps] cs]. destruct possible_pin; eauto.
Qed.

Lemma queen_directions_index j :
  In j (Py.range 0 (Z.of_nat (length queen_directions))) ->
  exists d, Py.index queen_directions j = Ok d.
Proof.
  cbn. intros H. repeat (destruct H as [<-|H]; [eexists; reflexivity|]).
  destruct H.
Qed.

(** X1: on a board of eight rows of eight cells [checkForPinsAndChecks]
    returns normally, wherever the cached king squares point on the board
    (the kings are cached as squares of the board by [__init__] and
    [makeMove]; here any cached square is allowed): none of its board reads
    raises [IndexError]. *)
Theorem checkForPinsAndChecks_total (s : GameState) :
  wf_board (board s) -> exists info, checkForPinsAndChecks s = Ok info.
Proof.
  intros Hwf. unfold checkForPinsAndChecks.
  destruct (if whiteToMove s then _ else _) as [[enemy ally] [start_row start_col]].
  edestruct (for_each_total
    (fun j acc =>
       direction <- Py.index queen_directions j ;;
       pin_ray (board s) ally enemy start_row start_col j direction
         (Py.range 1 8) None acc)) as [acc Hacc].
  { intros j acc0 Hj. destruct (queen_directions_index j Hj) as [d ->].
    cbn [bind]. apply pin_ray_total. exact Hwf. }
  rewrite Hacc. cbn [bind]. apply for_each_total.
  intros mv acc0 _. cbv zeta. destruct (on_board _ _) eqn:Hon; [|eauto].
  destruct (board_get_on_board (board s) _ _ Hwf Hon) as [p ->]. cbn [bind].
  destruct (_ && _); [|eauto]. destruct acc0 as [[ic ps] cs]. eauto.
Qed.

Lemma checkForPinsAndChecks_total_witness :
  wf_board (board GameState_init)
  /\ exists info, checkForPinsAndChecks GameState_init = Ok info.
Proof.
  assert (Hwf : wf_board (board GameState_init))
    by (split; [reflexivity | repeat constructor]).
  split; [exact Hwf | exact (checkForPinsAndChecks_total GameState_init Hwf)].
Defined.

Lemma scan_ok_check b ally enemy ic ps cs chk :
  scan_ok b ally enemy (ic, ps, cs) -> check_ok b enemy chk ->
  scan_ok b ally enemy (true, ps, cs ++ [chk]).
Proof.
  intros (_ & Hp & Hc) Hchk. split; [|split].
  - split; [intros _ | reflexivity]. intros Habs.
    apply app_eq_nil in Habs as [_ Habs]. discriminate.
  - exact Hp.
  - apply Forall_app. split; [exact Hc | now constructor].
Qed.

Lemma scan_ok_pin b ally enemy ic ps cs pin :
  scan_ok b ally enemy (ic, ps, cs) -> pin_ok b ally pin ->
  scan_ok b ally enemy (ic, ps ++ [pin], cs).
Proof.
  intros (Hi & Hp & Hc) Hpin. split; [exact Hi|]. split; [|exact Hc].
  apply Forall_app. split; [exact Hp | now constructor].
Qed.

Lemma pin_ray_scan_ok b ally enemy start_row start_col j direction steps :
  forall possible_pin acc acc',
    match possible_pin with Some pin => pin_ok b ally pin | None => True end ->
    scan_ok b ally enemy acc ->
    pin_ray b ally enemy start_row start_col j direction steps possible_pin acc
      = Ok acc' ->
    scan_ok b ally enemy acc'.
Proof.
  induction steps as [|i steps IH]; simpl; intros possible_pin acc acc' Hpp Hacc H.
  - now injection H as <-.
  - destruct (on_board _ _) eqn:Hon; [|now injection H as <-].
    bind_inv H. rename a into end_piece.
    destruct (Ascii.eqb (fst end_piece) ally && _) eqn:Hally.
    + destruct possible_pin as [pin|]; [now injection H as <-|].
      eapply IH; [|exact Hacc|exact H]. cbn.
      apply andb_true_iff in Hally as [H1 H2].
      apply Ascii.eqb_eq in H1. apply negb_true_iff, Ascii.eqb_neq in H2.
      split; [exact Hon|]. exists end_piece. auto.
    + destruct (Ascii.eqb (fst end_piece) enemy) eqn:Hen;
        [|eapply IH; eauto].
      destruct (attacks_along _ _ _ _); [|now injection H as <-].
      destruct acc as [[ic ps] cs]. apply Ascii.eqb_eq in Hen.
      destruct possible_pin as [pin|]; injection H as <-.
      * now apply scan_ok_pin.
      * eapply scan_ok_check; [exact Hacc|]. cbn. split; [exact Hon|].
        exists end_piece. auto.
Qed.

Lemma checkForPinsAndChecks_scan_ok s info :
  checkForPinsAndChecks s = Ok info ->
  scan_ok (board s) (side s) (opponent s) info.
Proof.
  unfold checkForPinsAndChecks, side, opponent. intros H.
  set (ally := if whiteToMove s then "w"%char else "b"%char).
  set (enemy := if whiteToMove s then "b"%char else "w"%char).
  assert (E : (if whiteToMove s
               then ("b"%char, "w"%char, whiteKingLocation s)
               else ("w"%char, "b"%char, blackKingLocation s))
              = (enemy, ally, if whiteToMove s then whiteKingLocation s
                              else blackKingLocation s))
    by (subst ally enemy; now destruct (whiteToMove s)).
  rewrite E in H. clear E.
  destruct (if whiteToMove s then whiteKingLocation s else blackKingLocation s)
    as [start_row start_col].
  bind_inv H.
  assert (Ha1 : scan_ok (board s) ally enemy a).
  { eapply (for_each_inv (scan_ok (board s) ally enemy)) in Ha; [exact Ha| |].
    - intros j acc acc' Hacc Hb. bind_inv Hb.
      eapply pin_ray_scan_ok; [| exact Hacc | exact Hb]. exact I.
    - cbn. split; [|split]; [split; [discriminate | congruence] | constructor..]. }
  eapply (for_each_inv (scan_ok (board s) ally enemy)) in H; [exact H| |exact Ha1].
  intros mv acc acc' Hacc Hb. cbv zeta in Hb.
  destruct (on_board _ _) eqn:Hon; [|now injection Hb as <-].
  bind_inv Hb. destruct (_ && _) eqn:Hk; [|now injection Hb as <-].
  destruct acc as [[ic ps] cs]. injection Hb as <-.
  apply andb_true_iff in Hk as [H1 _]. apply Ascii.eqb_eq in H1.
  eapply scan_ok_check; [exact Hacc|]. cbn. split; [exact Hon|]. eauto.
Qed.

(** X2: what [checkForPinsAndChecks] returns is consistent: [inCheck] is
    true exactly when the list of checks is not empty; every reported pin
    names a square on the board that holds a piece of the side to move other
    than its king; every reported check names a square on the board that
    holds a piece of the opponent. *)
Theorem checkForPinsAndChecks_report s in_check pins checks :
  checkForPinsAndChecks s = Ok (in_check, pins, checks) ->
  (in_check = true <-> checks <> [])
  /\ Forall (pin_ok (board s) (side s)) pins
  /\ Forall (check_ok (board s) (opponent s)) checks.
Proof. intros H. exact (checkForPinsAndChecks_scan_ok s _ H). Qed.

Lemma checkForPinsAndChecks_report_witness :
  exists in_check pins checks,
    checkForPinsAndChecks (state_after game_pin) = Ok (in_check, pins, checks)
    /\ (in_check = true <-> checks <> [])
    /\ Forall (pin_ok (board (state_after game_pin)) (side (state_after game_pin))) pins
    /\ Forall (check_ok (board (state_after game_pin))
                 (opponent (state_after game_pin))) checks.
Proof.
  destruct (checkForPinsAndChecks (state_after game_pin)) as [[[ic ps] cs]|] eqn:E;
    [|vm_compute in E; discriminate].
  exists ic, ps, cs. split; [reflexivity|].
  exact (checkForPinsAndChecks_report _ _ _ _ E).
Defined.

(** ** The shape of the board is kept *)

Lemma put_spec s r c p :
  wf_board (board s) ->
  (indexable r /\ indexable c
   /\ put s r c p = Ok (set_board s (bset (board s) (pos r) (pos c) p)))
  \/ (~ (indexable r /\ indexable c) /\ put s r c p = Raise IndexError).
Proof.
  intros Hwf. unfold put.
  destruct (board_set_spec (board s) r c p Hwf) as [(Hr & Hc & ->)|(Hn & ->)];
    [left | right]; auto.
Qed.

Lemma put_wf s r c p s' :
  wf_board (board s) -> put s r c p = Ok s' -> wf_board (board s').
Proof.
  intros Hwf H. destruct (put_spec s r c p Hwf) as [(_ & _ & E)|(_ & E)];
    rewrite E in H; [|discriminate].
  injection H as <-. cbn. now apply bset_wf.
Qed.

Lemma captureEnPassant_wf s m s' :
  wf_board (board s) -> captureEnPassant s m = Ok s' -> wf_board (board s').
Proof.
  unfold captureEnPassant. intros Hwf. destruct (isEnpassantMove m).
  - now apply put_wf.
  - now intros [= <-].
Qed.

Lemma promotePawn_wf s m s' :
  wf_board (board s) -> promotePawn s m = Ok s' -> wf_board (board s').
Proof.
  unfold promotePawn. intros Hwf. destruct (isPawnPromotion m).
  - now apply put_wf.
  - now intros [= <-].
Qed.

Lemma castleRook_wf s m s' :
  wf_board (board s) -> castleRook s m = Ok s' -> wf_board (board s').
Proof.
  unfold castleRook. intros Hwf. destruct (isCastleMove m).
  - destruct (_ =? 2); intros H; bind_inv H; bind_inv H;
      apply (put_wf _ _ _ _ _ Hwf) in Ha0; exact (put_wf _ _ _ _ _ Ha0 H).
  - now intros [= <-].
Qed.

Lemma undoEnPassant_wf s m s' :
  wf_board (board s) -> undoEnPassant s m = Ok s' -> wf_board (board s').
Proof.
  unfold undoEnPassant. intros Hwf. destruct (isEnpassantMove m).
  - intros H; bind_inv H. apply (put_wf _ _ _ _ _ Hwf) in Ha.
    exact (put_wf _ _ _ _ _ Ha H).
  - now intros [= <-].
Qed.

Lemma undoCastleRook_wf s m s' :
  wf_board (board s) -> undoCastleRook s m = Ok s' -> wf_board (board s').
Proof.
  unfold undoCastleRook. intros Hwf. destruct (isCastleMove m).
  - destruct (_ =? 2); intros H; bind_inv H; bind_inv H;
      apply (put_wf _ _ _ _ _ Hwf) in Ha0; exact (put_wf _ _ _ _ _ Ha0 H).
  - now intros [= <-].
Qed.

Lemma board_updateKingLocation s m sq :
  board (updateKingLocation s m sq) = board s.
Proof. unfold updateKingLocation. repeat case_match; reflexivity. Qed.

Lemma board_updateEnPassant s m : board (updateEnPassant s m) = board s.
Proof. unfold updateEnPassant. case_match; reflexivity. Qed.

(** *** [updateCastleRights] only writes the store of castling rights *)

Lemma store_updated_refl s : store_updated s s.
Proof. unfold store_updated. now destruct s. Qed.

Lemma store_updated_store s0 s l f :
  store_updated s0 s -> store_updated s0 (store s l f).
Proof.
  unfold store_updated, store. intros E. destruct s0, s. cbn in *.
  injection E as -> -> -> -> -> -> -> -> -> -> -> ->. reflexivity.
Qed.

Lemma updateCastleRights_store_updated s m s' :
  updateCastleRights s m = Ok s' -> store_updated s s'.
Proof.
  unfold updateCastleRights, copy_CastleRights, new_CastleRights.
  cbn [castleRightsLog set_castleRightsLog set_heap Py.push Py.top bind].
  set (s0 := set_currentCastlingRight _ _).
  assert (R0 : store_updated s s0) by (subst s0; unfold store_updated; now destruct s).
  intros [= <-]. cbv zeta.
  repeat case_match; repeat apply store_updated_store; exact R0.
Qed.

Lemma updateCastleRights_total s m : exists s', updateCastleRights s m = Ok s'.
Proof.
  unfold updateCastleRights, copy_CastleRights, new_CastleRights.
  cbn [castleRightsLog set_castleRightsLog set_heap Py.push Py.top bind].
  eexists. reflexivity.
Qed.

Lemma makeMove_wf_board s m s' :
  wf_board (board s) -> makeMove s m = Ok s' -> wf_board (board s').
Proof.
  intros Hwf H. unfold makeMove in H.
  bind_inv H. apply (put_wf _ _ _ _ _ Hwf) in Ha.
  bind_inv H. apply (put_wf _ _ _ _ _ Ha) in Ha0.
  cbv zeta in H.
  bind_inv H. apply captureEnPassant_wf in Ha1;
    [|now rewrite board_updateEnPassant, board_updateKingLocation].
  bind_inv H. apply (promotePawn_wf _ _ _ Ha1) in Ha2.
  bind_inv H. apply (castleRook_wf _ _ _ Ha2) in Ha3.
  bind_inv H. apply updateCastleRights_store_updated in Ha4.
  unfold copy_CastleRights, new_CastleRights in H. injection H as <-.
  cbn. rewrite Ha4. exact Ha3.
Qed.

Lemma undoMove_wf_board s s' :
  wf_board (board s) -> undoMove s = Ok s' -> wf_board (board s').
Proof.
  intros Hwf. unfold undoMove. destruct (negb _); [|now intros [= <-]].
  intros H. bind_inv H. destruct a as [ml m]. cbn [fst snd] in H.
  unfold undoPopped in H.
  bind_inv H. apply put_wf in Ha0; [|exact Hwf].
  bind_inv H. apply (put_wf _ _ _ _ _ Ha0) in Ha1.
  cbv zeta in H.
  bind_inv H. apply undoEnPassant_wf in Ha2;
    [|now rewrite board_updateKingLocation].
  bind_inv H. bind_inv H. bind_inv H. bind_inv H.
  unfold copy_CastleRights, new_CastleRights in H. cbn in H.
  bind_inv H. apply undoCastleRook_wf in Ha7; [|exact Ha2].
  injection H as <-. exact Ha7.
Qed.

(** X3: in every state reached from the initial one by [getValidMoves],
    [makeMove] of returned moves and [undoMove], the board has eight rows of
    eight cells. *)
Theorem reachable_wf_board s : reachable s -> wf_board (board s).
Proof.
  induction 1 as [|s0 s ms _ IH Hv|s0 s ms m s' _ IH Hv _ Hm|s s' _ IH Hu].
  - split; [reflexivity | repeat constructor].
  - apply getValidMoves_journal in Hv as (Hb & _). now rewrite Hb.
  - apply getValidMoves_journal in Hv as (Hb & _).
    eapply makeMove_wf_board; [|exact Hm]. now rewrite Hb.
  - eapply undoMove_wf_board; eauto.
Qed.

Lemma reachable_wf_board_witness :
  reachable (state_after game_open) /\ wf_board (board (state_after game_open)).
Proof.
  split; [apply state_after_reachable, game_open_played|].
  apply (reachable_wf_board (state_after game_open)), state_after_reachable,
    game_open_played.
Defined.

(** *** [makeMove] returns on every move built on the board *)

Lemma Move_init_spec a b brd ep ca m :
  Move_init a b brd ep ca = Ok m ->
  board_get brd (fst a) (snd a) = Ok (pieceMoved m)
  /\ (exists target, board_get brd (fst b) (snd b) = Ok target
        /\ pieceCaptured m
           = if ep then (if Piece_eqb (pieceMoved m) (pc "b" "p")
                         then pc "w" "p" else pc "b" "p")
             else target)
  /\ isPawnPromotion m
     = (Piece_eqb (pieceMoved m) (pc "w" "p") && (fst b =? 0))
       || (Piece_eqb (pieceMoved m) (pc "b" "p") && (fst b =? 7)).
Proof.
  unfold Move_init. intros H. bind_inv H. bind_inv H. injection H as <-.
  cbn. eauto.
Qed.

Lemma makeMove_total s a b ep m :
  wf_board (board s) -> Move_init a b (board s) ep false = Ok m ->
  exists s', makeMove s m = Ok s'.
Proof.
  intros Hwf Hm.
  pose proof (Move_init_fields _ _ _ _ _ _ Hm) as (F1 & F2 & F3 & F4 & _ & F6 & _).
  apply Move_init_spec in Hm as (Hstart & (target & Hend & _) & _).
  assert (Hs : indexable (startRow m) /\ indexable (startCol m)).
  { destruct (board_get_spec (board s) (fst a) (snd a) Hwf)
      as [(? & ? & _)|(_ & E)]; [rewrite F1, F2; tauto | congruence]. }
  assert (He : indexable (endRow m) /\ indexable (endCol m)).
  { destruct (board_get_spec (board s) (fst b) (snd b) Hwf)
      as [(? & ? & _)|(_ & E)]; [rewrite F3, F4; tauto | congruence]. }
  unfold makeMove.
  destruct (put_spec s (startRow m) (startCol m) EMPTY Hwf)
    as [(_ & _ & ->)|(Hn & _)]; [|tauto]. cbn [bind].
  set (s1 := set_board s _).
  assert (Hwf1 : wf_board (board s1)) by (subst s1; cbn; now apply bset_wf).
  destruct (put_spec s1 (endRow m) (endCol m) (pieceMoved m) Hwf1)
    as [(_ & _ & ->)|(Hn & _)]; [|tauto]. cbn [bind].
  set (s2 := updateEnPassant _ _).
  assert (Hwf2 : wf_board (board s2)).
  { subst s2. rewrite board_updateEnPassant, board_updateKingLocation.
    cbn. now apply bset_wf. }
  assert (H3 : exists s3, captureEnPassant s2 m = Ok s3 /\ wf_board (board s3)).
  { unfold captureEnPassant. destruct (isEnpassantMove m); [|eauto].
    destruct (put_spec s2 (startRow m) (endCol m) EMPTY Hwf2)
      as [(_ & _ & E)|(Hn & _)]; [|tauto].
    rewrite E. eexists. split; [reflexivity|]. cbn. now apply bset_wf. }
  destruct H3 as (s3 & -> & Hwf3). cbn [bind].
  assert (H4 : exists s4, promotePawn s3 m = Ok s4 /\ wf_board (board s4)).
  { unfold promotePawn. destruct (isPawnPromotion m); [|eauto].
    destruct (put_spec s3 (endRow m) (endCol m) (pc (fst (pieceMoved m)) "Q") Hwf3)
      as [(_ & _ & E)|(Hn & _)]; [|tauto].
    rewrite E. eexists. split; [reflexivity|]. cbn. now apply bset_wf. }
  destruct H4 as (s4 & -> & Hwf4). cbn [bind].
  unfold castleRook. rewrite F6. cbn [bind].
  destruct (updateCastleRights_total
              (set_enPassantPossibleLog s4
                 (Py.push (enPassantPossible s4) (enPassantPossibleLog s4))) m)
    as [s5 ->].
  cbn [bind]. unfold copy_CastleRights, new_CastleRights. eauto.
Qed.

(** ** Where generated moves come from *)

Lemma Piece_eqb_eq p q : Piece_eqb p q = true <-> p = q.
Proof.
  unfold Piece_eqb. destruct p as [p1 p2], q as [q1 q2]. cbn.
  rewrite andb_true_iff, !Ascii.eqb_eq. split; [intros [-> ->] | intros [= -> ->]]; auto.
Qed.

Lemma side_not_dash s : "-"%char <> side s.
Proof. unfold side. destruct (whiteToMove s); discriminate. Qed.

Lemma opponent_not_side s : opponent s <> side s.
Proof. unfold side, opponent. destruct (whiteToMove s); discriminate. Qed.

Lemma Forall_snoc {A : Type} (P : A -> Prop) (l : list A) (x : A) :
  Forall P l -> P x -> Forall P (l ++ [x]).
Proof. intros Hl Hx. apply Forall_app. split; [exact Hl | now constructor]. Qed.

Lemma Forall_sublist_of {A : Type} (P : A -> Prop) (l1 l2 : list A) :
  sublist l1 l2 -> Forall P l2 -> Forall P l1.
Proof.
  induction 1 as [|x l1 l2 _ IH|x l1 l2 _ IH]; intros HF.
  - constructor.
  - inversion HF; subst. constructor; auto.
  - inversion HF; subst. auto.
Qed.

Section Generators.

Variable s : GameState.
Variables r c : Z.
Variable R : Move -> Prop.

Lemma slide_generated d steps : forall moves moves',
  (forall m, plain_ok s r c m -> R m) ->
  Forall R moves ->
  slide (board s) (opponent s) r c d steps moves = Ok moves' ->
  Forall R moves'.
Proof.
  induction steps as [|i steps IH]; simpl; intros moves moves' HR HP H.
  - now injection H as <-.
  - destruct (in_bounds _ _); [|now injection H as <-].
    bind_inv H. rename a into endPiece. rename Ha into Hget.
    destruct (Piece_eqb endPiece EMPTY) eqn:He.
    + bind_inv H. eapply IH; [exact HR| |exact H].
      apply Forall_snoc; [exact HP|]. apply HR.
      eexists (_, _), endPiece. split; [exact Ha|]. split; [exact Hget|].
      apply Piece_eqb_eq in He. subst endPiece. apply side_not_dash.
    + destruct (Ascii.eqb _ _) eqn:Hc; [|now injection H as <-].
      bind_inv H. injection H as <-.
      apply Forall_snoc; [exact HP|]. apply HR.
      eexists (_, _), endPiece. split; [exact Ha|]. split; [exact Hget|].
      apply Ascii.eqb_eq in Hc. rewrite Hc. apply opponent_not_side.
Qed.

Lemma slide_all_generated directions moves moves' :
  (forall m, plain_ok s r c m -> R m) ->
  Forall R moves ->
  slide_all s directions r c moves = Ok moves' ->
  Forall R moves'.
Proof.
  unfold slide_all. intros HR HP H.
  eapply (for_each_inv (Forall R)) in H; [exact H | | exact HP].
  intros d acc acc' Hacc Hb. eapply slide_generated; eauto.
Qed.

Lemma jump_all_generated offsets moves moves' :
  (forall m, plain_ok s r c m -> R m) ->
  Forall R moves ->
  jump_all s offsets r c moves = Ok moves' ->
  Forall R moves'.
Proof.
  unfold jump_all. intros HR HP H.
  eapply (for_each_inv (Forall R)) in H; [exact H | | exact HP].
  intros d acc acc' Hacc Hb. cbv zeta in Hb.
  destruct (in_bounds _ _); [|now injection Hb as <-].
  bind_inv Hb. destruct (negb _) eqn:Hc; [|now injection Hb as <-].
  bind_inv Hb. injection Hb as <-.
  apply Forall_snoc; [exact Hacc|]. apply HR.
  eexists (_, _), a. split; [exact Ha0|]. split; [exact Ha|].
  apply negb_true_iff, Ascii.eqb_neq in Hc. exact Hc.
Qed.

Lemma getQueenMoves_generated moves moves' :
  (forall m, plain_ok s r c m -> R m) ->
  Forall R moves ->
  getQueenMoves s r c moves = Ok moves' ->
  Forall R moves'.
Proof.
  unfold getQueenMoves, getRookMoves, getBishopMoves. intros HR HP H.
  bind_inv H.
  eapply slide_all_generated; [exact HR| |exact H].
  eapply slide_all_generated; eauto.
Qed.

Lemma pawnCapture_generated moveAmount dc kingRow kingCol piecePinned
    pinDirection rl rr moves moves' :
  (forall m, plain_ok s r c m \/ ep_ok s r c m -> R m) ->
  Forall R moves ->
  pawnCapture s r c moveAmount dc (opponent s) kingRow kingCol piecePinned
    pinDirection rl rr moves = Ok moves' ->
  Forall R moves'.
Proof.
  unfold pawnCapture. intros HR HP H.
  destruct (_ || _); [|now injection H as <-].
  bind_inv H. rename a into target. bind_inv H.
  assert (HP0 : Forall R a).
  { destruct (Ascii.eqb _ _) eqn:Hc; [|now injection Ha0 as <-].
    bind_inv Ha0. injection Ha0 as <-.
    apply Forall_snoc; [exact HP|]. apply HR. left.
    eexists (_, _), target. split; [exact Ha1|]. split; [exact Ha|].
    apply Ascii.eqb_eq in Hc. rewrite Hc. apply opponent_not_side. }
  destruct (is_enPassantPossible _ _) eqn:Hep; [|now injection H as <-].
  bind_inv H. destruct a0 as [attackingPiece blockingPiece].
  destruct (_ || _); [|now injection H as <-].
  bind_inv H. injection H as <-.
  apply Forall_snoc; [exact HP0|]. apply HR. right.
  eexists (_, _). split; [exact Ha2 | exact Hep].
Qed.

End Generators.

Lemma plain_ok_set_pins s ps r c m :
  plain_ok (set_pins s ps) r c m -> plain_ok s r c m.
Proof. exact (fun H => H). Qed.

Lemma ep_ok_set_pins s ps r c m :
  ep_ok (set_pins s ps) r c m -> ep_ok s r c m.
Proof. exact (fun H => H). Qed.

Lemma getPawnMoves_generated s r c (R : Move -> Prop) moves s' moves' :
  (forall m, plain_ok s r c m \/ ep_ok s r c m -> R m) ->
  Forall R moves ->
  getPawnMoves s r c moves = Ok (s', moves') ->
  Forall R moves'.
Proof.
  unfold getPawnMoves. intros HR HP H. bind_inv H.
  destruct a as [[piecePinned pinDirection] ps]. cbv zeta in H.
  assert (HR' : forall m, plain_ok (set_pins s ps) r c m
                          \/ ep_ok (set_pins s ps) r c m -> R m)
    by exact HR.
  assert (E : (if whiteToMove (set_pins s ps)
               then (-1, 6, "b"%char, whiteKingLocation (set_pins s ps))
               else (1, 1, "w"%char, blackKingLocation (set_pins s ps)))
              = ((if whiteToMove s then -1 else 1),
                 (if whiteToMove s then 6 else 1),
                 opponent (set_pins s ps),
                 (if whiteToMove s then whiteKingLocation s
                  else blackKingLocation s)))
    by (unfold opponent; cbn; now destruct (whiteToMove s)).
  rewrite E in H. clear E.
  set (moveAmount := if whiteToMove s then -1 else 1) in *.
  set (startRow := if whiteToMove s then 6 else 1) in *.
  destruct (if whiteToMove s then whiteKingLocation s else blackKingLocation s)
    as [kingRow kingCol].
  bind_inv H. rename a into ahead. bind_inv H.
  assert (HP1 : Forall R a).
  { destruct (Piece_eqb ahead EMPTY) eqn:He; [|now injection Ha1 as <-].
    apply Piece_eqb_eq in He. subst ahead.
    destruct (_ || _); [|now injection Ha1 as <-].
    bind_inv Ha1.
    assert (Forall R (moves ++ [a0])).
    { apply Forall_snoc; [exact HP|]. apply HR'. left.
      eexists (_, _), EMPTY. split; [exact Ha2|]. split; [exact Ha0|].
      apply side_not_dash. }
    destruct (r =? startRow); [|now injection Ha1 as <-].
    bind_inv Ha1. destruct (Piece_eqb a1 EMPTY) eqn:He2; [|now injection Ha1 as <-].
    apply Piece_eqb_eq in He2. subst a1.
    bind_inv Ha1. injection Ha1 as <-.
    apply Forall_snoc; [assumption|]. apply HR'. left.
    eexists (_, _), EMPTY. split; [exact Ha4|]. split; [exact Ha3|].
    apply side_not_dash. }
  bind_inv H.
  assert (HP2 : Forall R a0).
  { destruct (0 <=? c - 1); [|now injection Ha2 as <-].
    eapply pawnCapture_generated; [exact HR' | exact HP1 | exact Ha2]. }
  bind_inv H.
  assert (HP3 : Forall R a1).
  { destruct (c + 1 <=? 7); [|now injection Ha3 as <-].
    eapply pawnCapture_generated; [exact HR' | exact HP2 | exact Ha3]. }
  now injection H as _ <-.
Qed.

Lemma generated_pins_removed s s1 m :
  pins_removed s s1 -> generated s1 m -> generated s m.
Proof. intros [E _]. rewrite E. exact (fun H => H). Qed.

Lemma moveFunctions_generated s r c cell gen :
  board_get (board s) r c = Ok cell -> fst cell = side s ->
  moveFunctions (snd cell) = Ok gen ->
  forall moves s' moves',
    Forall (generated s) moves -> gen s r c moves = Ok (s', moves') ->
    Forall (generated s) moves'.
Proof.
  intros Hcell Hside. unfold moveFunctions.
  destruct (Ascii.eqb (snd cell) "p") eqn:Hp.
  - intros [= <-] moves s' moves' HP Hgen. apply Ascii.eqb_eq in Hp.
    eapply getPawnMoves_generated; [|exact HP|exact Hgen].
    intros m [Hm|Hm]; exists r, c, cell; auto.
  - assert (HR : forall m, plain_ok s r c m -> generated s m)
      by (intros m Hm; exists r, c, cell; auto).
    repeat case_match; intros Hg; try discriminate; injection Hg as <-;
      intros moves s' moves' HP Hgen;
      unfold pure_generator in Hgen; bind_inv Hgen; injection Hgen as _ <-.
    + eapply slide_all_generated; eauto.
    + eapply jump_all_generated; eauto.
    + eapply slide_all_generated; eauto.
    + eapply getQueenMoves_generated; eauto.
    + eapply jump_all_generated; eauto.
Qed.

Lemma getAllPossibleMoves_generated s s' moves :
  getAllPossibleMoves s = Ok (s', moves) -> Forall (generated s) moves.
Proof.
  unfold getAllPossibleMoves. intros H.
  eapply (for_each_inv
            (fun acc => pins_removed s (fst acc) /\ Forall (generated s) (snd acc)))
    in H; [exact (proj2 H) | | split; [apply pins_removed_refl | constructor]].
  intros r acc acc' HP Hrow. apply bind_Ok in Hrow as (row & _ & Hrow).
  eapply (for_each_inv
            (fun acc => pins_removed s (fst acc) /\ Forall (generated s) (snd acc)))
    in Hrow; [exact Hrow | | exact HP].
  intros c [s1 moves1] [s2 moves2] [Hfr HP1] Hv. cbn [fst snd] in *.
  pose proof (visit_square_frame s r c (s1, moves1) (s2, moves2) Hfr Hv) as Hfr2.
  split; [exact Hfr2|].
  unfold visit_square in Hv. apply bind_Ok in Hv as (cell & Hcell & Hv).
  destruct (_ || _) eqn:Hturn; [|now injection Hv as _ <-].
  apply bind_Ok in Hv as (cell' & Hcell' & Hv).
  apply bind_Ok in Hv as (gen & Hgen & Hv).
  assert (cell' = cell) by congruence. subst cell'.
  assert (Hside : fst cell = side s1).
  { unfold side. apply orb_true_iff in Hturn as [Ht|Ht];
      apply andb_true_iff in Ht as [Ht1 Ht2]; apply Ascii.eqb_eq in Ht1;
      [rewrite Ht2 | apply negb_true_iff in Ht2; rewrite Ht2]; exact Ht1. }
  assert (HP1' : Forall (generated s1) moves1).
  { eapply Forall_impl; [exact HP1|]. intros m Hm.
    destruct Hfr as [E _]. rewrite E. exact Hm. }
  eapply Forall_impl;
    [exact (moveFunctions_generated s1 r c cell gen Hcell Hside Hgen
              moves1 s2 moves2 HP1' Hv)|].
  intros m Hm. exact (generated_pins_removed s s1 m Hfr Hm).
Qed.

(** ** What the generated moves are *)

Lemma Square_eqb_eq a b : Square_eqb a b = true <-> a = b.
Proof.
  unfold Square_eqb. destruct a as [a1 a2], b as [b1 b2]. cbn.
  rewrite andb_true_iff, !Z.eqb_eq. split; [intros [-> ->] | intros [= -> ->]]; auto.
Qed.

Lemma plain_ok_fields s r c m :
  plain_ok s r c m ->
  built_on s m
  /\ board_get (board s) r c = Ok (pieceMoved m)
  /\ (startRow m, startCol m) = (r, c)
  /\ fst (pieceCaptured m) <> side s
  /\ isCastleMove m = false /\ isEnpassantMove m = false.
Proof.
  intros (dst & target & Hm & Ht & Hne).
  pose proof (Move_init_fields _ _ _ _ _ _ Hm) as (F1 & F2 & _ & _ & F5 & F6 & _).
  pose proof (Move_init_spec _ _ _ _ _ _ Hm) as (Hs & (t & Ht' & Hcap) & _).
  split; [now exists (r, c), dst, false|]. split; [exact Hs|].
  split; [cbn in F1, F2; congruence|].
  split; [rewrite Hcap; congruence|]. auto.
Qed.

Lemma ep_ok_fields s r c m :
  ep_ok s r c m ->
  built_on s m
  /\ board_get (board s) r c = Ok (pieceMoved m)
  /\ pieceCaptured m = (if Piece_eqb (pieceMoved m) (pc "b" "p")
                        then pc "w" "p" else pc "b" "p")
  /\ isCastleMove m = false /\ isEnpassantMove m = true
  /\ enPassantPossible s = Some (endRow m, endCol m).
Proof.
  intros (dst & Hm & Hep).
  pose proof (Move_init_fields _ _ _ _ _ _ Hm) as (_ & _ & F3 & F4 & F5 & F6 & _).
  pose proof (Move_init_spec _ _ _ _ _ _ Hm) as (Hs & (t & _ & Hcap) & _).
  split; [now exists (r, c), dst, true|]. split; [exact Hs|].
  split; [exact Hcap|]. split; [exact F6|]. split; [exact F5|].
  unfold is_enPassantPossible in Hep.
  destruct (enPassantPossible s) as [sq|]; [|discriminate].
  apply Square_eqb_eq in Hep. subst sq. rewrite F3, F4. now destruct dst.
Qed.



Lemma generated_built s m :
  generated s m -> built_on s m /\ fst (pieceCaptured m) <> side s.
Proof.
  intros (r & c & cell & Hcell & Hside & [Hm|[Hp Hm]]).
  - apply plain_ok_fields in Hm. tauto.
  - apply ep_ok_fields in Hm as (Hb & Hpm & Hcap & _).
    split; [exact Hb|].
    assert (pieceMoved m = cell) by congruence. subst cell.
    rewrite Hcap. destruct (pieceMoved m) as [col kind]. cbn in *. subst kind.
    unfold side in *. destruct (whiteToMove s); subst col; cbn; discriminate.
Qed.

Lemma getValidMoves_built s s' moves :
  getValidMoves s = Ok (s', moves) ->
  Forall (fun m => built_on s m /\ fst (pieceCaptured m) <> side s) moves.
Proof.
  unfold getValidMoves. intros H.
  apply bind_Ok in H as ([[ic ps] cs] & _ & H). cbv zeta in H.
  set (s0 := set_check_info s ic ps cs) in *.
  destruct (if whiteToMove s0 then _ else _) as [kingRow kingCol].
  apply bind_Ok in H as ([s1 moves1] & Hbr & H).
  assert (F : Forall (fun m => built_on s0 m
                               /\ fst (pieceCaptured m) <> side s0) moves1).
  { destruct (inCheck s0).
    - destruct (_ =? 1).
      + apply bind_Ok in Hbr as ([s2 moves2] & Hall & Hbr).
        apply getAllPossibleMoves_generated in Hall.
        apply bind_Ok in Hbr as ([[[checkRow checkCol] d0] d1] & _ & Hbr).
        apply bind_Ok in Hbr as (pieceChecking & _ & Hbr).
        apply bind_Ok in Hbr as (moves3 & Hfilter & Hbr).
        injection Hbr as _ <-. apply filter_check_sublist in Hfilter.
        eapply Forall_sublist_of; [exact Hfilter|].
        eapply Forall_impl; [exact Hall|]. apply generated_built.
      + apply bind_Ok in Hbr as (moves2 & Hking & Hbr). injection Hbr as _ <-.
        eapply jump_all_generated; [| |exact Hking]; [|constructor].
        intros m Hm. apply plain_ok_fields in Hm. tauto.
    - apply getAllPossibleMoves_generated in Hbr.
      eapply Forall_impl; [exact Hbr|]. apply generated_built. }
  assert (moves = moves1) by (repeat case_match; now injection H as _ <-).
  subst moves1. exact F.
Qed.



(** X6: on a board of eight rows of eight cells, [makeMove] returns
    normally on every move [getValidMoves] has returned, in the state
    [getValidMoves] has left. *)
Theorem makeMove_valid_move s s' moves m :
  wf_board (board s) ->
  getValidMoves s = Ok (s', moves) -> In m moves ->
  exists s'', makeMove s' m = Ok s''.
Proof.
  intros Hwf Hv Hin.
  pose proof (getValidMoves_built s s' moves Hv) as HF.
  rewrite List.Forall_forall in HF. destruct (HF m Hin) as [(a & b & ep & Hm) _].
  apply getValidMoves_journal in Hv as (Hb & _).
  apply (makeMove_total s' a b ep m); now rewrite Hb.
Qed.

Lemma makeMove_valid_move_witness :
  exists s' m moves s'',
    wf_board (board GameState_init)
    /\ getValidMoves GameState_init = Ok (s', m :: moves)
    /\ makeMove s' m = Ok s''.
Proof.
  destruct (getValidMoves GameState_init) as [[s' [|m ms]]|] eqn:E;
    [vm_compute in E; discriminate| |vm_compute in E; discriminate].
  destruct (makeMove_valid_move GameState_init s' (m :: ms) m wf_board_init E
              (or_introl eq_refl)) as [s'' H].
  exists s', m, ms, s''. split; [exact wf_board_init|]. split; [reflexivity | exact H].
Defined.

(** ** [makeMove] and [undoMove], field by field *)

Lemma updateKingLocation_eq s m sq :
  updateKingLocation s m sq
  = set_blackKingLocation
      (set_whiteKingLocation s
         (if Piece_eqb (pieceMoved m) (pc "w" "K") then sq
          else whiteKingLocation s))
      (if Piece_eqb (pieceMoved m) (pc "w" "K") then blackKingLocation s
       else if Piece_eqb (pieceMoved m) (pc "b" "K") then sq
       else blackKingLocation s).
Proof. unfold updateKingLocation. destruct s. repeat case_match; reflexivity. Qed.

Lemma updateEnPassant_eq s m :
  updateEnPassant s m = set_enPassantPossible s (target_after m).
Proof. unfold updateEnPassant, target_after. case_match; reflexivity. Qed.

Lemma set_board_id s : set_board s (board s) = s.
Proof. now destruct s. Qed.

Lemma built_indexable s a b ep ca m :
  wf_board (board s) -> Move_init a b (board s) ep ca = Ok m ->
  indexable (startRow m) /\ indexable (startCol m)
  /\ indexable (endRow m) /\ indexable (endCol m).
Proof.
  intros Hwf Hm.
  pose proof (Move_init_fields _ _ _ _ _ _ Hm) as (F1 & F2 & F3 & F4 & _).
  apply Move_init_spec in Hm as (Hstart & (target & Hend & _) & _).
  destruct (board_get_spec (board s) (fst a) (snd a) Hwf)
    as [(? & ? & _)|(_ & E)]; [|congruence].
  destruct (board_get_spec (board s) (fst b) (snd b) Hwf)
    as [(? & ? & _)|(_ & E)]; [|congruence].
  rewrite F1, F2, F3, F4. tauto.
Qed.

Lemma made_board_wf b m : wf_board b -> wf_board (made_board b m).
Proof.
  intros Hwf. unfold made_board. cbv zeta.
  repeat case_match; repeat apply bset_wf; exact Hwf.
Qed.

Lemma unmade_board_wf b m : wf_board b -> wf_board (unmade_board b m).
Proof.
  intros Hwf. unfold unmade_board. cbv zeta.
  repeat case_match; repeat apply bset_wf; exact Hwf.
Qed.

Lemma put_ok s r c p :
  wf_board (board s) -> indexable r -> indexable c ->
  put s r c p = Ok (set_board s (bset (board s) (pos r) (pos c) p)).
Proof.
  intros Hwf Hr Hc.
  destruct (put_spec s r c p Hwf) as [(_ & _ & E)|(Hn & _)]; [exact E | tauto].
Qed.

(** *** The fields other than the board and the store *)

Lemma makeMove_fields s m s1 :
  makeMove s m = Ok s1 ->
  moveLog s1 = Py.push m (moveLog s)
  /\ whiteToMove s1 = negb (whiteToMove s)
  /\ whiteKingLocation s1
     = (if Piece_eqb (pieceMoved m) (pc "w" "K") then (endRow m, endCol m)
        else whiteKingLocation s)
  /\ blackKingLocation s1
     = (if Piece_eqb (pieceMoved m) (pc "w" "K") then blackKingLocation s
        else if Piece_eqb (pieceMoved m) (pc "b" "K") then (endRow m, endCol m)
        else blackKingLocation s)
  /\ inCheck s1 = inCheck s /\ pins s1 = pins s /\ checks s1 = checks s
  /\ checkmate s1 = checkmate s /\ stalemate s1 = stalemate s
  /\ enPassantPossible s1 = target_after m
  /\ enPassantPossibleLog s1 = Py.push (target_after m) (enPassantPossibleLog s).
Proof.
  unfold makeMove. intros H.
  apply bind_Ok in H as (x1 & H1 & H). apply put_board in H1 as [b1 ->].
  apply bind_Ok in H as (x2 & H2 & H). apply put_board in H2 as [b2 ->].
  cbv zeta in H. rewrite updateKingLocation_eq, updateEnPassant_eq in H.
  apply bind_Ok in H as (x3 & H3 & H). apply captureEnPassant_board in H3 as [b3 ->].
  apply bind_Ok in H as (x4 & H4 & H). apply promotePawn_board in H4 as [b4 ->].
  apply bind_Ok in H as (x5 & H5 & H). apply castleRook_board in H5 as [b5 ->].
  apply bind_Ok in H as (x6 & H6 & H).
  apply updateCastleRights_store_updated in H6.
  unfold copy_CastleRights, new_CastleRights in H. injection H as <-.
  rewrite H6. cbn. repeat split.
Qed.

Lemma undoPopped_fields s m s2 :
  undoPopped s m = Ok s2 ->
  exists ep,
    enPassantPossibleLog s = Py.push ep (enPassantPossibleLog s2)
    /\ Py.top (enPassantPossibleLog s2) = Ok (enPassantPossible s2)
    /\ moveLog s2 = moveLog s
    /\ whiteToMove s2 = negb (whiteToMove s)
    /\ whiteKingLocation s2
       = (if Piece_eqb (pieceMoved m) (pc "w" "K") then (startRow m, startCol m)
          else whiteKingLocation s)
    /\ blackKingLocation s2
       = (if Piece_eqb (pieceMoved m) (pc "w" "K") then blackKingLocation s
          else if Piece_eqb (pieceMoved m) (pc "b" "K")
          then (startRow m, startCol m) else blackKingLocation s)
    /\ inCheck s2 = inCheck s /\ pins s2 = pins s /\ checks s2 = checks s
    /\ checkmate s2 = false /\ stalemate s2 = false.
Proof.
  unfold undoPopped. intros H.
  apply bind_Ok in H as (x1 & H1 & H). apply put_board in H1 as [b1 ->].
  apply bind_Ok in H as (x2 & H2 & H). apply put_board in H2 as [b2 ->].
  cbv zeta in H. rewrite updateKingLocation_eq in H.
  apply bind_Ok in H as (x3 & H3 & H). apply undoEnPassant_board in H3 as [b3 ->].
  apply bind_Ok in H as ([epl ep] & Hpop & H). apply pop_inv in Hpop.
  cbn [fst snd enPassantPossibleLog set_enPassantPossibleLog] in H.
  apply bind_Ok in H as (ep' & Htop & H).
  apply bind_Ok in H as ([crl top] & _ & H).
  cbn [fst snd castleRightsLog set_castleRightsLog] in H.
  apply bind_Ok in H as (newRights & _ & H).
  unfold copy_CastleRights, new_CastleRights in H.
  apply bind_Ok in H as (x4 & H4 & H). apply undoCastleRook_board in H4 as [b4 ->].
  injection H as <-. exists ep. cbn in Hpop |- *.
  split; [exact Hpop|]. split; [exact Htop|]. repeat split.
Qed.

(** *** The board *)

Lemma put_bset s r c p s' :
  wf_board (board s) -> put s r c p = Ok s' ->
  board s' = bset (board s) (pos r) (pos c) p.
Proof.
  intros Hwf H. destruct (put_spec s r c p Hwf) as [(_ & _ & E)|(_ & E)];
    rewrite E in H; [|discriminate].
  now injection H as <-.
Qed.

Lemma makeMove_board s m s1 :
  wf_board (board s) -> isCastleMove m = false ->
  makeMove s m = Ok s1 -> board s1 = made_board (board s) m.
Proof.
  intros Hwf Hca H. unfold makeMove in H.
  apply bind_Ok in H as (x1 & H1 & H).
  pose proof (put_wf _ _ _ _ _ Hwf H1) as Hwf1.
  apply (put_bset _ _ _ _ _ Hwf) in H1.
  apply bind_Ok in H as (x2 & H2 & H).
  pose proof (put_wf _ _ _ _ _ Hwf1 H2) as Hwf2.
  apply (put_bset _ _ _ _ _ Hwf1) in H2.
  cbv zeta in H.
  apply bind_Ok in H as (x3 & H3 & H).
  assert (E3 : board x3 = (if isEnpassantMove m
                           then bset (board x2) (pos (startRow m))
                                  (pos (endCol m)) EMPTY
                           else board x2)
               /\ wf_board (board x3)).
  { unfold captureEnPassant in H3. destruct (isEnpassantMove m).
    - split; [|eapply put_wf; [|exact H3]];
        [apply put_bset in H3|];
        rewrite ?board_updateEnPassant, ?board_updateKingLocation in *;
        cbn in *; assumption.
    - injection H3 as <-.
      rewrite board_updateEnPassant, board_updateKingLocation. cbn. auto. }
  destruct E3 as [E3 Hwf3].
  apply bind_Ok in H as (x4 & H4 & H).
  assert (E4 : board x4 = if isPawnPromotion m
                          then bset (board x3) (pos (endRow m)) (pos (endCol m))
                                 (pc (fst (pieceMoved m)) "Q")
                          else board x3).
  { unfold promotePawn in H4. destruct (isPawnPromotion m).
    - now apply put_bset in H4.
    - now injection H4 as <-. }
  apply bind_Ok in H as (x5 & H5 & H).
  unfold castleRook in H5. rewrite Hca in H5. injection H5 as <-.
  apply bind_Ok in H as (x6 & H6 & H).
  apply updateCastleRights_store_updated in H6.
  unfold copy_CastleRights, new_CastleRights in H. injection H as <-.
  rewrite H6. cbn. rewrite E4, E3, H2, H1. unfold made_board. reflexivity.
Qed.

Lemma undoPopped_board s m s2 :
  wf_board (board s) -> isCastleMove m = false ->
  undoPopped s m = Ok s2 -> board s2 = unmade_board (board s) m.
Proof.
  intros Hwf Hca H. unfold undoPopped in H.
  apply bind_Ok in H as (x1 & H1 & H).
  pose proof (put_wf _ _ _ _ _ Hwf H1) as Hwf1.
  apply (put_bset _ _ _ _ _ Hwf) in H1.
  apply bind_Ok in H as (x2 & H2 & H).
  pose proof (put_wf _ _ _ _ _ Hwf1 H2) as Hwf2.
  apply (put_bset _ _ _ _ _ Hwf1) in H2.
  cbv zeta in H.
  apply bind_Ok in H as (x3 & H3 & H).
  assert (E3 : board x3
               = if isEnpassantMove m
                 then bset (bset (board x2) (pos (endRow m)) (pos (endCol m)) EMPTY)
                        (pos (startRow m)) (pos (endCol m)) (pieceCaptured m)
                 else board x2).
  { unfold undoEnPassant in H3. destruct (isEnpassantMove m).
    - apply bind_Ok in H3 as (y & Hy & H3).
      assert (Hwfk : wf_board (board (updateKingLocation
                 (set_whiteToMove x2 (negb (whiteToMove x2))) m
                 (startRow m, startCol m))))
        by (rewrite board_updateKingLocation; exact Hwf2).
      pose proof (put_wf _ _ _ _ _ Hwfk Hy) as Hwfy.
      apply (put_bset _ _ _ _ _ Hwfk) in Hy.
      apply (put_bset _ _ _ _ _ Hwfy) in H3.
      rewrite H3, Hy, board_updateKingLocation. reflexivity.
    - injection H3 as <-. now rewrite board_updateKingLocation. }
  apply bind_Ok in H as (p1 & _ & H). apply bind_Ok in H as (p2 & _ & H).
  apply bind_Ok in H as (p3 & _ & H). apply bind_Ok in H as (p4 & _ & H).
  unfold copy_CastleRights, new_CastleRights in H.
  apply bind_Ok in H as (x4 & H4 & H).
  unfold undoCastleRook in H4. rewrite Hca in H4. injection H4 as <-.
  injection H as <-. cbn. rewrite E3, H2, H1. unfold unmade_board. reflexivity.
Qed.

(** ** Undoing a move that was just made *)

Lemma undoMove_unfold s m ml :
  moveLog s = Py.push m ml -> undoMove s = undoPopped (set_moveLog s ml) m.
Proof.
  intros Hlog. unfold undoMove. rewrite Hlog.
  replace (negb (Z.of_nat (length (Py.push m ml)) =? 0)) with true
    by (symmetry; apply negb_true_iff, Z.eqb_neq; cbn [Py.push length]; lia).
  reflexivity.
Qed.

(** rewrites the cell of a board after updates into a case distinction *)
Ltac cell_of_bset :=
  repeat (rewrite bget_bset
            by (apply wf_board_bget;
                [repeat apply bset_wf; assumption
                | apply pos_lt; assumption
                | apply pos_lt; assumption])).

Ltac cell_cases :=
  repeat case_decide;
  repeat match goal with
         | H : _ /\ _ |- _ => destruct H
         end;
  subst; try congruence; try tauto.

Lemma unmade_made_board b m :
  wf_board b ->
  indexable (startRow m) -> indexable (startCol m) ->
  indexable (endRow m) -> indexable (endCol m) ->
  bget b (pos (startRow m)) (pos (startCol m)) = Some (pieceMoved m) ->
  (if isEnpassantMove m
   then bget b (pos (endRow m)) (pos (endCol m)) = Some EMPTY
        /\ bget b (pos (startRow m)) (pos (endCol m)) = Some (pieceCaptured m)
   else bget b (pos (endRow m)) (pos (endCol m)) = Some (pieceCaptured m)) ->
  unmade_board (made_board b m) m = b.
Proof.
  intros Hwf Hsr Hsc Her Hec Hpm Hcap.
  apply board_ext; [apply unmade_board_wf, made_board_wf, Hwf | exact Hwf |].
  intros R C. unfold unmade_board, made_board. cbv zeta.
  destruct (isEnpassantMove m).
  - destruct Hcap as [Hend Hcap].
    destruct (isPawnPromotion m); cell_of_bset; cell_cases.
  - destruct (isPawnPromotion m); cell_of_bset; cell_cases.
Qed.

(** X7: what [undoMove] restores.  For a move that is no castle move, built
    by [Move] on the board of the state (for an en-passant move: its target
    is empty and the captured pawn stands beside the moving pawn), [makeMove]
    followed by [undoMove] gives back the board, the side to move, [moveLog]
    and [enPassantPossibleLog], and leaves the check information alone.
    [enPassantPossible] becomes the last entry of its log, both end-of-game
    flags become false, and a king's cached square is given back when it was
    the square the king moved from.  (The castling rights are not given
    back, see C1.) *)
Theorem makeMove_undoMove_restores s a b ep m s1 s2 :
  wf_board (board s) ->
  Move_init a b (board s) ep false = Ok m ->
  (ep = true ->
   board_get (board s) (fst b) (snd b) = Ok EMPTY
   /\ board_get (board s) (fst a) (snd b) = Ok (pieceCaptured m)) ->
  makeMove s m = Ok s1 -> undoMove s1 = Ok s2 ->
  board s2 = board s
  /\ whiteToMove s2 = whiteToMove s
  /\ moveLog s2 = moveLog s
  /\ enPassantPossibleLog s2 = enPassantPossibleLog s
  /\ Py.top (enPassantPossibleLog s) = Ok (enPassantPossible s2)
  /\ inCheck s2 = inCheck s /\ pins s2 = pins s /\ checks s2 = checks s
  /\ checkmate s2 = false /\ stalemate s2 = false
  /\ ((pieceMoved m = pc "w" "K" -> whiteKingLocation s = a) ->
      whiteKingLocation s2 = whiteKingLocation s)
  /\ ((pieceMoved m = pc "b" "K" -> blackKingLocation s = a) ->
      blackKingLocation s2 = blackKingLocation s).
Proof.
  intros Hwf Hm Hep Hmake Hundo.
  pose proof (built_indexable s a b ep false m Hwf Hm) as (Hsr & Hsc & Her & Hec).
  pose proof (Move_init_fields _ _ _ _ _ _ Hm) as (F1 & F2 & F3 & F4 & F5 & F6 & _).
  pose proof (Move_init_spec _ _ _ _ _ _ Hm) as (Hstart & (target & Hend & Hcap) & _).
  pose proof (makeMove_board s m s1 Hwf F6 Hmake) as Hb1.
  pose proof (makeMove_wf_board s m s1 Hwf Hmake) as Hwf1.
  apply makeMove_fields in Hmake
    as (M1 & M2 & M3 & M4 & M5 & M6 & M7 & M8 & M9 & M10 & M11).
  rewrite (undoMove_unfold s1 m (moveLog s) M1) in Hundo.
  pose proof (undoPopped_board (set_moveLog s1 (moveLog s)) m s2 Hwf1 F6 Hundo)
    as Hb2.
  apply undoPopped_fields in Hundo
    as (ep0 & U1 & U2 & U3 & U4 & U5 & U6 & U7 & U8 & U9 & U10 & U11).
  cbn in Hb2, U1, U3, U4, U5, U6, U7, U8, U9.
  rewrite M11 in U1. injection U1 as _ U1.
  split.
  { rewrite Hb2, Hb1. apply unmade_made_board; try assumption.
    - destruct (board_get_spec (board s) (fst a) (snd a) Hwf)
        as [(_ & _ & p & Hp & Hg)|(_ & E)]; [|congruence].
      rewrite F1, F2. congruence.
    - rewrite F5. destruct ep.
      + destruct (Hep eq_refl) as [He1 He2].
        destruct (board_get_spec (board s) (fst b) (snd b) Hwf)
          as [(_ & _ & p & Hp & Hg)|(_ & E)]; [|congruence].
        destruct (board_get_spec (board s) (fst a) (snd b) Hwf)
          as [(_ & _ & q & Hq & Hg')|(_ & E)]; [|congruence].
        rewrite F1, F3, F4. split; congruence.
      + destruct (board_get_spec (board s) (fst b) (snd b) Hwf)
          as [(_ & _ & p & Hp & Hg)|(_ & E)]; [|congruence].
        rewrite F3, F4. congruence. }
  split; [rewrite U4, M2; apply negb_involutive|].
  split; [exact U3|]. split; [now rewrite <- U1|].
  split; [now rewrite U1|].
  split; [congruence|]. split; [congruence|]. split; [congruence|].
  split; [exact U10|]. split; [exact U11|]. split.
  - intros Hk. rewrite U5, M3.
    destruct (Piece_eqb (pieceMoved m) (pc "w" "K")) eqn:E; [|reflexivity].
    apply Piece_eqb_eq in E. rewrite (Hk E), F1, F2. now destruct a.
  - intros Hk. rewrite U6, M4.
    destruct (Piece_eqb (pieceMoved m) (pc "w" "K")) eqn:E; [reflexivity|].
    destruct (Piece_eqb (pieceMoved m) (pc "b" "K")) eqn:E'; [|reflexivity].
    apply Piece_eqb_eq in E'. rewrite (Hk E'), F1, F2. now destruct a.
Qed.

Lemma makeMove_undoMove_restores_witness :
  exists m s1 s2,
    Move_init (6, 4) (4, 4) (board GameState_init) false false = Ok m
    /\ makeMove GameState_init m = Ok s1
    /\ undoMove s1 = Ok s2
    /\ board s2 = board GameState_init
    /\ whiteToMove s2 = whiteToMove GameState_init
    /\ moveLog s2 = moveLog GameState_init
    /\ enPassantPossibleLog s2 = enPassantPossibleLog GameState_init.
Proof.
  destruct (Move_init (6, 4) (4, 4) (board GameState_init) false false)
    as [m|] eqn:Em; [|vm_compute in Em; discriminate].
  destruct (makeMove GameState_init m) as [s1|] eqn:E1;
    [|vm_compute in Em; injection Em as <-; vm_compute in E1; discriminate].
  destruct (undoMove s1) as [s2|] eqn:E2;
    [|vm_compute in Em; injection Em as <-; vm_compute in E1;
      injection E1 as <-; vm_compute in E2; discriminate].
  exists m, s1, s2.
  destruct (makeMove_undoMove_restores GameState_init (6, 4) (4, 4) false m s1 s2
              wf_board_init Em ltac:(discriminate) E1 E2)
    as (R1 & R2 & R3 & R4 & _).
  repeat (split; [first [reflexivity | assumption]|]). assumption.
Defined.

(** ** Castling rights after a move *)

Lemma deref_store s l f : deref (store s l f) l = f (deref s l).
Proof. unfold deref, store. cbn. apply lookup_total_insert_eq. Qed.

Lemma updateCastleRights_rights s m s' :
  updateCastleRights s m = Ok s' -> rights s' = revoke m (rights s).
Proof.
  unfold updateCastleRights, copy_CastleRights, new_CastleRights.
  cbn [castleRightsLog set_castleRightsLog set_heap Py.push Py.top bind].
  set (s0 := set_currentCastlingRight _ _).
  assert (E0 : deref s0 (currentCastlingRight s0) = rights s).
  { subst s0. unfold rights, deref. cbn.
    rewrite lookup_total_insert_eq. apply deref_copy. }
  intros [= <-]. unfold revoke. cbv zeta. rewrite <- E0. unfold rights.
  assert (C : forall f, currentCastlingRight (store s0 (currentCastlingRight s0) f)
                        = currentCastlingRight s0) by reflexivity.
  repeat case_match; cbn [currentCastlingRight store set_heap];
    rewrite ?deref_store; reflexivity.
Qed.

Lemma makeMove_rights s m s1 :
  makeMove s m = Ok s1 -> rights s1 = revoke m (rights s).
Proof.
  unfold makeMove. intros H.
  apply bind_Ok in H as (x1 & H1 & H). apply put_board in H1 as [b1 ->].
  apply bind_Ok in H as (x2 & H2 & H). apply put_board in H2 as [b2 ->].
  cbv zeta in H. rewrite updateKingLocation_eq, updateEnPassant_eq in H.
  apply bind_Ok in H as (x3 & H3 & H). apply captureEnPassant_board in H3 as [b3 ->].
  apply bind_Ok in H as (x4 & H4 & H). apply promotePawn_board in H4 as [b4 ->].
  apply bind_Ok in H as (x5 & H5 & H). apply castleRook_board in H5 as [b5 ->].
  apply bind_Ok in H as (x6 & H6 & H).
  pose proof (updateCastleRights_rights _ _ _ H6) as Hr.
  apply updateCastleRights_spec in H6 as (_ & _ & _ & Hc & Hn & _).
  unfold copy_CastleRights, new_CastleRights in H. injection H as <-.
  unfold rights, deref in *. cbn in *.
  rewrite lookup_total_insert_ne by (rewrite Hc, Hn; lia). exact Hr.
Qed.

(** X8: [makeMove] never gives a castling right back: a right that holds
    after the move held before it. *)
Theorem makeMove_rights_decrease s m s1 :
  makeMove s m = Ok s1 ->
  (wks (rights s1) = true -> wks (rights s) = true)
  /\ (bks (rights s1) = true -> bks (rights s) = true)
  /\ (wqs (rights s1) = true -> wqs (rights s) = true)
  /\ (bqs (rights s1) = true -> bqs (rights s) = true).
Proof.
  intros H. rewrite (makeMove_rights s m s1 H). unfold revoke.
  destruct (rights s) as [a b c d]. cbv zeta.
  repeat case_match; cbn; repeat split; congruence.
Qed.

Lemma makeMove_rights_decrease_witness :
  exists m s1,
    Move_init (7, 4) (6, 4) (board (state_after game_open)) false false = Ok m
    /\ makeMove (state_after game_open) m = Ok s1
    /\ (wks (rights s1) = true -> wks (rights (state_after game_open)) = true)
    /\ (bks (rights s1) = true -> bks (rights (state_after game_open)) = true).
Proof.
  destruct (Move_init (7, 4) (6, 4) (board (state_after game_open)) false false)
    as [m|] eqn:Em; [|vm_compute in Em; discriminate].
  destruct (makeMove (state_after game_open) m) as [s1|] eqn:E1;
    [|vm_compute in Em; injection Em as <-; vm_compute in E1; discriminate].
  exists m, s1. split; [reflexivity|]. split; [exact E1|].
  destruct (makeMove_rights_decrease _ _ _ E1) as (H1 & H2 & _).
  split; assumption.
Defined.

(** X9: the rights [makeMove] takes away: both rights of a side whose king
    moves; the right of a corner whose rook moves from it; and the right of a
    corner on which a rook is captured. *)
Theorem makeMove_rights_revoked s m s1 :
  makeMove s m = Ok s1 ->
  (pieceMoved m = pc "w" "K" ->
   wks (rights s1) = false /\ wqs (rights s1) = false)
  /\ (pieceMoved m = pc "b" "K" ->
      bks (rights s1) = false /\ bqs (rights s1) = false)
  /\ (pieceMoved m = pc "w" "R" -> startRow m = 7 ->
      (startCol m = 0 -> wqs (rights s1) = false)
      /\ (startCol m = 7 -> wks (rights s1) = false))
  /\ (pieceMoved m = pc "b" "R" -> startRow m = 0 ->
      (startCol m = 0 -> bqs (rights s1) = false)
      /\ (startCol m = 7 -> bks (rights s1) = false))
  /\ (pieceCaptured m = pc "w" "R" -> endRow m = 7 ->
      (endCol m = 0 -> wqs (rights s1) = false)
      /\ (endCol m = 7 -> wks (rights s1) = false))
  /\ (pieceCaptured m = pc "b" "R" -> endRow m = 0 ->
      (endCol m = 0 -> bqs (rights s1) = false)
      /\ (endCol m = 7 -> bks (rights s1) = false)).
Proof.
  intros H. rewrite (makeMove_rights s m s1 H). unfold revoke.
  destruct (rights s) as [a b c d]. cbv zeta.
  repeat split; intros;
    repeat match goal with
           | E : pieceMoved m = _ |- _ => rewrite E; clear E
           | E : pieceCaptured m = _ |- _ => rewrite E; clear E
           | E : startRow m = _ |- _ => rewrite E; clear E
           | E : startCol m = _ |- _ => rewrite E; clear E
           | E : endRow m = _ |- _ => rewrite E; clear E
           | E : endCol m = _ |- _ => rewrite E; clear E
           end;
    cbn; repeat case_match; reflexivity.
Qed.

Lemma makeMove_rights_revoked_witness :
  exists m s1,
    Move_init (7, 4) (6, 4) (board (state_after game_open)) false false = Ok m
    /\ makeMove (state_after game_open) m = Ok s1
    /\ pieceMoved m = pc "w" "K"
    /\ wks (rights s1) = false /\ wqs (rights s1) = false.
Proof.
  destruct (Move_init (7, 4) (6, 4) (board (state_after game_open)) false false)
    as [m|] eqn:Em; [|vm_compute in Em; discriminate].
  destruct (makeMove (state_after game_open) m) as [s1|] eqn:E1;
    [|vm_compute in Em; injection Em as <-; vm_compute in E1; discriminate].
  exists m, s1. split; [reflexivity|]. split; [exact E1|].
  assert (Hk : pieceMoved m = pc "w" "K")
    by (vm_compute in Em; injection Em as <-; reflexivity).
  split; [exact Hk|].
  destruct (makeMove_rights_revoked _ _ _ E1) as (H & _).
  exact (H Hk).
Defined.

(** ** The logs of a reachable state *)

(** X10: in every reachable state [enPassantPossibleLog] has one entry more
    than [moveLog], its last entry is [enPassantPossible], and
    [castleRightsLog] has more entries than [moveLog]. *)
Theorem reachable_logs s :
  reachable s ->
  length (enPassantPossibleLog s) = S (length (moveLog s))
  /\ Py.top (enPassantPossibleLog s) = Ok (enPassantPossible s)
  /\ (length (moveLog s) < length (castleRightsLog s))%nat.
Proof.
  induction 1 as [|s0 s ms _ IH Hv|s0 s ms m s' _ IH Hv _ Hm|s s' _ IH Hu].
  - cbn. repeat split. lia.
  - apply getValidMoves_frame in Hv. rewrite Hv. exact IH.
  - apply getValidMoves_frame in Hv.
    assert (IH' : length (enPassantPossibleLog s) = S (length (moveLog s))
                  /\ Py.top (enPassantPossibleLog s) = Ok (enPassantPossible s)
                  /\ (length (moveLog s) < length (castleRightsLog s))%nat)
      by (rewrite Hv; exact IH).
    destruct IH' as (I1 & I2 & I3).
    pose proof (makeMove_spec _ _ _ Hm) as (_ & _ & S3 & _).
    apply makeMove_fields in Hm as (M1 & _ & _ & _ & _ & _ & _ & _ & _ & M10 & M11).
    rewrite M1, M10, M11, S3. cbn. repeat split; lia.
  - destruct IH as (I1 & I2 & I3).
    destruct (moveLog s) as [|m ml] eqn:Hlog.
    + unfold undoMove in Hu. rewrite Hlog in Hu. injection Hu as <-.
      rewrite Hlog. auto.
    + pose proof Hu as Hu'.
      apply undoMove_spec in Hu' as (m' & ep' & top & nr & _ & _ & S3 & _);
        [|congruence].
      rewrite (undoMove_unfold s m ml Hlog) in Hu.
      apply undoPopped_fields in Hu as (ep & U1 & U2 & U3 & _).
      cbn in U1, U3. rewrite U1, S3 in *. cbn in *. rewrite U3.
      repeat split; try assumption; lia.
Qed.

Lemma reachable_logs_witness :
  reachable (state_after game_open)
  /\ length (enPassantPossibleLog (state_after game_open))
     = S (length (moveLog (state_after game_open)))
  /\ Py.top (enPassantPossibleLog (state_after game_open))
     = Ok (enPassantPossible (state_after game_open)).
Proof.
  pose proof (state_after_reachable game_open game_open_played) as Hr.
  destruct (reachable_logs _ Hr) as (H1 & H2 & _).
  split; [exact Hr|]. split; assumption.
Defined.

(** ** The outcome of [getValidMoves] *)

Lemma getValidMoves_inv s s' moves :
  getValidMoves s = Ok (s', moves) ->
  exists ic ps cs s1,
    checkForPinsAndChecks s = Ok (ic, ps, cs)
    /\ pins_removed (set_check_info s ic ps cs) s1
    /\ s' = (if Z.of_nat (length moves) =? 0
             then if ic then set_checkmate s1 true else set_stalemate s1 true
             else set_stalemate (set_checkmate s1 false) false)
    /\ (ic = true -> length cs <> 1%nat ->
        getKingMoves (set_check_info s ic ps cs)
          (fst (king_square s)) (snd (king_square s)) [] = Ok moves).
Proof.
  unfold getValidMoves, king_square. intros H.
  apply bind_Ok in H as ([[ic ps] cs] & Hinfo & H). cbv zeta in H.
  set (s0 := set_check_info s ic ps cs) in *.
  change (whiteToMove s0) with (whiteToMove s) in H.
  change (whiteKingLocation s0) with (whiteKingLocation s) in H.
  change (blackKingLocation s0) with (blackKingLocation s) in H.
  destruct (if whiteToMove s then whiteKingLocation s else blackKingLocation s)
    as [kingRow kingCol].
  apply bind_Ok in H as ([s1 moves1] & Hbr & H).
  change (inCheck s0) with ic in Hbr. change (checks s0) with cs in Hbr.
  exists ic, ps, cs, s1. split; [exact Hinfo|].
  assert (Hfr : pins_removed s0 s1
                /\ (ic = true -> length cs <> 1%nat ->
                    getKingMoves s0 kingRow kingCol [] = Ok moves1)).
  { destruct ic.
    - destruct (Z.of_nat (length cs) =? 1) eqn:E1.
      + apply Z.eqb_eq in E1. split; [|intros _ Hn; lia].
        apply bind_Ok in Hbr as ([s2 moves2] & Hall & Hbr).
        apply getAllPossibleMoves_frame in Hall.
        apply bind_Ok in Hbr as ([[[checkRow checkCol] d0] d1] & _ & Hbr).
        apply bind_Ok in Hbr as (pieceChecking & _ & Hbr).
        apply bind_Ok in Hbr as (moves3 & _ & Hbr).
        now injection Hbr as <- _.
      + apply bind_Ok in Hbr as (moves2 & Hking & Hbr). injection Hbr as <- <-.
        split; [apply pins_removed_refl | auto].
    - split; [|discriminate]. now apply getAllPossibleMoves_frame in Hbr. }
  destruct Hfr as [Hfr Hk]. split; [exact Hfr|].
  assert (Hic : inCheck s1 = ic) by (destruct Hfr as [E _]; now rewrite E).
  rewrite Hic in H.
  destruct (Z.of_nat (length moves1) =? 0) eqn:E0.
  - destruct ic; injection H as <- <-; rewrite E0; auto.
  - injection H as <- <-. rewrite E0. auto.
Qed.

(** X11: the flags [getValidMoves] leaves: with a move to return both
    [checkmate] and [stalemate] are false; with none and the king in check,
    [checkmate] is true and [stalemate] is left as it was; with none and the
    king not in check, [stalemate] is true and [checkmate] is left as it
    was. *)
Theorem getValidMoves_flags s s' moves :
  getValidMoves s = Ok (s', moves) ->
  (moves <> [] -> checkmate s' = false /\ stalemate s' = false)
  /\ (moves = [] -> inCheck s' = true ->
      checkmate s' = true /\ stalemate s' = stalemate s)
  /\ (moves = [] -> inCheck s' = false ->
      stalemate s' = true /\ checkmate s' = checkmate s).
Proof.
  intros H. apply getValidMoves_inv in H
    as (ic & ps & cs & s1 & _ & [E _] & -> & _).
  destruct moves as [|m moves]; cbn [length].
  - change (Z.of_nat 0 =? 0) with true. cbv iota.
    split; [congruence|]. rewrite E. destruct ic; cbn; split; intros; try discriminate; auto.
  - replace (Z.of_nat (S (length moves)) =? 0) with false
      by (symmetry; apply Z.eqb_neq; lia).
    split; [intros _; split; reflexivity|]. split; discriminate.
Qed.

Lemma getValidMoves_flags_witness :
  exists s' m moves,
    getValidMoves GameState_init = Ok (s', m :: moves)
    /\ checkmate s' = false /\ stalemate s' = false.
Proof.
  destruct (getValidMoves GameState_init) as [[s' [|m ms]]|] eqn:E;
    [vm_compute in E; discriminate| |vm_compute in E; discriminate].
  exists s', m, ms. split; [reflexivity|].
  destruct (getValidMoves_flags _ _ _ E) as (H & _).
  apply H. discriminate.
Defined.

Lemma game_double_check_played : is_Some (play GameState_init game_double_check).
Proof. vm_compute. eexists. reflexivity. Qed.

Lemma jump_all_starts s offsets r c moves moves' :
  Forall (fun m => (startRow m, startCol m) = (r, c)) moves ->
  jump_all s offsets r c moves = Ok moves' ->
  Forall (fun m => (startRow m, startCol m) = (r, c)) moves'.
Proof.
  intros HP H. eapply jump_all_generated; [|exact HP|exact H].
  intros m Hm. apply plain_ok_fields in Hm. tauto.
Qed.

(** X12: when [getValidMoves] finds the king in check by two or more pieces,
    every move it returns starts on the cached square of the king of the side
    to move. *)
Theorem getValidMoves_double_check s s' moves :
  getValidMoves s = Ok (s', moves) ->
  inCheck s' = true -> (2 <= length (checks s'))%nat ->
  Forall (fun m => (startRow m, startCol m) = king_square s) moves.
Proof.
  intros H Hic Hcs. apply getValidMoves_inv in H
    as (ic & ps & cs & s1 & _ & [E _] & -> & Hk).
  assert (Hic' : ic = true /\ (2 <= length cs)%nat).
  { rewrite E in Hic, Hcs. repeat case_match; cbn in Hic, Hcs; auto. }
  destruct Hic' as [-> Hlen]. specialize (Hk eq_refl ltac:(lia)).
  unfold getKingMoves in Hk. apply jump_all_starts in Hk; [|constructor].
  now destruct (king_square s).
Qed.

Lemma getValidMoves_double_check_witness :
  exists s' moves,
    getValidMoves (state_after game_double_check) = Ok (s', moves)
    /\ inCheck s' = true /\ length (checks s') = 2%nat
    /\ king_square (state_after game_double_check) = (0, 4)
    /\ Forall (fun m => (startRow m, startCol m) = (0, 4)) moves.
Proof.
  destruct (getValidMoves (state_after game_double_check)) as [[s' ms]|] eqn:E;
    [|vm_compute in E; discriminate].
  exists s', ms. split; [reflexivity|].
  assert (Hc : inCheck s' = true /\ length (checks s') = 2%nat).
  { vm_compute in E. injection E as <- _. split; reflexivity. }
  destruct Hc as [Hc Hl].
  split; [exact Hc|]. split; [exact Hl|]. split; [vm_compute; reflexivity|].
  apply (getValidMoves_double_check _ _ _ E Hc). rewrite Hl. constructor.
Defined.

(** ** The filter for a single check *)

Lemma range_down_succ n :
  Py.range_down (Z.of_nat (S n) - 1) (-1)
  = Z.of_nat n :: Py.range_down (Z.of_nat n - 1) (-1).
Proof.
  unfold Py.range_down.
  replace (Z.to_nat (Z.of_nat (S n) - 1 - -1)) with (S n) by lia.
  replace (Z.to_nat (Z.of_nat n - 1 - -1)) with n by lia.
  cbn [Py.downto].
  replace (-1 <? Z.of_nat (S n) - 1) with true by (symmetry; apply Z.ltb_lt; lia).
  replace (Z.of_nat (S n) - 1) with (Z.of_nat n) by lia. reflexivity.
Qed.

Lemma index_middle {A : Type} (l1 l2 : list A) (x : A) :
  Py.index (l1 ++ x :: l2) (Z.of_nat (length l1)) = Ok x.
Proof.
  unfold Py.index.
  replace (Z.of_nat (length l1) <? 0) with false by (symmetry; apply Z.ltb_ge; lia).
  replace ((0 <=? Z.of_nat (length l1))
           && (Z.of_nat (length l1) <? Z.of_nat (length (l1 ++ x :: l2))))
    with true.
  - rewrite Nat2Z.id. rewrite lookup_app_r by lia.
    now replace (length l1 - length l1)%nat with 0%nat by lia.
  - symmetry. apply andb_true_iff. split; [apply Z.leb_le; lia|].
    apply Z.ltb_lt. rewrite length_app. cbn [length]. lia.
Qed.

Lemma remove_middle (l1 l2 : list Move) (x : Move) :
  ~ In (moveID x) (map moveID l1) ->
  Py.remove (fun a b => Move_eq a b) x (l1 ++ x :: l2) = l1 ++ l2.
Proof.
  induction l1 as [|y l1 IH]; cbn; intros Hn.
  - unfold Move_eq. now rewrite Z.eqb_refl.
  - unfold Move_eq at 1. destruct (moveID y =? moveID x) eqn:E.
    + apply Z.eqb_eq in E. tauto.
    + f_equal. apply IH. tauto.
Qed.

Lemma filter_check_prefix validSquares (l : list Move) : forall suffix,
  List.NoDup (map moveID (l ++ suffix)) ->
  filter_check validSquares (Py.range_down (Z.of_nat (length l) - 1) (-1))
    (l ++ suffix)
  = Ok (List.filter (answers_check validSquares) l ++ suffix).
Proof.
  induction l as [|x l IH] using rev_ind; intros suffix Hnd.
  - reflexivity.
  - rewrite length_app. cbn [length].
    replace (length l + 1)%nat with (S (length l)) by lia.
    rewrite range_down_succ. cbn [filter_check].
    rewrite <- app_assoc. cbn [app]. rewrite index_middle. cbn [bind].
    rewrite List.filter_app. cbn [List.filter]. unfold answers_check at 2.
    destruct (Ascii.eqb (snd (pieceMoved x)) "K") eqn:Ek; cbn [negb orb].
    + rewrite <- app_assoc. cbn [app]. apply IH.
      now rewrite <- app_assoc in Hnd.
    + destruct (existsb _ validSquares) eqn:Ev; cbn [negb].
      * rewrite <- app_assoc. cbn [app]. apply IH.
        now rewrite <- app_assoc in Hnd.
      * cbn [bind]. rewrite app_nil_r.
        rewrite <- app_assoc in Hnd. cbn [app] in Hnd.
        rewrite map_app in Hnd. cbn [map] in Hnd.
        pose proof (List.NoDup_remove_2 _ _ _ Hnd) as Hx.
        pose proof (List.NoDup_remove_1 _ _ _ Hnd) as Hrest.
        rewrite remove_middle by (intros Hin; apply Hx, in_or_app; now left).
        apply IH. now rewrite map_app.
Qed.

(** X13: the removal loop of [getValidMoves] for a single check (indices
    from the last to the first, [moves.remove(moves[i])]) keeps, in order,
    exactly the king moves and the moves onto one of [validSquares],
    provided no two moves of the list have the same [moveID] ([remove]
    deletes the first move equal to the one at the index). *)
Theorem filter_check_filter validSquares (moves : list Move) :
  List.NoDup (map moveID moves) ->
  filter_check validSquares
    (Py.range_down (Z.of_nat (length moves) - 1) (-1)) moves
  = Ok (List.filter (answers_check validSquares) moves).
Proof.
  intros Hnd. pose proof (filter_check_prefix validSquares moves []) as H.
  rewrite !app_nil_r in H. now apply H.
Qed.

Lemma filter_check_filter_witness :
  exists moves,
    valid_moves GameState_init = Ok moves
    /\ List.NoDup (map moveID moves)
    /\ filter_check [(4, 4)]
         (Py.range_down (Z.of_nat (length moves) - 1) (-1)) moves
       = Ok (List.filter (answers_check [(4, 4)]) moves).
Proof.
  destruct (valid_moves GameState_init) as [ms|] eqn:E;
    [|vm_compute in E; discriminate].
  exists ms. split; [reflexivity|].
  assert (Hn : List.NoDup (map moveID ms)).
  { vm_compute in E. injection E as <-. cbn [map moveID].
    apply NoDup_ListNoDup, (bool_decide_unpack _). vm_compute. exact I. }
  split; [exact Hn|].
  exact (filter_check_filter [(4, 4)] ms Hn).
Defined.

(** ** Castle moves *)

Lemma squareUnderAttack_pins_removed s r c s' b :
  squareUnderAttack s r c = Ok (s', b) -> pins_removed s s'.
Proof.
  unfold squareUnderAttack. intros H.
  apply bind_Ok in H as ([s1 oppMoves] & Hall & H).
  apply getAllPossibleMoves_frame in Hall as [E S]. injection H as <- _.
  split.
  - rewrite E. cbn. rewrite negb_involutive. now destruct s.
  - cbn. exact S.
Qed.

Lemma castle_move_init r c dc brd m :
  Move_init (r, c) (r, c + dc) brd false true = Ok m -> castle_move r c dc m.
Proof.
  intros H. apply Move_init_fields in H as (F1 & F2 & F3 & F4 & F5 & F6 & _).
  cbn in *. unfold castle_move. rewrite F1, F2, F3, F4. auto.
Qed.

Lemma getKingsideCastleMoves_inv s r c moves s' moves' :
  getKingsideCastleMoves s r c moves = Ok (s', moves') ->
  pins_removed s s'
  /\ (moves' = moves
      \/ exists m, moves' = moves ++ [m] /\ castle_move r c 2 m
                   /\ board_get (board s) r (c + 1) = Ok EMPTY
                   /\ board_get (board s) r (c + 2) = Ok EMPTY).
Proof.
  unfold getKingsideCastleMoves. intros H.
  apply bind_Ok in H as (c1 & H1 & H).
  destruct (Piece_eqb c1 EMPTY) eqn:E1; cbn [negb] in H;
    [|injection H as <- <-; split; [apply pins_removed_refl | now left]].
  apply bind_Ok in H as (c2 & H2 & H).
  destruct (Piece_eqb c2 EMPTY) eqn:E2; cbn [negb] in H;
    [|injection H as <- <-; split; [apply pins_removed_refl | now left]].
  apply Piece_eqb_eq in E1, E2. subst c1 c2.
  apply bind_Ok in H as ([s1 att1] & Ha1 & H).
  apply squareUnderAttack_pins_removed in Ha1.
  destruct att1; [injection H as <- <-; split; [exact Ha1 | now left]|].
  apply bind_Ok in H as ([s2 att2] & Ha2 & H).
  apply squareUnderAttack_pins_removed in Ha2.
  pose proof (pins_removed_trans _ _ _ Ha1 Ha2) as Ha12.
  destruct att2; [injection H as <- <-; split; [exact Ha12 | now left]|].
  apply bind_Ok in H as (m & Hm & H). injection H as <- <-.
  split; [exact Ha12|]. right. exists m. split; [reflexivity|].
  split; [eapply castle_move_init; exact Hm | auto].
Qed.

Lemma getQueensideCastleMoves_inv s r c moves s' moves' :
  getQueensideCastleMoves s r c moves = Ok (s', moves') ->
  pins_removed s s'
  /\ (moves' = moves
      \/ exists m, moves' = moves ++ [m] /\ castle_move r c (-2) m
                   /\ board_get (board s) r (c - 1) = Ok EMPTY
                   /\ board_get (board s) r (c - 2) = Ok EMPTY
                   /\ board_get (board s) r (c - 3) = Ok EMPTY).
Proof.
  unfold getQueensideCastleMoves. intros H.
  apply bind_Ok in H as (c1 & H1 & H).
  destruct (Piece_eqb c1 EMPTY) eqn:E1; cbn [negb] in H;
    [|injection H as <- <-; split; [apply pins_removed_refl | now left]].
  apply bind_Ok in H as (c2 & H2 & H).
  destruct (Piece_eqb c2 EMPTY) eqn:E2; cbn [negb] in H;
    [|injection H as <- <-; split; [apply pins_removed_refl | now left]].
  apply bind_Ok in H as (c3 & H3 & H).
  destruct (Piece_eqb c3 EMPTY) eqn:E3; cbn [negb] in H;
    [|injection H as <- <-; split; [apply pins_removed_refl | now left]].
  apply Piece_eqb_eq in E1, E2, E3. subst c1 c2 c3.
  apply bind_Ok in H as ([s1 att1] & Ha1 & H).
  apply squareUnderAttack_pins_removed in Ha1.
  destruct att1; [injection H as <- <-; split; [exact Ha1 | now left]|].
  apply bind_Ok in H as ([s2 att2] & Ha2 & H).
  apply squareUnderAttack_pins_removed in Ha2.
  pose proof (pins_removed_trans _ _ _ Ha1 Ha2) as Ha12.
  destruct att2; [injection H as <- <-; split; [exact Ha12 | now left]|].
  apply bind_Ok in H as (m & Hm & H). injection H as <- <-.
  split; [exact Ha12|]. right. exists m. split; [reflexivity|].
  split; [exact (castle_move_init r c (-2) _ m Hm) | auto].
Qed.

(** X14: whenever [getCastleMoves] returns (it need not: it raises what
    [squareUnderAttack] raises, see C10), the state it returns is the state
    it was called in up to pins removed, and the list it returns is the
    given list followed by at most one king-side and then at most one
    queen-side castle move of the king on [(r, c)]: two columns to the right
    resp. to the left, flagged as castle move; only when the side to move
    holds the right and the two resp. three squares beside the king are
    empty; none at all when [(r, c)] is attacked. *)
Theorem getCastleMoves_moves s r c moves s' moves' :
  getCastleMoves s r c moves = Ok (s', moves') ->
  pins_removed s s'
  /\ exists ks qs,
       moves' = moves ++ ks ++ qs
       /\ (ks = []
           \/ exists m, ks = [m] /\ castle_move r c 2 m
                        /\ holds_kingside s = true
                        /\ board_get (board s) r (c + 1) = Ok EMPTY
                        /\ board_get (board s) r (c + 2) = Ok EMPTY)
       /\ (qs = []
           \/ exists m, qs = [m] /\ castle_move r c (-2) m
                        /\ holds_queenside s = true
                        /\ board_get (board s) r (c - 1) = Ok EMPTY
                        /\ board_get (board s) r (c - 2) = Ok EMPTY
                        /\ board_get (board s) r (c - 3) = Ok EMPTY)
       /\ (attacked s r c = Ok true -> ks = [] /\ qs = []).
Proof.
  unfold getCastleMoves, attacked. intros H.
  apply bind_Ok in H as ([s1 att] & Hatt & H). rewrite Hatt. cbn [bind snd].
  apply squareUnderAttack_pins_removed in Hatt.
  destruct att.
  { injection H as <- <-. split; [exact Hatt|]. exists [], [].
    rewrite !app_nil_r. auto. }
  apply bind_Ok in H as ([s2 moves2] & Hk & H).
  assert (Hks : pins_removed s s2
                /\ (moves2 = moves
                    \/ exists m, moves2 = moves ++ [m] /\ castle_move r c 2 m
                                 /\ holds_kingside s = true
                                 /\ board_get (board s) r (c + 1) = Ok EMPTY
                                 /\ board_get (board s) r (c + 2) = Ok EMPTY)).
  { destruct (whiteToMove s1 && wks (deref s1 (currentCastlingRight s1)) || _)
      eqn:Eh.
    - apply getKingsideCastleMoves_inv in Hk as [Hfr Hk].
      split; [eapply pins_removed_trans; eauto|].
      destruct Hk as [->|(m & -> & Hm & He1 & He2)]; [now left|].
      right. exists m. destruct Hatt as [E _]. rewrite E in Eh, He1, He2.
      auto.
    - injection Hk as <- <-. split; [exact Hatt | now left]. }
  destruct Hks as [Hfr2 Hks].
  assert (Hqs : pins_removed s s'
                /\ (moves' = moves2
                    \/ exists m, moves' = moves2 ++ [m] /\ castle_move r c (-2) m
                                 /\ holds_queenside s = true
                                 /\ board_get (board s) r (c - 1) = Ok EMPTY
                                 /\ board_get (board s) r (c - 2) = Ok EMPTY
                                 /\ board_get (board s) r (c - 3) = Ok EMPTY)).
  { destruct (whiteToMove s2 && wqs (deref s2 (currentCastlingRight s2)) || _)
      eqn:Eh.
    - apply getQueensideCastleMoves_inv in H as [Hfr H].
      split; [eapply pins_removed_trans; eauto|].
      destruct H as [->|(m & -> & Hm & He1 & He2 & He3)]; [now left|].
      right. exists m. destruct Hfr2 as [E _]. rewrite E in Eh, He1, He2, He3.
      auto 10.
    - injection H as <- <-. split; [exact Hfr2 | now left]. }
  destruct Hqs as [Hfr3 Hqs]. split; [exact Hfr3|].
  destruct Hks as [->|(mk & -> & Hmk)], Hqs as [->|(mq & -> & Hmq)].
  - exists [], []. rewrite !app_nil_r. repeat split; auto; discriminate.
  - exists [], [mq]. cbn [app]. repeat split; eauto; discriminate.
  - exists [mk], []. rewrite app_nil_r. repeat split; eauto; discriminate.
  - exists [mk], [mq]. rewrite <- app_assoc. repeat split; eauto; discriminate.
Qed.

Lemma getCastleMoves_moves_witness :
  exists s' moves',
    getCastleMoves (state_after game_castle) 7 4 [] = Ok (s', moves')
    /\ pins_removed (state_after game_castle) s'
    /\ Forall (fun m => castle_move 7 4 2 m \/ castle_move 7 4 (-2) m) moves'.
Proof.
  destruct (getCastleMoves (state_after game_castle) 7 4 []) as [[s' ms]|] eqn:E;
    [|vm_compute in E; discriminate].
  exists s', ms. split; [reflexivity|].
  destruct (getCastleMoves_moves _ _ _ _ _ _ E)
    as (Hp & ks & qs & -> & Hk & Hq & _).
  split; [exact Hp|]. cbn [app].
  apply Forall_app. split.
  - destruct Hk as [->|(m & -> & Hm & _)]; [apply Forall_nil_2|].
    apply Forall_cons_2; [left; exact Hm | apply Forall_nil_2].
  - destruct Hq as [->|(m & -> & Hm & _)]; [apply Forall_nil_2|].
    apply Forall_cons_2; [right; exact Hm | apply Forall_nil_2].
Defined.

(** ** The cells [makeMove] writes *)

(** X15: the board after [makeMove] of a move that is no castle move, cell
    by cell: the start square is empty, the end square holds the moved piece
    (the queen of its colour for a promotion), for an en-passant move the
    square beside the start square in the end column is empty, and every
    other cell is as before. *)
Theorem makeMove_cells s a b ep m s1 :
  wf_board (board s) ->
  Move_init a b (board s) ep false = Ok m ->
  makeMove s m = Ok s1 ->
  (forall R C,
     (R, C) <> (pos (startRow m), pos (startCol m)) ->
     (R, C) <> (pos (endRow m), pos (endCol m)) ->
     (ep = true -> (R, C) <> (pos (startRow m), pos (endCol m))) ->
     bget (board s1) R C = bget (board s) R C)
  /\ ((pos (startRow m), pos (startCol m)) <> (pos (endRow m), pos (endCol m)) ->
      bget (board s1) (pos (startRow m)) (pos (startCol m)) = Some EMPTY)
  /\ ((ep = true -> pos (startRow m) <> pos (endRow m)) ->
      bget (board s1) (pos (endRow m)) (pos (endCol m))
      = Some (if isPawnPromotion m then pc (fst (pieceMoved m)) "Q"
              else pieceMoved m))
  /\ (ep = true -> pos (startRow m) <> pos (endRow m) ->
      bget (board s1) (pos (startRow m)) (pos (endCol m)) = Some EMPTY).
Proof.
  intros Hwf Hm Hmake.
  pose proof (built_indexable s a b ep false m Hwf Hm) as (Hsr & Hsc & Her & Hec).
  pose proof (Move_init_fields _ _ _ _ _ _ Hm) as (_ & _ & _ & _ & F5 & F6 & _).
  rewrite (makeMove_board s m s1 Hwf F6 Hmake). unfold made_board. cbv zeta.
  rewrite F5.
  destruct ep, (isPawnPromotion m); repeat split; intros;
    cell_of_bset; cell_cases;
    try match goal with
        | H : true = true -> _ |- _ => specialize (H eq_refl)
        end; cell_cases.
Qed.

Lemma makeMove_cells_witness :
  exists m s1,
    Move_init (6, 4) (4, 4) (board GameState_init) false false = Ok m
    /\ makeMove GameState_init m = Ok s1
    /\ bget (board s1) 6 4 = Some EMPTY
    /\ bget (board s1) 4 4 = Some (pc "w" "p")
    /\ bget (board s1) 7 4 = bget (board GameState_init) 7 4.
Proof.
  destruct (Move_init (6, 4) (4, 4) (board GameState_init) false false)
    as [m|] eqn:Em; [|vm_compute in Em; discriminate].
  destruct (makeMove GameState_init m) as [s1|] eqn:E1;
    [|vm_compute in Em; injection Em as <-; vm_compute in E1; discriminate].
  exists m, s1. split; [reflexivity|]. split; [exact E1|].
  destruct (makeMove_cells GameState_init (6, 4) (4, 4) false m s1
              wf_board_init Em E1) as (H0 & H1 & H2 & _).
  assert (Hm : m = {| startRow := 6; startCol := 4; endRow := 4; endCol := 4;
                      pieceMoved := pc "w" "p"; pieceCaptured := EMPTY;
                      isPawnPromotion := false; isEnpassantMove := false;
                      isCapture := false; isCastleMove := false;
                      moveID := 6444 |})
    by (vm_compute in Em; injection Em as <-; reflexivity).
  subst m. cbn in H0, H1, H2.
  split; [apply H1; discriminate|].
  split; [apply H2; discriminate|].
  apply H0; discriminate.
Defined.

(** ** The notation of moves *)

Lemma in_range_cases i : 0 <= i < 8 ->
  i = 0 \/ i = 1 \/ i = 2 \/ i = 3 \/ i = 4 \/ i = 5 \/ i = 6 \/ i = 7.
Proof. lia. Qed.

Lemma eight_keys_get (d : list (Z * String.string)) i
    v0 v1 v2 v3 v4 v5 v6 v7 :
  d = [(0, v0); (1, v1); (2, v2); (3, v3); (4, v4); (5, v5); (6, v6); (7, v7)]
      \/ d = [(7, v7); (6, v6); (5, v5); (4, v4); (3, v3); (2, v2); (1, v1); (0, v0)] ->
  ~ 0 <= i < 8 -> PyDict.get Z.eqb d i = Raise KeyError.
Proof.
  intros [->| ->] Hn; cbn [PyDict.get];
    repeat match goal with
           | |- context [?k =? i] =>
               replace (k =? i) with false by (symmetry; apply Z.eqb_neq; lia)
           end; reflexivity.
Qed.

Lemma colsToFiles_get c :
  (0 <= c < 8 ->
   exists ch, PyDict.get Z.eqb colsToFiles c = Ok (String.String ch String.EmptyString))
  /\ (~ 0 <= c < 8 -> PyDict.get Z.eqb colsToFiles c = Raise KeyError).
Proof.
  split.
  - intros H. apply in_range_cases in H.
    repeat (destruct H as [->|H]; [eexists; reflexivity|]). subst.
    eexists; reflexivity.
  - intros H. eapply eight_keys_get; [left; reflexivity | exact H].
Qed.

Lemma rowsToRanks_get r :
  (0 <= r < 8 ->
   exists ch, PyDict.get Z.eqb rowsToRanks r = Ok (String.String ch String.EmptyString))
  /\ (~ 0 <= r < 8 -> PyDict.get Z.eqb rowsToRanks r = Raise KeyError).
Proof.
  split.
  - intros H. apply in_range_cases in H.
    repeat (destruct H as [->|H]; [eexists; reflexivity|]). subst.
    eexists; reflexivity.
  - intros H. eapply eight_keys_get; [right; reflexivity | exact H].
Qed.

Lemma colsToFiles_inj c c' t :
  PyDict.get Z.eqb colsToFiles c = Ok t ->
  PyDict.get Z.eqb colsToFiles c' = Ok t -> c = c'.
Proof.
  intros H H'.
  assert (Hc : 0 <= c < 8).
  { destruct (Z_le_dec 0 c), (Z_lt_dec c 8); try lia;
      rewrite (proj2 (colsToFiles_get c)) in H by lia; discriminate. }
  assert (Hc' : 0 <= c' < 8).
  { destruct (Z_le_dec 0 c'), (Z_lt_dec c' 8); try lia;
      rewrite (proj2 (colsToFiles_get c')) in H' by lia; discriminate. }
  apply in_range_cases in Hc, Hc'.
  repeat (destruct Hc as [->|Hc]); subst; vm_compute in H; injection H as <-;
    repeat (destruct Hc' as [->|Hc']); subst; vm_compute in H';
    first [reflexivity | discriminate].
Qed.

Lemma rowsToRanks_inj r r' t :
  PyDict.get Z.eqb rowsToRanks r = Ok t ->
  PyDict.get Z.eqb rowsToRanks r' = Ok t -> r = r'.
Proof.
  intros H H'.
  assert (Hc : 0 <= r < 8).
  { destruct (Z_le_dec 0 r), (Z_lt_dec r 8); try lia;
      rewrite (proj2 (rowsToRanks_get r)) in H by lia; discriminate. }
  assert (Hc' : 0 <= r' < 8).
  { destruct (Z_le_dec 0 r'), (Z_lt_dec r' 8); try lia;
      rewrite (proj2 (rowsToRanks_get r')) in H' by lia; discriminate. }
  apply in_range_cases in Hc, Hc'.
  repeat (destruct Hc as [->|Hc]); subst; vm_compute in H; injection H as <-;
    repeat (destruct Hc' as [->|Hc']); subst; vm_compute in H';
    first [reflexivity | discriminate].
Qed.

Lemma in_bounds_iff r c : in_bounds r c = true <-> 0 <= r < 8 /\ 0 <= c < 8.
Proof.
  unfold in_bounds. rewrite !andb_true_iff, !Z.leb_le, !Z.ltb_lt. lia.
Qed.

Lemma getRankFile_spec r c :
  (in_bounds r c = true ->
   exists f k, getRankFile r c
               = Ok (String.String f (String.String k String.EmptyString))
               /\ PyDict.get Z.eqb colsToFiles c = Ok (String.String f String.EmptyString)
               /\ PyDict.get Z.eqb rowsToRanks r = Ok (String.String k String.EmptyString))
  /\ (in_bounds r c = false -> getRankFile r c = Raise KeyError).
Proof.
  unfold getRankFile. split.
  - intros H. apply in_bounds_iff in H as [Hr Hc].
    destruct (proj1 (colsToFiles_get c) Hc) as [f Hf].
    destruct (proj1 (rowsToRanks_get r) Hr) as [k Hk].
    exists f, k. rewrite Hf, Hk. cbn. auto.
  - intros H.
    assert (Hn : ~ (0 <= r < 8 /\ 0 <= c < 8))
      by (rewrite <- in_bounds_iff; congruence).
    destruct (Z_le_dec 0 c), (Z_lt_dec c 8);
      try (rewrite (proj2 (colsToFiles_get c)) by lia; reflexivity).
    destruct (proj1 (colsToFiles_get c) (conj l l0)) as [f ->]. cbn [bind].
    rewrite (proj2 (rowsToRanks_get r)) by lia. reflexivity.
Qed.

(** X16: [getChessNotation] returns a string of four characters when both
    squares of the move lie on the board, and raises [KeyError] when one of
    them does not (negative indices, which the board accepts, included). *)
Theorem getChessNotation_spec (m : Move) :
  (in_bounds (startRow m) (startCol m) = true ->
   in_bounds (endRow m) (endCol m) = true ->
   exists t, getChessNotation m = Ok t /\ String.length t = 4%nat)
  /\ (in_bounds (startRow m) (startCol m) && in_bounds (endRow m) (endCol m)
      = false ->
      getChessNotation m = Raise KeyError).
Proof.
  unfold getChessNotation. split.
  - intros Hs He.
    destruct (proj1 (getRankFile_spec _ _) Hs) as (f1 & k1 & -> & _).
    destruct (proj1 (getRankFile_spec _ _) He) as (f2 & k2 & -> & _).
    cbn. eauto.
  - intros H. apply andb_false_iff in H.
    destruct (in_bounds (startRow m) (startCol m)) eqn:Hs.
    + destruct (proj1 (getRankFile_spec _ _) Hs) as (f1 & k1 & -> & _).
      cbn [bind]. destruct H as [H|H]; [discriminate|].
      now rewrite (proj2 (getRankFile_spec _ _) H).
    + now rewrite (proj2 (getRankFile_spec _ _) Hs).
Qed.

Lemma getChessNotation_spec_witness :
  exists m,
    Move_init (6, 4) (4, 4) (board GameState_init) false false = Ok m
    /\ exists t, getChessNotation m = Ok t /\ String.length t = 4%nat.
Proof.
  destruct (Move_init (6, 4) (4, 4) (board GameState_init) false false)
    as [m|] eqn:Em; [|vm_compute in Em; discriminate].
  exists m. split; [reflexivity|].
  apply Move_init_fields in Em as (E1 & E2 & E3 & E4 & _).
  apply (proj1 (getChessNotation_spec m)); rewrite ?E1, ?E2, ?E3, ?E4; reflexivity.
Defined.

Lemma getRankFile_Ok r c t :
  getRankFile r c = Ok t ->
  exists f k, t = String.String f (String.String k String.EmptyString)
              /\ PyDict.get Z.eqb colsToFiles c = Ok (String.String f String.EmptyString)
              /\ PyDict.get Z.eqb rowsToRanks r = Ok (String.String k String.EmptyString).
Proof.
  intros H. destruct (in_bounds r c) eqn:E.
  - destruct (proj1 (getRankFile_spec r c) E) as (f & k & Ht & Hf & Hk).
    exists f, k. split; [congruence | auto].
  - rewrite (proj2 (getRankFile_spec r c) E) in H. discriminate.
Qed.

(** X17: two moves with the same notation have the same start and end
    squares. *)
Theorem getChessNotation_inj (m1 m2 : Move) (t : String.string) :
  getChessNotation m1 = Ok t -> getChessNotation m2 = Ok t ->
  (startRow m1, startCol m1, endRow m1, endCol m1)
  = (startRow m2, startCol m2, endRow m2, endCol m2).
Proof.
  unfold getChessNotation. intros H1 H2.
  apply bind_Ok in H1 as (a1 & Ha1 & H1). apply bind_Ok in H1 as (b1 & Hb1 & H1).
  apply bind_Ok in H2 as (a2 & Ha2 & H2). apply bind_Ok in H2 as (b2 & Hb2 & H2).
  apply getRankFile_Ok in Ha1 as (f1 & k1 & -> & Hf1 & Hk1).
  apply getRankFile_Ok in Hb1 as (f1' & k1' & -> & Hf1' & Hk1').
  apply getRankFile_Ok in Ha2 as (f2 & k2 & -> & Hf2 & Hk2).
  apply getRankFile_Ok in Hb2 as (f2' & k2' & -> & Hf2' & Hk2').
  injection H1 as <-. cbn in H2. injection H2 as -> -> -> ->.
  f_equal; [f_equal; [f_equal|]|].
  - eapply rowsToRanks_inj; eauto.
  - eapply colsToFiles_inj; eauto.
  - eapply rowsToRanks_inj; eauto.
  - eapply colsToFiles_inj; eauto.
Qed.

Lemma getChessNotation_inj_witness :
  exists m1 m2,
    Move_init (7, 6) (5, 5) (board GameState_init) false false = Ok m1
    /\ Move_init (7, 6) (5, 5) (board (state_after game_open)) false false = Ok m2
    /\ getChessNotation m1 = Ok "g1f3"%string
    /\ getChessNotation m2 = Ok "g1f3"%string
    /\ (startRow m1, startCol m1, endRow m1, endCol m1)
       = (startRow m2, startCol m2, endRow m2, endCol m2).
Proof.
  destruct (Move_init (7, 6) (5, 5) (board GameState_init) false false)
    as [m1|] eqn:E1; [|vm_compute in E1; discriminate].
  destruct (Move_init (7, 6) (5, 5) (board (state_after game_open)) false false)
    as [m2|] eqn:E2; [|vm_compute in E2; discriminate].
  exists m1, m2. split; [reflexivity|]. split; [reflexivity|].
  assert (H1 : getChessNotation m1 = Ok "g1f3"%string)
    by (vm_compute in E1; injection E1 as <-; reflexivity).
  assert (H2 : getChessNotation m2 = Ok "g1f3"%string)
    by (vm_compute in E2; injection E2 as <-; reflexivity).
  split; [exact H1|]. split; [exact H2|].
  exact (getChessNotation_inj m1 m2 _ H1 H2).
Defined.

(** X18: [str(move)] of a move that is no castle move raises [KeyError]
    exactly when the end square is off the board, or the move is a pawn
    capture whose start column is off the board; otherwise the text ends with
    the name of the end square. *)
Theorem Move_str_spec (m : Move) :
  isCastleMove m = false ->
  (Move_str m = Raise KeyError <->
   in_bounds (endRow m) (endCol m) = false
   \/ (snd (pieceMoved m) = "p"%char /\ isCapture m = true
       /\ ~ 0 <= startCol m < 8))
  /\ (Move_str m <> Raise KeyError ->
      exists pre sq,
        getRankFile (endRow m) (endCol m) = Ok sq
        /\ Move_str m = Ok (String.append pre sq)).
Proof.
  unfold Move_str. intros ->.
  destruct (in_bounds (endRow m) (endCol m)) eqn:Hb.
  2:{ rewrite (proj2 (getRankFile_spec _ _) Hb). cbn [bind].
      split; [split; auto | congruence]. }
  destruct (proj1 (getRankFile_spec _ _) Hb) as (f & k & -> & _). cbn [bind].
  destruct (Ascii.eqb_spec (snd (pieceMoved m)) "p") as [Hp|Hp].
  2:{ split.
      - split; [discriminate|]. intros [H|(H & _)]; [discriminate | contradiction].
      - intros _. eexists _, _. split; reflexivity. }
  destruct (isCapture m) eqn:Hc.
  2:{ split.
      - split; [discriminate|].
        intros [H|(_ & H & _)]; discriminate.
      - intros _. exists String.EmptyString. eexists. split; reflexivity. }
  destruct (Z_le_dec 0 (startCol m)) as [H0|H0];
    [destruct (Z_lt_dec (startCol m) 8) as [H8|H8]|].
  - destruct (proj1 (colsToFiles_get (startCol m)) (conj H0 H8)) as [ch ->].
    cbn [bind]. split.
    + split; [discriminate|]. intros [H|(_ & _ & H)]; [discriminate | lia].
    + intros _. eexists _, _. split; reflexivity.
  - rewrite (proj2 (colsToFiles_get (startCol m))) by lia. cbn [bind].
    split; [|congruence]. split; [|reflexivity].
    intros _. right. repeat split; auto. lia.
  - rewrite (proj2 (colsToFiles_get (startCol m))) by lia. cbn [bind].
    split; [|congruence]. split; [|reflexivity].
    intros _. right. repeat split; auto. lia.
Qed.

Lemma Move_str_spec_witness :
  exists m,
    Move_init (6, 4) (4, 4) (board GameState_init) false false = Ok m
    /\ isCastleMove m = false
    /\ Move_str m = Ok "e4"%string
    /\ exists pre sq,
         getRankFile (endRow m) (endCol m) = Ok sq
         /\ Move_str m = Ok (String.append pre sq).
Proof.
  destruct (Move_init (6, 4) (4, 4) (board GameState_init) false false)
    as [m|] eqn:Em; [|vm_compute in Em; discriminate].
  exists m. split; [reflexivity|].
  assert (Hs : Move_str m = Ok "e4"%string)
    by (vm_compute in Em; injection Em as <-; reflexivity).
  apply Move_init_fields in Em as (_ & _ & _ & _ & _ & Hc & _).
  split; [exact Hc|]. split; [exact Hs|].
  apply (proj2 (Move_str_spec m Hc)). rewrite Hs. discriminate.
Defined.
